(** * Simulated-annealing Sudoku solver (Sudoku.Recuit/Resources/Recuit.py)

    A shallow embedding of the solver and the properties of its
    specification.  Grids are numpy 9x9 integer arrays, modelled as lists
    of rows of [Z]; Python sets are [gset Z]; the floating-point
    temperature is idealised as a real number, with the IEEE special
    values that a division by a zero temperature produces kept explicit.
    Every random draw is an explicit argument (an oracle), and the
    contract of the random API is a predicate on it. *)

From Stdlib Require Import ZArith List Reals Lra Lia.
From stdpp Require Import base list gmap sets.

Local Open Scope Z_scope.

(** ** Data model *)

(** A coordinate [(row, column)]. *)
Abbreviation cell := (nat * nat)%type.

(** A numpy 2-D integer array, row-major. *)
Abbreviation ndarray := (list (list Z)).

(** [range(a, b)] *)
Definition range (a b : nat) : list nat := seq a (b - a).

(** [m[i][j]] (also written [m[i, j]]).  Outside the shape of the array
    numpy raises [IndexError]; the model reads 0 there.  The properties below
    are stated for arrays of shape (9, 9) and coordinates below 9, where no
    index is out of range. *)
Definition nd_get (m : ndarray) (c : cell) : Z := (m !!! c.1) !!! c.2.

(** [m[i][j] = v] on an array: in-place update of one entry (no change
    outside the shape, where numpy raises). *)
Definition nd_set (m : ndarray) (c : cell) (v : Z) : ndarray :=
  alter (λ row, <[c.2 := v]> row) c.1 m.

(** The shape [(9, 9)] that [reshape((9, 9))] gives the input. *)
Definition shape9 (m : ndarray) : Prop :=
  length m = 9%nat ∧ Forall (λ row, length row = 9%nat) m.

(** ** [blocks_index] *)

Definition blocks_index : list (list cell) :=
  fmap (λ row,
         let row_start := (3 * (row mod 3))%nat in
         let column_start := (3 * (row / 3))%nat in
         flat_map (λ x, fmap (λ y, (x, y)) (range column_start (column_start + 3)))
                  (range row_start (row_start + 3)))
      (range 0 9).

(** ** [Solver.compute_error] *)

(** The body of the double loop: one visited cell. *)
Definition scan_cell (matrix : ndarray) (i : nat)
    (acc : Z * list (gset Z) * list (gset Z)) (j : nat)
    : Z * list (gset Z) * list (gset Z) :=
  let '(nb_error, rows, cols) := acc in
  let val := nd_get matrix (i, j) in
  (nb_error + (Z.b2z (bool_decide (val ∈ rows !!! i))
               + Z.b2z (bool_decide (val ∈ cols !!! j))),
   alter (λ s, {[val]} ∪ s) i rows,
   alter (λ s, {[val]} ∪ s) j cols).

Definition compute_error (matrix : ndarray) : Z :=
  (foldl (λ acc i, foldl (scan_cell matrix i) acc (range 0 9))
         (0, replicate 9 ∅, replicate 9 ∅) (range 0 9)).1.1.


(** ** Exceptions and the random API *)

Inductive exn : Set := ValueError.

(** A computation that returns a value or raises. *)
Inductive exc (A : Type) : Type :=
  | Return (a : A)
  | Raise (e : exn).
Arguments Return {A} a.
Arguments Raise {A} e.

#[export] Instance exc_ret : MRet exc := @Return.
#[export] Instance exc_bind : MBind exc :=
  λ A B f m, match m with Return a => f a | Raise e => Raise e end.

(** The outcome of one call of [neighbor_sudoku]'s random functions:
    [random.randint(0, 8)] and [random.sample(cells_available, 2)]. *)
Record draw : Type := { randint : nat; sample : cell * cell }.

(** [random.sample(population, 2)] raises [ValueError] when the population
    has fewer than two elements, and otherwise returns the two elements the
    generator picked. *)
Definition random_sample (population : list cell) (picked : cell * cell)
    : exc (cell * cell) :=
  if decide (length population < 2)%nat then Raise ValueError else Return picked.

(** Contract of [random.sample(population, 2)]: the elements at two
    different positions of the population. *)
Definition sample_ok (population : list cell) (picked : cell * cell) : Prop :=
  ∃ i1 i2 : nat, i1 ≠ i2 ∧ population !! i1 = Some picked.1
                 ∧ population !! i2 = Some picked.2.

(** [np.arange(a, b)] *)
Definition arange (a b : Z) : list Z :=
  fmap (λ k, a + Z.of_nat k) (seq 0 (Z.to_nat (b - a))).

(** ** [Solver.random_matrix] *)

(** First inner loop: [L = L[L != sudoku[block[0]][block[1]]]]. *)
Definition drop_fixed (sudoku : ndarray) (L : list Z) (block : cell) : list Z :=
  if decide (nd_get sudoku block ≠ 0)
  then filter (λ x, x ≠ nd_get sudoku block) L
  else L.

(** Second inner loop: fill an empty cell with [L[0]] while [L] lasts. *)
Definition place (acc : ndarray * list Z) (block : cell) : ndarray * list Z :=
  let '(result, L) := acc in
  match L with
  | L0 :: L1 =>
      if decide (nd_get result block = 0)
      then (nd_set result block L0, L1)
      else (result, L)
  | [] => (result, L)
  end.

(** One iteration of the loop over the blocks; [shuffled] is [L] after
    [np.random.shuffle(L)]. *)
Definition fill_block (sudoku : ndarray) (result : ndarray)
    (blocks : list cell) (shuffled : list Z) : ndarray :=
  let L := foldl (drop_fixed sudoku) shuffled blocks in
  (foldl place (result, L) blocks).1.

(** [shuffles k] is the outcome of the [k]-th call of [np.random.shuffle]. *)
Definition random_matrix (index : list (list cell)) (shuffles : nat → list Z)
    (sudoku : ndarray) : ndarray :=
  let result := sudoku in
  foldl (λ result kb, fill_block sudoku result kb.2 (shuffles kb.1))
        result (zip (seq 0 (length index)) index).

(** Contract of [np.random.shuffle] on [np.arange(1, 10)]. *)
Definition shuffles_ok (shuffles : nat → list Z) : Prop :=
  ∀ k, shuffles k ≡ₚ arange 1 10.

(** ** The solver object *)

Record Solver : Type := mkSolver {
  basic_grid : ndarray;
  index : list (list cell);
  grid : ndarray;
  grid_score : Z;
  pre_filled_indexes : list cell;
  temperature : R;
  limit : nat;
  cooling_rate : R
}.

(** [self.grid = g; self.grid_score = s] *)
Definition set_grid (self : Solver) (g : ndarray) (s : Z) : Solver :=
  mkSolver (basic_grid self) (index self) g s (pre_filled_indexes self)
           (temperature self) (limit self) (cooling_rate self).

(** [self.temperature = t] *)
Definition set_temperature (self : Solver) (t : R) : Solver :=
  mkSolver (basic_grid self) (index self) (grid self) (grid_score self)
           (pre_filled_indexes self) t (limit self) (cooling_rate self).

(** [[tuple(l) for l in np.argwhere(grid != 0)]] *)
Definition argwhere_nonzero (g : ndarray) : list cell :=
  flat_map (λ i, flat_map (λ j, if decide (nd_get g (i, j) ≠ 0)
                                then [(i, j)] else [])
                          (range 0 (length (g !!! i))))
           (range 0 (length g)).

(** [np.count_nonzero(grid == 0)] *)
Definition count_zero (g : ndarray) : nat :=
  length (filter (λ v, v = 0) (concat g)).

(** ** [Solver.neighbor_sudoku] *)

(** The list [cells_available] built by the loop over [self.index[block]];
    [random.randint(0, 8)] keeps [block] inside the table. *)
Definition cells_available (self : Solver) (block : nat) : list cell :=
  filter (λ b, b ∉ pre_filled_indexes self) (index self !!! block).

Definition neighbor_sudoku (self : Solver) (d : draw) : exc ndarray :=
  let result := grid self in
  let block := randint d in
  let cells := cells_available self block in
  if decide (length cells < 2)%nat then Return result
  else
    '(cell1, cell2) ← random_sample cells (sample d);
    let v2 := nd_get result cell2 in
    let v1 := nd_get result cell1 in
    Return (nd_set (nd_set result cell1 v2) cell2 v1).

(** Contract of the two random calls of [neighbor_sudoku]. *)
Definition draw_ok (self : Solver) (d : draw) : Prop :=
  (randint d ≤ 8)%nat ∧
  ((2 ≤ length (cells_available self (randint d)))%nat →
   sample_ok (cells_available self (randint d)) (sample d)).

(** ** Floating point

    Finite values are idealised as real numbers: no rounding, overflow or
    underflow.  The special values are kept because a zero temperature makes
    the division of line 118 produce them. *)

Inductive float : Type :=
  | Finite (r : R)
  | PInf
  | NInf
  | NaN.

(** [x / t] for an integer [x] and a [np.float64] [t] (the type [np.std]
    returns and the schedule keeps): numpy does not raise on the divisor 0.0,
    it gives an infinity of the sign of [x], or NaN for [x] = 0. *)
Definition true_divide (x t : R) : float :=
  if Req_dec_T t 0%R then
    (if Rlt_dec 0 x then PInf else if Rlt_dec x 0 then NInf else NaN)
  else Finite (x / t).

(** [np.exp] *)
Definition np_exp (x : float) : float :=
  match x with
  | Finite r => Finite (exp r)
  | PInf => PInf
  | NInf => Finite 0
  | NaN => NaN
  end.

(** [d < p] for a finite [d]; every comparison with NaN is false. *)
Definition float_lt (d : R) (p : float) : bool :=
  match p with
  | Finite r => if Rlt_dec d r then true else false
  | PInf => true
  | NInf => false
  | NaN => false
  end.

(** [np.random.uniform(low, high, 1)] of the legacy generator:
    [low + (high - low) * u] for the generator's next double [u], which lies
    in the half-open interval from 0 to 1. *)
Definition np_random_uniform (low high u : R) : R := (low + (high - low) * u)%R.

(** Contract of the generator's next double. *)
Definition double_ok (u : R) : Prop := (0 <= u < 1)%R.

Definition sum_R (l : list R) : R := foldr Rplus 0%R l.

(** [np.mean] *)
Definition np_mean (l : list R) : R := (sum_R l / INR (length l))%R.

(** [np.std]: [sqrt(mean(abs(x - x.mean())**2))]. *)
Definition np_std (l : list Z) : R :=
  let x := fmap IZR l in
  let m := np_mean x in
  sqrt (np_mean (fmap (λ xi, (Rabs (xi - m) ^ 2)%R) x)).

(** ** [Solver.init_temperature] *)

(** The loop [for _ in range(10)]; [draws k] is what the random functions
    return in iteration [k]. *)
Fixpoint init_temperature_loop (self : Solver) (sudoku_list : list Z)
    (draws : nat → draw) (its : list nat) : exc (list Z * Solver) :=
  match its with
  | [] => Return (sudoku_list, self)
  | k :: its' =>
      neighbor ← neighbor_sudoku self (draws k);
      let neighbor_score := compute_error neighbor in
      init_temperature_loop (set_grid self neighbor neighbor_score)
                            (sudoku_list ++ [neighbor_score]) draws its'
  end.

(** Returns the value of [np.std(sudoku_list)] and the mutated object. *)
Definition init_temperature (self : Solver) (draws : nat → draw)
    : exc (R * Solver) :=
  '(sudoku_list, self') ← init_temperature_loop self [] draws (range 0 10);
  Return (np_std sudoku_list, self').

(** ** [Solver.__init__] *)

(** Lines 28-33: the attributes assigned before [init_temperature] runs.  The
    attributes assigned after it ([temperature], [limit], [cooling_rate]) do
    not exist while it runs; the record holds 0 there, which nothing reads
    before the assignment. *)
Definition init_assign (grid0 : ndarray) (shuffles : nat → list Z) : Solver :=
  let g := random_matrix blocks_index shuffles grid0 in
  mkSolver grid0 blocks_index g (compute_error g) (argwhere_nonzero grid0)
           0%R 0%nat 0%R.

Definition init (grid0 : ndarray) (rate : R)
    (shuffles : nat → list Z) (draws : nat → draw) : exc Solver :=
  let self := init_assign grid0 shuffles in
  '(t, self) ← init_temperature self draws;
  Return (mkSolver (basic_grid self) (index self) (grid self) (grid_score self)
                   (pre_filled_indexes self) t (count_zero grid0) rate).

(** ** [Solver.solve] *)

(** The random outcomes of one inner-loop iteration: those of
    [neighbor_sudoku] and the generator's double behind [np.random.uniform]. *)
Record trial : Type := { t_draw : draw; t_double : R }.

(** Lines 116-121: one neighbor, scored and accepted or not. *)
Definition iteration (self : Solver) (t : trial) : exc Solver :=
  neighbor ← neighbor_sudoku self (t_draw t);
  let neighbor_score := compute_error neighbor in
  let p := np_exp (true_divide (IZR (grid_score self - neighbor_score))
                               (temperature self)) in
  if float_lt (np_random_uniform 1 0 (t_double t)) p
  then Return (set_grid self neighbor
                 (grid_score self + (neighbor_score - grid_score self)))
  else Return self.

(** The loop [for _ in range(self.limit)]: [inl g] is [return g] from inside
    the loop, [inr self] is the loop running to its end. *)
Fixpoint inner_loop (self : Solver) (trials : nat → trial) (its : list nat)
    : exc (ndarray + Solver) :=
  match its with
  | [] => Return (inr self)
  | k :: its' =>
      self ← iteration self (trials k);
      if decide (grid_score self ≤ 0) then Return (inl (grid self))
      else inner_loop self trials its'
  end.

(** Lines 125-133: the reheat counter and the temperature schedule.  The
    product and the sum are those of the real numbers, where the program
    rounds each to a double (and 0.99 is the double nearest to 99/100): the
    properties below say which operation an epoch applies, and the sign and
    the order of the temperatures, which rounding keeps; they give no value
    accumulated over several epochs. *)
Definition epoch_end (self : Solver) (previousScore reheats : Z) : Solver * Z :=
  let reheats := if decide (previousScore ≤ grid_score self)
                 then reheats + 1 else 0 in
  let self := set_temperature self (temperature self * cooling_rate self)%R in
  if decide (80 < reheats)
  then (set_temperature self (temperature self + 2)%R, 0)
  else (self, reheats).

(** What one pass through the body of [while True] does. *)
Inductive flow : Type :=
  | Returned (g : ndarray)
  | Raised (e : exn)
  | Next (self : Solver) (reheats : Z).

Definition epoch (self : Solver) (reheats : Z) (trials : nat → trial) : flow :=
  if decide (compute_error (grid self) = 0) then Returned (grid self)
  else
    let previousScore := grid_score self in
    match inner_loop self trials (range 0 (limit self)) with
    | Raise e => Raised e
    | Return (inl g) => Returned g
    | Return (inr self) =>
        let '(self, reheats) := epoch_end self previousScore reheats in
        Next self reheats
    end.

(** [while True], unrolled at most [fuel] times; [None] is a loop still
    running.  [trials e k] are the random outcomes of iteration [k] of
    epoch [e]. *)
Fixpoint solve_loop (fuel : nat) (self : Solver) (reheats : Z)
    (trials : nat → nat → trial) (e : nat) : option (exc ndarray) :=
  match fuel with
  | O => None
  | S fuel' =>
      match epoch self reheats (trials e) with
      | Returned g => Some (Return g)
      | Raised x => Some (Raise x)
      | Next self reheats => solve_loop fuel' self reheats trials (S e)
      end
  end.

(** The object and the reheat counter after [n] passes through the body of
    [while True], when none of them returned or raised. *)
Fixpoint run_epochs (n : nat) (self : Solver) (reheats : Z)
    (trials : nat → nat → trial) (e : nat) : option (Solver * Z) :=
  match n with
  | O => Some (self, reheats)
  | S n' =>
      match epoch self reheats (trials e) with
      | Next self reheats => run_epochs n' self reheats trials (S e)
      | _ => None
      end
  end.

Definition solve (fuel : nat) (self : Solver) (trials : nat → nat → trial)
    : option (exc ndarray) :=
  solve_loop fuel self 0 trials 0%nat.

(** ** The script (lines 136-139)

    [instance], once reshaped to (9, 9), is the puzzle; the cooling rate is
    the literal 0.99. *)
Definition main (instance : ndarray) (shuffles : nat → list Z)
    (draws : nat → draw) (trials : nat → nat → trial) (fuel : nat)
    : option (exc ndarray) :=
  match init instance (99 / 100)%R shuffles draws with
  | Return solver => solve fuel solver trials
  | Raise e => Some (Raise e)
  end.

(** ** Vocabulary of the specification *)

(** The digits 1 to 9. *)
Definition digits : list Z := arange 1 10.

Definition row (m : ndarray) (i : nat) : list Z :=
  fmap (λ j, nd_get m (i, j)) (range 0 9).

Definition column (m : ndarray) (j : nat) : list Z :=
  fmap (λ i, nd_get m (i, j)) (range 0 9).

(** The values of block [k], in the order of the block table. *)
Definition block_values (m : ndarray) (k : nat) : list Z :=
  fmap (nd_get m) (blocks_index !!! k).

(** The 81 coordinates, row by row. *)
Definition all_cells : list cell :=
  flat_map (λ i, fmap (λ j, (i, j)) (range 0 9)) (range 0 9).

(** The 3x3 region whose top-left corner is [(r0, c0)], row by row. *)
Definition region (r0 c0 : nat) : list cell :=
  [(r0, c0); (r0, c0 + 1); (r0, c0 + 2);
   (r0 + 1, c0); (r0 + 1, c0 + 1); (r0 + 1, c0 + 2);
   (r0 + 2, c0); (r0 + 2, c0 + 1); (r0 + 2, c0 + 2)]%nat.

Definition fully_filled (m : ndarray) : Prop :=
  ∀ c, c ∈ all_cells → nd_get m c ≠ 0.

Definition no_row_column_duplicate (m : ndarray) : Prop :=
  ∀ k, (k < 9)%nat → NoDup (row m k) ∧ NoDup (column m k).

(** Every block holds each digit exactly once. *)
Definition block_valid (m : ndarray) : Prop :=
  ∀ k, (k < 9)%nat → block_values m k ≡ₚ digits.

(** Every row, column and block holds each digit exactly once. *)
Definition valid_solution (m : ndarray) : Prop :=
  ∀ k, (k < 9)%nat →
    row m k ≡ₚ digits ∧ column m k ≡ₚ digits ∧ block_values m k ≡ₚ digits.

(** A puzzle: shape (9, 9), entries from 0 to 9, and no digit twice among
    the pre-filled cells of a block. *)
Definition well_formed (puzzle : ndarray) : Prop :=
  shape9 puzzle ∧
  (∀ c, c ∈ all_cells → 0 ≤ nd_get puzzle c ≤ 9) ∧
  (∀ k, (k < 9)%nat → NoDup (filter (λ v, v ≠ 0) (block_values puzzle k))).


(** ** The scan of [compute_error], cell by cell *)

Definition scan (m : ndarray) (acc : Z * list (gset Z) * list (gset Z)) (c : cell) :=
  scan_cell m c.1 acc c.2.

Definition seen_in_row (m : ndarray) (visited : list cell) (i : nat) : list Z :=
  nd_get m <$> filter (λ c, c.1 = i) visited.

Definition seen_in_column (m : ndarray) (visited : list cell) (j : nat) : list Z :=
  nd_get m <$> filter (λ c, c.2 = j) visited.

(** What the scan holds after visiting [visited]. *)
Record scan_inv (m : ndarray) (visited : list cell)
    (acc : Z * list (gset Z) * list (gset Z)) : Prop := {
  inv_rows_len : length acc.1.2 = 9%nat;
  inv_cols_len : length acc.2 = 9%nat;
  inv_rows : ∀ i v, (i < 9)%nat → v ∈ acc.1.2 !!! i ↔ v ∈ seen_in_row m visited i;
  inv_cols : ∀ j v, (j < 9)%nat → v ∈ acc.2 !!! j ↔ v ∈ seen_in_column m visited j;
  inv_nonneg : 0 ≤ acc.1.1;
  inv_zero : acc.1.1 = 0 ↔
     (∀ k, (k < 9)%nat → NoDup (seen_in_row m visited k)
                         ∧ NoDup (seen_in_column m visited k))
}.

(** A solved grid, used as a concrete instance. *)
Definition solved : ndarray :=
  [[5;3;4;6;7;8;9;1;2];
   [6;7;2;1;9;5;3;4;8];
   [1;9;8;3;4;2;5;6;7];
   [8;5;9;7;6;1;4;2;3];
   [4;2;6;8;5;3;7;9;1];
   [7;1;3;9;2;4;8;5;6];
   [9;6;1;5;3;7;2;8;4];
   [2;8;7;4;1;9;6;3;5];
   [3;4;5;2;8;6;1;7;9]].

(** ** Auxiliary notions for the initializer *)

(** The values the second loop of [random_matrix] leaves in a block whose
    cells hold [vs], given the candidates [L]. *)
Fixpoint fill_values (vs : list Z) (L : list Z) : list Z :=
  match vs with
  | [] => []
  | v :: vs' =>
      match L with
      | L0 :: L1 =>
          if decide (v = 0) then L0 :: fill_values vs' L1
          else v :: fill_values vs' L
      | [] => v :: fill_values vs' []
      end
  end.

(** The cell lies inside the array. *)
Definition in_bounds (m : ndarray) (c : cell) : Prop :=
  (c.1 < length m)%nat ∧ (c.2 < length (m !!! c.1))%nat.

(** The digits fixed by the puzzle in a block. *)
Definition fixed_values (sudoku : ndarray) (blocks : list cell) : list Z :=
  filter (λ v, v ≠ 0) (nd_get sudoku <$> blocks).

(** A puzzle with 30 pre-filled cells, and an outcome of the shuffles. *)
Definition example_puzzle : ndarray :=
  [[5;3;0;0;7;0;0;0;0];
   [6;0;0;1;9;5;0;0;0];
   [0;9;8;0;0;0;0;6;0];
   [8;0;0;0;6;0;0;0;3];
   [4;0;0;8;0;3;0;0;1];
   [7;0;0;0;2;0;0;0;6];
   [0;6;0;0;0;0;2;8;0];
   [0;0;0;4;1;9;0;0;5];
   [0;0;0;0;8;0;0;7;9]].

Definition example_shuffles : nat → list Z := λ _, [4; 9; 2; 7; 1; 8; 3; 6; 5].

(** ** Auxiliary notions for the neighbor move *)

(** The array after [a[c1], a[c2] = a[c2], a[c1]]. *)
Definition swap_cells (g : ndarray) (c1 c2 : cell) : ndarray :=
  nd_set (nd_set g c1 (nd_get g c2)) c2 (nd_get g c1).


(** The array that [neighbor_sudoku] returns. *)
Definition neighbor_grid (self : Solver) (d : draw) : ndarray :=
  if decide (length (cells_available self (randint d)) < 2)%nat
  then grid self
  else swap_cells (grid self) (sample d).1 (sample d).2.

(** The solver object of the examples: the initial object built from
    [example_puzzle], and an outcome of the random calls of one move. *)
Definition example_solver : Solver :=
  init_assign example_puzzle example_shuffles.

Definition example_draw : draw :=
  {| randint := 0; sample := ((0, 2), (1, 2))%nat |}.
(** ** Auxiliary notions for the solver object *)

(** The stored score is the score of the stored grid. *)
Definition synced (self : Solver) : Prop :=
  grid_score self = compute_error (grid self).

(** The random walk of the specification: the object after [k] moves, each
    generated from, and applied to, the grid the move before it left. *)
Fixpoint walk_state (self : Solver) (draws : nat → draw) (k : nat) : Solver :=
  match k with
  | O => self
  | S k' =>
      let s := walk_state self draws k' in
      let g := neighbor_grid s (draws k') in
      set_grid s g (compute_error g)
  end.

(** The scores recorded after each of the first [n] moves of the walk. *)
Definition walk_scores (self : Solver) (draws : nat → draw) (n : nat) : list Z :=
  (λ k, compute_error (grid (walk_state self draws (S k)))) <$> seq 0 n.

(** The population standard deviation of the specification: the square root
    of the mean squared deviation from the mean. *)
Definition population_std (l : list Z) : R :=
  let n := INR (length l) in
  let mu := (sum_R (IZR <$> l) / n)%R in
  sqrt (sum_R ((λ x, ((IZR x - mu) ^ 2)%R) <$> l) / n).

(** What holds of the solver object throughout a run on [puzzle]. *)
Record solver_inv (puzzle : ndarray) (self : Solver) : Prop := {
  inv_index : index self = blocks_index;
  inv_pre : pre_filled_indexes self = argwhere_nonzero puzzle;
  inv_shape : shape9 (grid self);
  inv_blocks : block_valid (grid self);
  inv_fixed : ∀ c, c ∈ all_cells → nd_get puzzle c ≠ 0 →
                   nd_get (grid self) c = nd_get puzzle c;
  inv_synced : synced self
}.

(** A returned grid that meets the output contract for [puzzle]. *)
Definition solves (puzzle g : ndarray) : Prop :=
  shape9 g ∧
  (∀ c, c ∈ all_cells → 1 ≤ nd_get g c ≤ 9) ∧
  valid_solution g ∧
  (∀ c, c ∈ all_cells → nd_get puzzle c ≠ 0 → nd_get g c = nd_get puzzle c).

(** The acceptance probability [p] of line 118. *)
Definition acceptance (self : Solver) (neighbor_score : Z) : float :=
  np_exp (true_divide (IZR (grid_score self - neighbor_score)) (temperature self)).

(** The test of line 119. *)
Definition accepted (self : Solver) (t : trial) : bool :=
  float_lt (np_random_uniform 1 0 (t_double t))
           (acceptance self (compute_error (neighbor_grid self (t_draw t)))).

(** The object after one iteration of the inner loop. *)
Definition iteration_state (self : Solver) (t : trial) : Solver :=
  if accepted self t
  then set_grid self (neighbor_grid self (t_draw t))
                (compute_error (neighbor_grid self (t_draw t)))
  else self.

(** A move of the example that leaves the score as it is (it exchanges the 9
    and the 3 of block 1), and the random outcomes of the examples. *)
Definition neutral_draw : draw :=
  {| randint := 1; sample := ((3, 1), (4, 2))%nat |}.

Definition neutral_trial : trial := {| t_draw := neutral_draw; t_double := 0 |}.

(** [solved] with two cells of block 0 emptied, and random outcomes under
    which the initializer fills them the wrong way round, the ten moves of
    [init_temperature] all fall on a block without free cells, and the first
    move of [solve] exchanges the two cells. *)
Definition two_empty : ndarray :=
  [[5;3;0;6;7;8;9;1;2];
   [6;0;2;1;9;5;3;4;8];
   [1;9;8;3;4;2;5;6;7];
   [8;5;9;7;6;1;4;2;3];
   [4;2;6;8;5;3;7;9;1];
   [7;1;3;9;2;4;8;5;6];
   [9;6;1;5;3;7;2;8;4];
   [2;8;7;4;1;9;6;3;5];
   [3;4;5;2;8;6;1;7;9]].

Definition two_empty_shuffles : nat → list Z := λ _, [7; 4; 1; 2; 3; 5; 6; 8; 9].

Definition idle_draw : draw :=
  {| randint := 4; sample := ((0, 0), (0, 0))%nat |}.

Definition fixing_trial : trial :=
  {| t_draw := {| randint := 0; sample := ((0, 2), (1, 1))%nat |};
     t_double := (1 / 2)%R |}.

(** The object [__init__] builds from [two_empty]. *)
Definition two_empty_solver : Solver :=
  mkSolver two_empty blocks_index
    (random_matrix blocks_index two_empty_shuffles two_empty) 4
    (argwhere_nonzero two_empty) 0%R (count_zero two_empty) (99 / 100)%R.

(** The object [__init__] builds from [example_puzzle] when the ten moves of
    the walk all exchange the cells of [example_draw]. *)
Definition started_solver : Solver :=
  mkSolver example_puzzle blocks_index (grid example_solver) 45
    (argwhere_nonzero example_puzzle) (1 / 2)%R (count_zero example_puzzle)
    (99 / 100)%R.

(** A trial that falls on a block without free cells. *)
Definition idle_trial : trial := {| t_draw := idle_draw; t_double := 0 |}.

(** ** Auxiliary notions for the further properties *)

Definition sum_Z (l : list Z) : Z := foldr Z.add 0 l.

(** The number of entries of [l] that repeat an earlier entry. *)
Definition repeats (l : list Z) : Z :=
  Z.of_nat (length l) - Z.of_nat (size (list_to_set l : gset Z)).

(** The number of digits that do not occur in [l]. *)
Definition missing (l : list Z) : Z :=
  Z.of_nat (length (filter (λ d, d ∉ l) digits)).

(** [p] is [g] with some cells emptied. *)
Definition emptied (p g : ndarray) : Prop :=
  ∀ c, c ∈ all_cells → nd_get p c = nd_get g c ∨ nd_get p c = 0.

(** The empty cells of block [k]. *)
Definition empty_cells (p : ndarray) (k : nat) : list cell :=
  filter (λ c, nd_get p c = 0) (blocks_index !!! k).

(** [solved] with one cell emptied in block 0 and one in block 4. *)
Definition single_gaps : ndarray :=
  [[5;3;0;6;7;8;9;1;2];
   [6;7;2;1;9;5;3;4;8];
   [1;9;8;3;4;2;5;6;7];
   [8;5;9;7;6;1;4;2;3];
   [4;2;6;8;0;3;7;9;1];
   [7;1;3;9;2;4;8;5;6];
   [9;6;1;5;3;7;2;8;4];
   [2;8;7;4;1;9;6;3;5];
   [3;4;5;2;8;6;1;7;9]].



(** Shuffles under which [random_matrix] turns the puzzle [p] into [s]: in
    every block, the digits [s] has at the empty cells of [p], in the order
    of the block table, before the other digits of the block. *)
Definition solution_shuffles (p s : ndarray) (k : nat) : list Z :=
  if decide (k < 9)%nat
  then (nd_get s <$> filter (λ c, nd_get p c = 0) (blocks_index !!! k)) ++
       (nd_get s <$> filter (λ c, nd_get p c ≠ 0) (blocks_index !!! k))
  else digits.

(** A move on block 0 that takes its first two free cells. *)
Definition first_pair (p : ndarray) : draw :=
  {| randint := 0;
     sample := (empty_cells p 0 !!! 0%nat, empty_cells p 0 !!! 1%nat) |}.

(** An array that is no puzzle: 12 is no digit, and block 0 holds 5 twice. *)
Definition crowded : ndarray :=
  [[5;12;0;0;7;0;0;0;0];
   [6;5;0;1;9;5;0;0;0];
   [0;9;8;0;0;0;0;6;0];
   [8;0;0;0;6;0;0;0;3];
   [4;0;0;8;0;3;0;0;1];
   [7;0;0;0;2;0;0;0;6];
   [0;6;0;0;0;0;2;8;0];
   [0;0;0;4;1;9;0;0;5];
   [0;0;0;0;8;0;0;7;9]].

(** * Properties *)

(** ** The block table *)

Lemma all_cells_spec (c : cell) : c ∈ all_cells ↔ (c.1 < 9 ∧ c.2 < 9)%nat.
Proof.
  destruct c as [i j]. unfold all_cells, range.
  rewrite list_elem_of_In, in_flat_map. split.
  - intros (x & Hx & Hin). apply list_elem_of_In, list_elem_of_fmap in Hin.
    destruct Hin as (y & Heq & Hy). apply in_seq in Hx.
    apply elem_of_seq in Hy. inversion Heq; subst. simpl. lia.
  - intros [Hi Hj]. cbn [fst snd] in Hi, Hj.
    exists i. split; [apply in_seq; lia|].
    apply list_elem_of_In, list_elem_of_fmap. exists j.
    split; [done|apply elem_of_seq; lia].
Qed.

Lemma blocks_index_length : length blocks_index = 9%nat.
Proof. reflexivity. Qed.

Lemma blocks_index_NoDup : NoDup (concat blocks_index).
Proof. apply (bool_decide_unpack _). by vm_compute. Qed.

Lemma blocks_index_cover (c : cell) : c ∈ concat blocks_index ↔ c ∈ all_cells.
Proof.
  split; revert c; apply Forall_forall;
    apply (bool_decide_unpack _); by vm_compute.
Qed.

Lemma blocks_index_rows : Forall (λ block, length block = 9%nat) blocks_index.
Proof. apply (bool_decide_unpack _). by vm_compute. Qed.

(** No cell lies in two blocks. *)
Lemma blocks_index_apart (k1 k2 : nat) (c : cell) :
  (k1 < 9)%nat → (k2 < 9)%nat → k1 ≠ k2 →
  c ∈ blocks_index !!! k1 → c ∉ blocks_index !!! k2.
Proof.
  intros Hk1 Hk2 Hne.
  assert (Hall : Forall (λ k1, Forall (λ k2, k1 ≠ k2 →
            Forall (λ c, c ∉ blocks_index !!! k2) (blocks_index !!! k1))
            (seq 0 9)) (seq 0 9)).
  { apply (bool_decide_unpack _). by vm_compute. }
  rewrite Forall_forall in Hall.
  specialize (Hall k1 ltac:(apply elem_of_seq; lia)).
  rewrite Forall_forall in Hall.
  specialize (Hall k2 ltac:(apply elem_of_seq; lia) Hne).
  rewrite Forall_forall in Hall. exact (Hall c).
Qed.

(** C8. [blocks_index] is a closed term (no input, no randomness) of 9
    blocks of 9 coordinates; no coordinate occurs twice in the whole table
    (so the blocks are pairwise disjoint), the table holds exactly the 81
    cells of the grid, and block [k] is the 3x3 region whose corner is
    [(3 * (k mod 3), 3 * (k / 3))]. *)
Theorem blocks_index_partition :
  length blocks_index = 9%nat ∧
  Forall (λ block, length block = 9%nat) blocks_index ∧
  NoDup (concat blocks_index) ∧
  (∀ k1 k2 b1 b2 c, blocks_index !! k1 = Some b1 → blocks_index !! k2 = Some b2 →
     k1 ≠ k2 → c ∈ b1 → c ∉ b2) ∧
  (∀ i j, (i < 9 ∧ j < 9)%nat ↔ (i, j) ∈ concat blocks_index) ∧
  length (concat blocks_index) = 81%nat ∧
  (∀ k, (k < 9)%nat →
     blocks_index !! k = Some (region (3 * (k mod 3)) (3 * (k / 3)))).
Proof.
  split_and!.
  - reflexivity.
  - apply (bool_decide_unpack _). by vm_compute.
  - apply blocks_index_NoDup.
  - intros k1 k2 b1 b2 c H1 H2 Hne Hc1 Hc2.
    pose proof blocks_index_NoDup as Hnd.
    assert (Hk1 : (k1 < 9)%nat) by (apply lookup_lt_Some in H1; exact H1).
    assert (Hk2 : (k2 < 9)%nat) by (apply lookup_lt_Some in H2; exact H2).
    assert (Hall : Forall (λ k1, Forall (λ k2, k1 ≠ k2 →
              Forall (λ c, c ∉ blocks_index !!! k2) (blocks_index !!! k1))
              (seq 0 9)) (seq 0 9)).
    { apply (bool_decide_unpack _). by vm_compute. }
    rewrite Forall_forall in Hall.
    specialize (Hall k1 ltac:(apply elem_of_seq; lia)).
    rewrite Forall_forall in Hall.
    specialize (Hall k2 ltac:(apply elem_of_seq; lia) Hne).
    rewrite Forall_forall in Hall.
    rewrite (list_lookup_total_correct _ _ _ H1) in Hall.
    rewrite (list_lookup_total_correct _ _ _ H2) in Hall.
    exact (Hall c Hc1 Hc2).
  - intros i j. rewrite blocks_index_cover, all_cells_spec. done.
  - reflexivity.
  - intros k Hk.
    do 9 (destruct k as [|k]; [reflexivity|]). lia.
Qed.

(** ** Array reads and writes *)

Lemma nd_get_set_eq (m : ndarray) (c : cell) (v : Z) :
  in_bounds m c → nd_get (nd_set m c v) c = v.
Proof.
  intros [H1 H2]. unfold nd_get, nd_set.
  rewrite list_lookup_total_alter_eq by done.
  by rewrite list_lookup_total_insert_eq.
Qed.

Lemma nd_get_set_ne (m : ndarray) (c c' : cell) (v : Z) :
  c ≠ c' → nd_get (nd_set m c v) c' = nd_get m c'.
Proof.
  intros Hne. unfold nd_get, nd_set. rewrite list_lookup_total_alter.
  case_decide as Hd; [|done]. destruct Hd as [Heq Hlt].
  rewrite list_lookup_total_insert_ne; [by rewrite Heq|].
  intros Heq2. apply Hne. destruct c, c'. simpl in *. by subst.
Qed.

Lemma length_nd_set (m : ndarray) (c : cell) (v : Z) :
  length (nd_set m c v) = length m.
Proof. apply length_alter. Qed.

Lemma row_length_nd_set (m : ndarray) (c : cell) (v : Z) (i : nat) :
  length (nd_set m c v !!! i) = length (m !!! i).
Proof.
  unfold nd_set. rewrite list_lookup_total_alter.
  case_decide as Hd; [|done]. destruct Hd as [<- _]. apply length_insert.
Qed.

Lemma in_bounds_nd_set (m : ndarray) (c c' : cell) (v : Z) :
  in_bounds (nd_set m c v) c' ↔ in_bounds m c'.
Proof. unfold in_bounds. by rewrite length_nd_set, row_length_nd_set. Qed.

Lemma shape9_in_bounds (m : ndarray) (c : cell) :
  shape9 m → c ∈ all_cells → in_bounds m c.
Proof.
  intros [Hlen Hrows] Hc. apply all_cells_spec in Hc as [H1 H2].
  split; [lia|].
  rewrite Forall_forall in Hrows. rewrite (Hrows (m !!! c.1)); [done|].
  apply list_elem_of_lookup. exists c.1.
  apply list_lookup_lookup_total_lt. lia.
Qed.

Lemma shape9_nd_set (m : ndarray) (c : cell) (v : Z) :
  shape9 m → shape9 (nd_set m c v).
Proof.
  intros [Hlen Hrows]. split; [by rewrite length_nd_set|].
  apply Forall_forall. intros r Hr.
  apply list_elem_of_lookup in Hr as [i Hi].
  assert (Hlt : (i < length m)%nat).
  { apply lookup_lt_Some in Hi. by rewrite length_nd_set in Hi. }
  apply list_lookup_total_correct in Hi. subst r.
  rewrite row_length_nd_set.
  rewrite Forall_forall in Hrows. apply Hrows.
  apply list_elem_of_lookup. exists i. by apply list_lookup_lookup_total_lt.
Qed.


(** ** The error function *)

Lemma foldl_nested {A} (f : nat → A → nat → A) (rs js : list nat) (a : A) :
  foldl (λ acc i, foldl (f i) acc js) a rs =
  foldl (λ acc c, f c.1 acc c.2) a (flat_map (λ i, (λ j, (i, j)) <$> js) rs).
Proof.
  revert a. induction rs as [|i rs IH]; intros a; [done|].
  simpl. rewrite foldl_app, <- IH. f_equal. by rewrite foldl_fmap.
Qed.

Lemma compute_error_scan (m : ndarray) :
  compute_error m = (foldl (scan m) (0, replicate 9 ∅, replicate 9 ∅) all_cells).1.1.
Proof. unfold compute_error, all_cells. by rewrite foldl_nested. Qed.

Lemma seen_in_row_snoc m visited c i :
  seen_in_row m (visited ++ [c]) i =
  seen_in_row m visited i ++ (if decide (c.1 = i) then [nd_get m c] else []).
Proof.
  unfold seen_in_row. rewrite filter_app, fmap_app. f_equal.
  rewrite filter_cons, filter_nil. by case_decide.
Qed.

Lemma seen_in_column_snoc m visited c j :
  seen_in_column m (visited ++ [c]) j =
  seen_in_column m visited j ++ (if decide (c.2 = j) then [nd_get m c] else []).
Proof.
  unfold seen_in_column. rewrite filter_app, fmap_app. f_equal.
  rewrite filter_cons, filter_nil. by case_decide.
Qed.

Lemma NoDup_snoc_iff {A} (l : list A) (x : A) : NoDup (l ++ [x]) ↔ NoDup l ∧ x ∉ l.
Proof.
  rewrite NoDup_app. split.
  - intros (Hl & Hd & _). split; [done|]. intros Hx. apply (Hd x Hx). by left.
  - intros [Hl Hx]. split_and!; [done| |apply NoDup_singleton].
    intros y Hy Hin. apply list_elem_of_singleton in Hin. by subst.
Qed.

Lemma scan_inv_step m visited acc c :
  (c.1 < 9)%nat → (c.2 < 9)%nat →
  scan_inv m visited acc → scan_inv m (visited ++ [c]) (scan m acc c).
Proof.
  destruct c as [i j], acc as [[n rows] cols]. cbn [fst snd].
  intros Hi Hj [Hrl Hcl Hr Hc Hn Hz]. cbn [fst snd] in *.
  unfold scan, scan_cell. cbn [fst snd].
  set (val := nd_get m (i, j)).
  assert (Hrow : ∀ i' v, (i' < 9)%nat →
      v ∈ alter (λ s, {[val]} ∪ s) i rows !!! i' ↔ v ∈ seen_in_row m (visited ++ [(i, j)]) i').
  { intros i' v Hi'. rewrite seen_in_row_snoc. cbn [fst]. fold val.
    rewrite list_lookup_total_alter.
    case_decide as Hd.
    - destruct Hd as [-> _]. rewrite decide_True by done.
      rewrite elem_of_union, elem_of_singleton, elem_of_app, list_elem_of_singleton.
      rewrite Hr by done. tauto.
    - rewrite decide_False by (intros ->; apply Hd; split; [done|lia]).
      rewrite app_nil_r. by apply Hr. }
  assert (Hcol : ∀ j' v, (j' < 9)%nat →
      v ∈ alter (λ s, {[val]} ∪ s) j cols !!! j' ↔ v ∈ seen_in_column m (visited ++ [(i, j)]) j').
  { intros j' v Hj'. rewrite seen_in_column_snoc. cbn [snd]. fold val.
    rewrite list_lookup_total_alter.
    case_decide as Hd.
    - destruct Hd as [-> _]. rewrite decide_True by done.
      rewrite elem_of_union, elem_of_singleton, elem_of_app, list_elem_of_singleton.
      rewrite Hc by done. tauto.
    - rewrite decide_False by (intros ->; apply Hd; split; [done|lia]).
      rewrite app_nil_r. by apply Hc. }
  split; cbn [fst snd].
  - by rewrite length_alter.
  - by rewrite length_alter.
  - exact Hrow.
  - exact Hcol.
  - destruct (bool_decide _), (bool_decide _); simpl; lia.
  - split.
    + intros Hsum.
      destruct (bool_decide_reflect (val ∈ rows !!! i)) as [?|Hvr];
        [destruct (bool_decide (val ∈ cols !!! j)); simpl in Hsum; lia|].
      destruct (bool_decide_reflect (val ∈ cols !!! j)) as [?|Hvc];
        [simpl in Hsum; lia|].
      assert (Hn0 : n = 0) by (simpl in Hsum; lia).
      rewrite Hr in Hvr by done. rewrite Hc in Hvc by done.
      pose proof (proj1 Hz Hn0) as Hnd. intros k Hk. destruct (Hnd k Hk) as [Hkr Hkc].
      rewrite seen_in_row_snoc, seen_in_column_snoc. cbn [fst snd]. fold val.
      split; case_decide; subst; rewrite ?app_nil_r; try done;
        by apply NoDup_snoc_iff.
    + intros Hall.
      assert (Hprev : ∀ k, (k < 9)%nat →
                 NoDup (seen_in_row m visited k) ∧ NoDup (seen_in_column m visited k)).
      { intros k Hk. destruct (Hall k Hk) as [Hkr Hkc].
        rewrite seen_in_row_snoc in Hkr. rewrite seen_in_column_snoc in Hkc.
        split.
        - by apply NoDup_app in Hkr as [? _].
        - by apply NoDup_app in Hkc as [? _]. }
      pose proof (proj2 Hz Hprev) as Hn0. subst n.
      destruct (Hall i Hi) as [Hir _]. destruct (Hall j Hj) as [_ Hjc].
      rewrite seen_in_row_snoc in Hir. rewrite seen_in_column_snoc in Hjc.
      cbn [fst snd] in Hir, Hjc. fold val in Hir, Hjc.
      rewrite decide_True in Hir by done. rewrite decide_True in Hjc by done.
      apply NoDup_snoc_iff in Hir as [_ Hir]. apply NoDup_snoc_iff in Hjc as [_ Hjc].
      rewrite <- Hr in Hir by done. rewrite <- Hc in Hjc by done.
      rewrite (bool_decide_eq_false_2 _ Hir), (bool_decide_eq_false_2 _ Hjc).
      reflexivity.
Qed.

Lemma scan_inv_all m visited :
  Forall (λ c : cell, (c.1 < 9 ∧ c.2 < 9)%nat) visited →
  scan_inv m visited (foldl (scan m) (0, replicate 9 ∅, replicate 9 ∅) visited).
Proof.
  induction visited as [|c visited IH] using rev_ind; intros Hall.
  - split; cbn [fst snd foldl]; try done.
    + intros i v Hi. unfold seen_in_row. rewrite filter_nil, fmap_nil.
      rewrite lookup_total_replicate_2 by lia.
      rewrite elem_of_empty, elem_of_nil. done.
    + intros i v Hi. unfold seen_in_column. rewrite filter_nil, fmap_nil.
      rewrite lookup_total_replicate_2 by lia.
      rewrite elem_of_empty, elem_of_nil. done.
    + split; [|done]. intros _ k _. unfold seen_in_row, seen_in_column.
      rewrite !filter_nil. split; apply NoDup_nil_2.
  - apply Forall_app in Hall as [Hall Hc]. apply Forall_singleton in Hc as [Hc1 Hc2].
    rewrite foldl_snoc. apply scan_inv_step; auto.
Qed.

Lemma seen_in_row_all m i : (i < 9)%nat → seen_in_row m all_cells i = row m i.
Proof.
  intros Hi. do 9 (destruct i as [|i]; [reflexivity|]). lia.
Qed.

Lemma seen_in_column_all m j : (j < 9)%nat → seen_in_column m all_cells j = column m j.
Proof.
  intros Hj. do 9 (destruct j as [|j]; [reflexivity|]). lia.
Qed.

Lemma compute_error_nonneg m : 0 ≤ compute_error m.
Proof.
  rewrite compute_error_scan. apply (inv_nonneg m all_cells), scan_inv_all.
  apply Forall_forall. intros c Hc. by apply all_cells_spec.
Qed.

Lemma compute_error_zero m : compute_error m = 0 ↔ no_row_column_duplicate m.
Proof.
  rewrite compute_error_scan.
  pose proof (scan_inv_all m all_cells) as Hinv.
  destruct Hinv as [_ _ _ _ _ Hz].
  { apply Forall_forall. intros c Hc. by apply all_cells_spec. }
  rewrite Hz. unfold no_row_column_duplicate.
  split; intros H k Hk; specialize (H k Hk).
  - by rewrite seen_in_row_all, seen_in_column_all in H.
  - by rewrite seen_in_row_all, seen_in_column_all.
Qed.

Lemma cell_in_block (c : cell) :
  c ∈ all_cells → ∃ k, (k < 9)%nat ∧ c ∈ blocks_index !!! k.
Proof.
  intros Hc. apply blocks_index_cover, list_elem_of_In, in_concat in Hc.
  destruct Hc as (b & Hb & Hcb).
  apply list_elem_of_In, list_elem_of_lookup in Hb as [k Hk].
  exists k. split; [by apply lookup_lt_Some in Hk|].
  rewrite (list_lookup_total_correct _ _ _ Hk). by apply list_elem_of_In.
Qed.

Lemma block_valid_digit (m : ndarray) (c : cell) :
  block_valid m → c ∈ all_cells → nd_get m c ∈ digits.
Proof.
  intros Hb Hc. destruct (cell_in_block c Hc) as (k & Hk & Hin).
  rewrite <- (Hb k Hk). unfold block_values.
  apply list_elem_of_fmap. by exists c.
Qed.

Lemma digits_NoDup : NoDup digits.
Proof. apply (bool_decide_unpack _). by vm_compute. Qed.

Lemma NoDup_digits_Permutation (l : list Z) :
  NoDup l → length l = 9%nat → (∀ x, x ∈ l → x ∈ digits) → l ≡ₚ digits.
Proof.
  intros Hnd Hlen Hsub. apply submseteq_length_Permutation.
  - by apply NoDup_submseteq.
  - rewrite Hlen. reflexivity.
Qed.

Lemma block_valid_solution (m : ndarray) :
  block_valid m → no_row_column_duplicate m ↔ valid_solution m.
Proof.
  intros Hb. split.
  - intros Hnd k Hk. destruct (Hnd k Hk) as [Hr Hc]. split_and!.
    + apply NoDup_digits_Permutation; [done|reflexivity|].
      intros x Hx. apply list_elem_of_fmap in Hx as (j & -> & Hj).
      apply block_valid_digit; [done|]. apply all_cells_spec.
      apply elem_of_seq in Hj. simpl. lia.
    + apply NoDup_digits_Permutation; [done|reflexivity|].
      intros x Hx. apply list_elem_of_fmap in Hx as (i & -> & Hi).
      apply block_valid_digit; [done|]. apply all_cells_spec.
      apply elem_of_seq in Hi. simpl. lia.
    + by apply Hb.
  - intros Hv k Hk. destruct (Hv k Hk) as (Hr & Hc & _).
    split; [rewrite Hr|rewrite Hc]; apply digits_NoDup.
Qed.

(** C2. On a (9, 9) array with no zero entry, [compute_error] returns 0
    exactly when no row and no column holds two equal entries; and on an
    array whose blocks each hold the digits 1 to 9 once (the solver's working
    grids), it returns 0 exactly when the array is a valid Sudoku solution. *)
Theorem compute_error_characterization (m : ndarray) :
  shape9 m →
  (fully_filled m → (compute_error m = 0 ↔ no_row_column_duplicate m)) ∧
  (block_valid m → (compute_error m = 0 ↔ valid_solution m)).
Proof.
  intros _. split.
  - intros _. apply compute_error_zero.
  - intros Hb. rewrite compute_error_zero. by apply block_valid_solution.
Qed.

Lemma shape9_solved : shape9 solved.
Proof. split; [reflexivity|]. apply (bool_decide_unpack _). by vm_compute. Qed.

Lemma compute_error_characterization_witness :
  shape9 solved ∧ fully_filled solved ∧ block_valid solved ∧
  no_row_column_duplicate solved ∧ valid_solution solved.
Proof.
  assert (Hf : fully_filled solved).
  { unfold fully_filled. apply Forall_forall.
    apply (bool_decide_unpack _). by vm_compute. }
  assert (Hb : block_valid solved).
  { intros k Hk. do 9 (destruct k as [|k];
      [apply (bool_decide_unpack _); by vm_compute|]). lia. }
  destruct (compute_error_characterization solved shape9_solved) as [H1 H2].
  split_and!; [apply shape9_solved|done|done| |].
  - apply (H1 Hf). by vm_compute.
  - apply (H2 Hb). by vm_compute.
Defined.

(** ** The initializer *)

Lemma drop_fixed_fold (sudoku : ndarray) (blocks : list cell) (L : list Z) :
  foldl (drop_fixed sudoku) L blocks =
  filter (λ x, x ∉ fixed_values sudoku blocks) L.
Proof.
  revert L. induction blocks as [|b bs IH]; intros L.
  - simpl. symmetry. induction L as [|x L IHL]; [done|].
    rewrite filter_cons_True, IHL; [done|]. unfold fixed_values.
    rewrite fmap_nil, filter_nil. apply not_elem_of_nil.
  - cbn [foldl]. rewrite IH. unfold drop_fixed, fixed_values.
    rewrite fmap_cons. case_decide as Hb.
    + rewrite filter_cons_True by done. rewrite list_filter_filter.
      apply list_filter_iff. intros x. rewrite not_elem_of_cons. tauto.
    + rewrite filter_cons_False by (simpl; tauto). done.
Qed.

Lemma fill_values_Permutation (vs L : list Z) :
  length (filter (λ v, v = 0) vs) = length L →
  fill_values vs L ≡ₚ filter (λ v, v ≠ 0) vs ++ L.
Proof.
  revert L. induction vs as [|v vs IH]; intros L Hlen.
  - destruct L; [done|]. by rewrite filter_nil in Hlen.
  - cbn [fill_values]. destruct L as [|L0 L1].
    + destruct (decide (v = 0)) as [->|Hv].
      * by rewrite filter_cons_True in Hlen.
      * rewrite filter_cons_False in Hlen by done.
        rewrite filter_cons_True by done. rewrite IH by done. done.
    + destruct (decide (v = 0)) as [->|Hv].
      * rewrite filter_cons_True in Hlen by done.
        rewrite filter_cons_False by tauto.
        rewrite IH by (simpl in Hlen; lia).
        by rewrite Permutation_middle.
      * rewrite filter_cons_False in Hlen by done.
        rewrite filter_cons_True by done. by rewrite IH.
Qed.

(** What the second loop does to the array. *)
Lemma place_fold (blocks : list cell) (result : ndarray) (L : list Z) :
  NoDup blocks → Forall (in_bounds result) blocks →
  let result' := (foldl place (result, L) blocks).1 in
  (∀ c, in_bounds result' c ↔ in_bounds result c) ∧
  length result' = length result ∧
  (∀ i, length (result' !!! i) = length (result !!! i)) ∧
  (∀ c, c ∉ blocks → nd_get result' c = nd_get result c) ∧
  (∀ c, nd_get result c ≠ 0 → nd_get result' c = nd_get result c) ∧
  nd_get result' <$> blocks = fill_values (nd_get result <$> blocks) L.
Proof.
  revert result L. induction blocks as [|b bs IH]; intros result L Hnd Hin.
  - simpl. split_and!; done.
  - apply NoDup_cons in Hnd as [Hb Hnd]. apply Forall_cons in Hin as [Hbi Hin].
    cbn [foldl]. set (acc := place (result, L) b).
    assert (Hacc : acc = (acc.1, acc.2)) by by destruct acc.
    assert (Hbounds : ∀ c, in_bounds acc.1 c ↔ in_bounds result c).
    { intros c. subst acc. unfold place. destruct L as [|L0 L1]; [done|].
      case_decide; [|done]. apply in_bounds_nd_set. }
    assert (Hlen1 : length acc.1 = length result).
    { subst acc. unfold place. destruct L as [|L0 L1]; [done|].
      case_decide; [|done]. apply length_nd_set. }
    assert (Hlen2 : ∀ i, length (acc.1 !!! i) = length (result !!! i)).
    { intros i. subst acc. unfold place. destruct L as [|L0 L1]; [done|].
      case_decide; [|done]. apply row_length_nd_set. }
    assert (Hother : ∀ c, c ≠ b → nd_get acc.1 c = nd_get result c).
    { intros c Hc. subst acc. unfold place. destruct L as [|L0 L1]; [done|].
      case_decide; [|done]. by apply nd_get_set_ne. }
    assert (Hkeep : ∀ c, nd_get result c ≠ 0 → nd_get acc.1 c = nd_get result c).
    { intros c Hc. destruct (decide (c = b)) as [->|Hne]; [|by apply Hother].
      subst acc. unfold place. destruct L as [|L0 L1]; [done|].
      by rewrite decide_False. }
    rewrite Hacc.
    destruct (IH acc.1 acc.2 Hnd) as (IH0 & IH1 & IH2 & IH3 & IH4 & IH5).
    { eapply Forall_impl; [exact Hin|]. intros c Hc. by apply Hbounds. }
    cbv zeta. split_and!.
    + intros c. by rewrite IH0.
    + by rewrite IH1.
    + intros i. by rewrite IH2.
    + intros c Hc. apply not_elem_of_cons in Hc as [Hcb Hc].
      rewrite IH3 by done. by apply Hother.
    + intros c Hc. rewrite IH4; [by apply Hkeep|]. by rewrite Hkeep.
    + rewrite !fmap_cons. rewrite IH3 by done. rewrite IH5.
      assert (Hbs : nd_get acc.1 <$> bs = nd_get result <$> bs).
      { apply list_fmap_ext. intros i c Hc. apply Hother.
        intros ->. apply Hb. by apply list_elem_of_lookup_2 in Hc. }
      rewrite Hbs. cbn [fill_values].
      subst acc. unfold place. destruct L as [|L0 L1]; [done|].
      case_decide as Hz.
      * cbn [fst snd]. by rewrite nd_get_set_eq.
      * done.
Qed.

Lemma digits_spec (x : Z) : x ∈ digits ↔ 1 ≤ x ≤ 9.
Proof.
  change digits with [1; 2; 3; 4; 5; 6; 7; 8; 9].
  rewrite !elem_of_cons, elem_of_nil. lia.
Qed.

(** Candidates and fixed digits together are the shuffled digits. *)
Lemma candidates_Permutation (fixed shuffled : list Z) :
  NoDup fixed → (∀ x, x ∈ fixed → x ∈ digits) → shuffled ≡ₚ digits →
  fixed ++ filter (λ x, x ∉ fixed) shuffled ≡ₚ digits.
Proof.
  intros Hnd Hsub Hperm.
  transitivity shuffled; [|done].
  rewrite <- (filter_app_complement (λ x, x ∈ fixed) shuffled) at 2.
  apply Permutation_app; [|done].
  apply NoDup_Permutation; [done| |].
  - apply NoDup_filter. rewrite Hperm. apply digits_NoDup.
  - intros x. rewrite list_elem_of_filter. split; [|tauto].
    intros Hx. split; [done|]. rewrite Hperm. by apply Hsub.
Qed.

Lemma fill_block_spec (sudoku result : ndarray) (blocks : list cell)
    (shuffled : list Z) :
  NoDup blocks → length blocks = 9%nat → Forall (in_bounds result) blocks →
  (∀ c, c ∈ blocks → nd_get result c = nd_get sudoku c) →
  (∀ c, c ∈ blocks → 0 ≤ nd_get sudoku c ≤ 9) →
  NoDup (fixed_values sudoku blocks) →
  shuffled ≡ₚ digits →
  let result' := fill_block sudoku result blocks shuffled in
  (∀ c, in_bounds result' c ↔ in_bounds result c) ∧
  length result' = length result ∧
  (∀ i, length (result' !!! i) = length (result !!! i)) ∧
  (∀ c, c ∉ blocks → nd_get result' c = nd_get result c) ∧
  (∀ c, nd_get result c ≠ 0 → nd_get result' c = nd_get result c) ∧
  nd_get result' <$> blocks ≡ₚ digits.
Proof.
  intros Hnd Hlen Hin Hsame Hrange Hfixed Hperm. unfold fill_block.
  rewrite drop_fixed_fold.
  set (L := filter (λ x, x ∉ fixed_values sudoku blocks) shuffled).
  destruct (place_fold blocks result L Hnd Hin) as (P0 & P1 & P2 & P3 & P4 & P5).
  cbv zeta. split_and!; try done.
  rewrite P5.
  assert (Hvs : nd_get result <$> blocks = nd_get sudoku <$> blocks).
  { apply list_fmap_ext. intros i c Hc. apply Hsame.
    by apply list_elem_of_lookup_2 in Hc. }
  rewrite Hvs.
  assert (Hsub : ∀ x, x ∈ fixed_values sudoku blocks → x ∈ digits).
  { intros x Hx. apply list_elem_of_filter in Hx as [Hx0 Hx].
    apply list_elem_of_fmap in Hx as (c & -> & Hc).
    apply digits_spec. specialize (Hrange c Hc). lia. }
  pose proof (candidates_Permutation _ _ Hfixed Hsub Hperm) as Hall.
  fold L in Hall.
  rewrite fill_values_Permutation; [exact Hall|].
  pose proof (filter_app_complement (λ v, v = 0) (nd_get sudoku <$> blocks)) as Hsplit.
  apply Permutation_length in Hsplit, Hall.
  rewrite length_app in Hsplit, Hall. rewrite length_fmap, Hlen in Hsplit.
  change (length digits) with 9%nat in Hall.
  unfold fixed_values in Hall. lia.
Qed.

(** The loop over the blocks, for any list of pairwise disjoint blocks. *)
Lemma random_matrix_fold (sudoku : ndarray) (shuffles : nat → list Z)
    (kbs : list (nat * list cell)) (result : ndarray) :
  shuffles_ok shuffles →
  NoDup (concat kbs.*2) →
  Forall (λ block, length block = 9%nat) kbs.*2 →
  Forall (in_bounds result) (concat kbs.*2) →
  (∀ c, c ∈ concat kbs.*2 → nd_get result c = nd_get sudoku c) →
  (∀ c, c ∈ concat kbs.*2 → 0 ≤ nd_get sudoku c ≤ 9) →
  Forall (λ block, NoDup (fixed_values sudoku block)) kbs.*2 →
  let result' := foldl (λ result kb, fill_block sudoku result kb.2 (shuffles kb.1))
                       result kbs in
  (∀ c, in_bounds result' c ↔ in_bounds result c) ∧
  length result' = length result ∧
  (∀ i, length (result' !!! i) = length (result !!! i)) ∧
  (∀ c, c ∉ concat kbs.*2 → nd_get result' c = nd_get result c) ∧
  (∀ c, nd_get result c ≠ 0 → nd_get result' c = nd_get result c) ∧
  Forall (λ block, nd_get result' <$> block ≡ₚ digits) kbs.*2.
Proof.
  intros Hsh. revert result.
  induction kbs as [|[k b] kbs IH]; intros result Hnd Hlen Hin Hsame Hrange Hfix.
  - simpl. split_and!; done.
  - rewrite fmap_cons in *. cbn [snd concat] in *.
    apply NoDup_app in Hnd as (Hndb & Hdisj & Hndr).
    apply Forall_cons in Hlen as [Hlenb Hlen].
    apply Forall_app in Hin as [Hinb Hin].
    apply Forall_cons in Hfix as [Hfixb Hfix].
    cbn [foldl fst snd].
    destruct (fill_block_spec sudoku result b (shuffles k)) as
      (B0 & B1 & B2 & B3 & B4 & B5); try done.
    { intros c Hc. apply Hsame. apply elem_of_app. by left. }
    { intros c Hc. apply Hrange. apply elem_of_app. by left. }
    set (r1 := fill_block sudoku result b (shuffles k)) in *.
    destruct (IH r1) as (I0 & I1 & I2 & I3 & I4 & I5); try done.
    { eapply Forall_impl; [exact Hin|]. intros c Hc. by apply B0. }
    { intros c Hc. rewrite B3; [apply Hsame; apply elem_of_app; by right|].
      intros Hcb. by apply (Hdisj c). }
    { intros c Hc. apply Hrange. apply elem_of_app. by right. }
    cbv zeta. split_and!.
    + intros c. by rewrite I0.
    + by rewrite I1.
    + intros i. by rewrite I2.
    + intros c Hc. apply not_elem_of_app in Hc as [Hc1 Hc2].
      rewrite I3 by done. by apply B3.
    + intros c Hc. rewrite I4; [by apply B4|]. by rewrite B4.
    + apply Forall_cons. split; [|done].
      rewrite <- B5.
      assert (Heq : ∀ r2, (∀ c, c ∉ concat kbs.*2 → nd_get r2 c = nd_get r1 c) →
                nd_get r2 <$> b = nd_get r1 <$> b).
      { intros r2 Hr2. apply list_fmap_ext. intros i c Hc. apply Hr2, Hdisj.
        by apply list_elem_of_lookup_2 in Hc. }
      by rewrite (Heq _ I3).
Qed.

Lemma blocks_index_enumerate :
  (zip (seq 0 (length blocks_index)) blocks_index).*2 = blocks_index.
Proof. reflexivity. Qed.

Lemma blocks_index_fixed (puzzle : ndarray) :
  well_formed puzzle →
  Forall (λ block, NoDup (fixed_values puzzle block)) blocks_index.
Proof.
  intros (_ & _ & Hnd). apply Forall_forall. intros b Hb.
  apply list_elem_of_lookup in Hb as [k Hk].
  specialize (Hnd k ltac:(by apply lookup_lt_Some in Hk)).
  unfold block_values in Hnd. by rewrite (list_lookup_total_correct _ _ _ Hk) in Hnd.
Qed.

(** What the initializer establishes; shared with the invariant of a run. *)
Lemma random_matrix_spec (puzzle : ndarray) (shuffles : nat → list Z) :
  well_formed puzzle → shuffles_ok shuffles →
  let result := random_matrix blocks_index shuffles puzzle in
  shape9 result ∧
  fully_filled result ∧
  (∀ c, c ∈ all_cells → nd_get puzzle c ≠ 0 → nd_get result c = nd_get puzzle c) ∧
  block_valid result.
Proof.
  intros Hwf Hsh. pose proof Hwf as (Hshape & Hrange & Hnd).
  unfold random_matrix.
  destruct (random_matrix_fold puzzle shuffles
              (zip (seq 0 (length blocks_index)) blocks_index) puzzle)
    as (R0 & R1 & R2 & R3 & R4 & R5); rewrite ?blocks_index_enumerate; try done.
  - apply blocks_index_NoDup.
  - apply blocks_index_rows.
  - apply Forall_forall. intros c Hc. apply shape9_in_bounds; [done|].
    by apply blocks_index_cover.
  - intros c Hc. apply Hrange. by apply blocks_index_cover.
  - by apply blocks_index_fixed.
  - set (result := foldl _ _ _) in *. cbv zeta.
    assert (Hblocks : ∀ k, (k < 9)%nat → block_values result k ≡ₚ digits).
    { intros k Hk. unfold block_values. rewrite Forall_forall in R5. apply R5.
      apply list_elem_of_lookup. exists k. apply list_lookup_lookup_total_lt.
      by rewrite blocks_index_length. }
    split_and!.
    + destruct Hshape as [Hl Hr]. split; [by rewrite R1|].
      apply Forall_forall. intros r Hin.
      apply list_elem_of_lookup in Hin as [i Hi].
      pose proof (lookup_lt_Some _ _ _ Hi) as Hlt. rewrite R1 in Hlt.
      apply list_lookup_total_correct in Hi. subst r. rewrite R2.
      rewrite Forall_forall in Hr. apply Hr.
      apply list_elem_of_lookup. exists i. by apply list_lookup_lookup_total_lt.
    + intros c Hc Hz. destruct (cell_in_block c Hc) as (k & Hk & Hin).
      assert (Hd : nd_get result c ∈ digits).
      { rewrite <- (Hblocks k Hk). apply list_elem_of_fmap. by exists c. }
      apply digits_spec in Hd. lia.
    + intros c _ Hc. by apply R4.
    + exact Hblocks.
Qed.

(** C3. For a well-formed puzzle and any outcome of the nine shuffles,
    [random_matrix] returns a (9, 9) array in which no cell is 0, every
    pre-filled cell of the puzzle keeps its value, and the values of every
    block are a permutation of the digits 1 to 9 (each exactly once). *)
Theorem random_matrix_postcondition (puzzle : ndarray) (shuffles : nat → list Z) :
  well_formed puzzle → shuffles_ok shuffles →
  let result := random_matrix blocks_index shuffles puzzle in
  shape9 result ∧
  fully_filled result ∧
  (∀ c, c ∈ all_cells → nd_get puzzle c ≠ 0 → nd_get result c = nd_get puzzle c) ∧
  block_valid result.
Proof. apply random_matrix_spec. Qed.

Lemma example_puzzle_well_formed : well_formed example_puzzle.
Proof.
  split_and!.
  - split; [reflexivity|]. apply (bool_decide_unpack _). by vm_compute.
  - apply Forall_forall. apply (bool_decide_unpack _). by vm_compute.
  - intros k Hk.
    do 9 (destruct k as [|k]; [apply (bool_decide_unpack _); by vm_compute|]).
    lia.
Qed.

Lemma example_shuffles_ok : shuffles_ok example_shuffles.
Proof. intros k. apply (bool_decide_unpack _). by vm_compute. Qed.

Lemma random_matrix_postcondition_witness :
  well_formed example_puzzle ∧ shuffles_ok example_shuffles ∧
  block_valid (random_matrix blocks_index example_shuffles example_puzzle) ∧
  nd_get (random_matrix blocks_index example_shuffles example_puzzle) (0, 2)%nat = 4.
Proof.
  split_and!.
  - apply example_puzzle_well_formed.
  - apply example_shuffles_ok.
  - apply (random_matrix_postcondition example_puzzle example_shuffles
             example_puzzle_well_formed example_shuffles_ok).
  - by vm_compute.
Defined.

(** ** The neighbor move *)

Lemma swap_cells_1 (g : ndarray) (c1 c2 : cell) :
  in_bounds g c1 → c1 ≠ c2 → nd_get (swap_cells g c1 c2) c1 = nd_get g c2.
Proof.
  intros Hb Hne. unfold swap_cells.
  rewrite nd_get_set_ne by done. by rewrite nd_get_set_eq.
Qed.

Lemma swap_cells_2 (g : ndarray) (c1 c2 : cell) :
  in_bounds g c2 → nd_get (swap_cells g c1 c2) c2 = nd_get g c1.
Proof.
  intros Hb. unfold swap_cells. rewrite nd_get_set_eq; [done|].
  by apply in_bounds_nd_set.
Qed.

Lemma swap_cells_other (g : ndarray) (c1 c2 c : cell) :
  c ≠ c1 → c ≠ c2 → nd_get (swap_cells g c1 c2) c = nd_get g c.
Proof.
  intros H1 H2. unfold swap_cells. by rewrite !nd_get_set_ne.
Qed.

Lemma shape9_swap_cells (g : ndarray) (c1 c2 : cell) :
  shape9 g → shape9 (swap_cells g c1 c2).
Proof. intros H. unfold swap_cells. by do 2 apply shape9_nd_set. Qed.

(** A swap inside a duplicate-free list of cells permutes its values; a swap
    outside it leaves them alone. *)
Lemma swap_cells_values (g : ndarray) (c1 c2 : cell) (l : list cell) :
  NoDup l → in_bounds g c1 → in_bounds g c2 → c1 ≠ c2 →
  (c1 ∈ l ↔ c2 ∈ l) →
  nd_get (swap_cells g c1 c2) <$> l ≡ₚ nd_get g <$> l.
Proof.
  intros Hnd Hb1 Hb2 Hne Hboth.
  destruct (decide (c1 ∈ l)) as [H1|H1].
  - pose proof (proj1 Hboth H1) as H2.
    apply elem_of_Permutation in H1 as [l1 Hl1].
    assert (H2' : c2 ∈ l1).
    { rewrite Hl1 in H2. apply elem_of_cons in H2 as [?|?]; [congruence|done]. }
    apply elem_of_Permutation in H2' as [l2 Hl2].
    rewrite Hl2 in Hl1. rewrite Hl1 in Hnd.
    apply NoDup_cons in Hnd as [Hn1 Hnd]. apply NoDup_cons in Hnd as [Hn2 Hnd].
    apply not_elem_of_cons in Hn1 as [_ Hn1].
    rewrite Hl1, !fmap_cons.
    rewrite swap_cells_1, swap_cells_2 by done.
    rewrite (list_fmap_ext (nd_get (swap_cells g c1 c2)) (nd_get g) l2).
    + apply perm_swap.
    + intros i c Hc. apply list_elem_of_lookup_2 in Hc.
      apply swap_cells_other; intros ->; done.
  - assert (H2 : c2 ∉ l) by (intros H2; by apply H1, Hboth).
    rewrite (list_fmap_ext (nd_get (swap_cells g c1 c2)) (nd_get g) l); [done|].
    intros i c Hc. apply list_elem_of_lookup_2 in Hc.
    apply swap_cells_other; intros ->; done.
Qed.

(** [neighbor_sudoku] always returns: the guard on [cells_available] comes
    before the only call that can raise. *)
Lemma neighbor_sudoku_returns (self : Solver) (d : draw) :
  neighbor_sudoku self d = Return (neighbor_grid self d).
Proof.
  unfold neighbor_sudoku, neighbor_grid, swap_cells, random_sample.
  case_decide; [done|]. destruct (sample d) as [c1 c2]. reflexivity.
Qed.

Lemma blocks_index_lookup (k : nat) :
  (k < 9)%nat → blocks_index !! k = Some (blocks_index !!! k).
Proof. intros Hk. by apply list_lookup_lookup_total_lt. Qed.

Lemma block_NoDup (k : nat) : NoDup (blocks_index !!! k).
Proof.
  destruct (decide (k < 9)%nat) as [Hk|Hk].
  - do 9 (destruct k as [|k]; [apply (bool_decide_unpack _); by vm_compute|]). lia.
  - rewrite list_lookup_total_alt, lookup_ge_None_2; [apply NoDup_nil_2|].
    rewrite blocks_index_length. lia.
Qed.

Lemma block_cells (k : nat) (c : cell) : c ∈ blocks_index !!! k → c ∈ all_cells.
Proof.
  intros Hc. destruct (decide (k < 9)%nat) as [Hk|Hk].
  - apply blocks_index_cover, list_elem_of_In, in_concat.
    exists (blocks_index !!! k). split; apply list_elem_of_In; [|done].
    apply list_elem_of_lookup. exists k. by apply blocks_index_lookup.
  - rewrite list_lookup_total_alt, lookup_ge_None_2 in Hc.
    + by apply elem_of_nil in Hc.
    + rewrite blocks_index_length. lia.
Qed.

Lemma block_disjoint (k1 k2 : nat) (c : cell) :
  (k1 < 9)%nat → (k2 < 9)%nat →
  c ∈ blocks_index !!! k1 → c ∈ blocks_index !!! k2 → k1 = k2.
Proof.
  intros H1 H2 Hc1 Hc2. destruct (decide (k1 = k2)) as [|Hne]; [done|].
  exfalso. exact (blocks_index_apart k1 k2 c H1 H2 Hne Hc1 Hc2).
Qed.

(** What the contract of [random.sample] gives about the two cells. *)
Lemma sample_cells (self : Solver) (d : draw) :
  index self = blocks_index → draw_ok self d →
  (2 ≤ length (cells_available self (randint d)))%nat →
  (sample d).1 ≠ (sample d).2 ∧
  ((sample d).1 ∈ blocks_index !!! randint d) ∧
  ((sample d).2 ∈ blocks_index !!! randint d) ∧
  ((sample d).1 ∉ pre_filled_indexes self) ∧
  ((sample d).2 ∉ pre_filled_indexes self).
Proof.
  intros Hidx [Hblock Hsample] Hlen.
  destruct (Hsample Hlen) as (i1 & i2 & Hne & H1 & H2).
  assert (Hnd : NoDup (cells_available self (randint d))).
  { unfold cells_available. rewrite Hidx. apply NoDup_filter, block_NoDup. }
  pose proof (list_elem_of_lookup_2 _ _ _ H1) as Hin1.
  pose proof (list_elem_of_lookup_2 _ _ _ H2) as Hin2.
  unfold cells_available in Hin1, Hin2. rewrite Hidx in Hin1, Hin2.
  apply list_elem_of_filter in Hin1 as [? ?], Hin2 as [? ?].
  split_and!; try done.
  intros Heq. apply Hne. eapply NoDup_lookup; [exact Hnd|exact H1|].
  by rewrite Heq.
Qed.

(** The move keeps the shape, the pre-filled cells and the values of each
    block up to their order. *)
Lemma neighbor_grid_preserves (self : Solver) (d : draw) :
  index self = blocks_index → shape9 (grid self) → draw_ok self d →
  shape9 (neighbor_grid self d) ∧
  (∀ c, c ∈ pre_filled_indexes self →
        nd_get (neighbor_grid self d) c = nd_get (grid self) c) ∧
  (∀ k, (k < 9)%nat →
        block_values (neighbor_grid self d) k ≡ₚ block_values (grid self) k).
Proof.
  intros Hidx Hshape Hd. unfold neighbor_grid. case_decide as Hlen; [done|].
  destruct (sample_cells self d Hidx Hd ltac:(lia)) as (Hne & H1 & H2 & Hp1 & Hp2).
  destruct Hd as [Hblock _].
  split_and!.
  - by apply shape9_swap_cells.
  - intros c Hc. apply swap_cells_other; intros ->; done.
  - intros k Hk. unfold block_values. apply swap_cells_values.
    + apply block_NoDup.
    + apply shape9_in_bounds; [done|]. by apply (block_cells (randint d)).
    + apply shape9_in_bounds; [done|]. by apply (block_cells (randint d)).
    + done.
    + split; intros Hin.
      * by rewrite (block_disjoint k (randint d) _ Hk ltac:(lia) Hin H1).
      * by rewrite (block_disjoint k (randint d) _ Hk ltac:(lia) Hin H2).
Qed.

Lemma example_solver_index : index example_solver = blocks_index.
Proof. reflexivity. Qed.

Lemma example_solver_shape : shape9 (grid example_solver).
Proof. split; [reflexivity|]. apply (bool_decide_unpack _). by vm_compute. Qed.

Lemma example_draw_ok : draw_ok example_solver example_draw.
Proof.
  split; [simpl; lia|]. intros _. exists 0%nat, 2%nat.
  split_and!; [lia| |]; by vm_compute.
Qed.


(** C4. Whatever the random functions return, [neighbor_sudoku] returns an
    array that agrees with the working grid on every pre-filled cell and
    whose values in each of the 9 blocks are a permutation of the working
    grid's values in that block (the multiset of the block is unchanged). *)
Theorem neighbor_sudoku_preserves (self : Solver) (d : draw) :
  index self = blocks_index → shape9 (grid self) → draw_ok self d →
  ∃ g : ndarray,
    neighbor_sudoku self d = Return g ∧
    shape9 g ∧
    (∀ c, c ∈ pre_filled_indexes self → nd_get g c = nd_get (grid self) c) ∧
    (∀ k, (k < 9)%nat → block_values g k ≡ₚ block_values (grid self) k).
Proof.
  intros Hidx Hshape Hd. exists (neighbor_grid self d).
  split; [apply neighbor_sudoku_returns|].
  by apply neighbor_grid_preserves.
Qed.



Lemma example_move_changes :
  neighbor_grid example_solver example_draw ≠ grid example_solver.
Proof. apply (bool_decide_unpack _). vm_compute. exact I. Qed.

Lemma neighbor_sudoku_preserves_witness :
  index example_solver = blocks_index ∧ shape9 (grid example_solver) ∧
  draw_ok example_solver example_draw ∧
  ∃ g : ndarray,
    neighbor_sudoku example_solver example_draw = Return g ∧
    g ≠ grid example_solver ∧
    ∀ k, (k < 9)%nat → block_values g k ≡ₚ block_values (grid example_solver) k.
Proof.
  split_and!; [apply example_solver_index | apply example_solver_shape
              | apply example_draw_ok |].
  destruct (neighbor_sudoku_preserves example_solver example_draw
              example_solver_index example_solver_shape example_draw_ok)
    as (g & Hg & _ & _ & Hperm).
  exists g. split_and!; [assumption| |assumption].
  rewrite neighbor_sudoku_returns in Hg.
  assert (g = neighbor_grid example_solver example_draw) as -> by congruence.
  apply example_move_changes.
Defined.

(** ** The initial-temperature walk *)

(** [compute_error] is a fold over 81 cells: conversion is kept from
    unfolding it from here on. *)
Opaque compute_error.

Lemma grid_set_grid (s : Solver) (g : ndarray) (v : Z) : grid (set_grid s g v) = g.
Proof. reflexivity. Qed.

Lemma grid_score_set_grid (s : Solver) (g : ndarray) (v : Z) :
  grid_score (set_grid s g v) = v.
Proof. reflexivity. Qed.

Lemma walk_state_S (self : Solver) (draws : nat → draw) (k : nat) :
  walk_state self draws (S k) =
  set_grid (walk_state self draws k)
           (neighbor_grid (walk_state self draws k) (draws k))
           (compute_error (neighbor_grid (walk_state self draws k) (draws k))).
Proof. reflexivity. Qed.


Lemma init_temperature_loop_walk (self : Solver) (draws : nat → draw)
    (n a : nat) (sudoku_list : list Z) :
  init_temperature_loop (walk_state self draws a) sudoku_list draws (seq a n) =
  Return (sudoku_list ++
            ((λ k, compute_error (grid (walk_state self draws (S k)))) <$> seq a n),
          walk_state self draws (a + n)).
Proof.
  revert a sudoku_list. induction n as [|n IH]; intros a sl.
  - simpl. by rewrite app_nil_r, Nat.add_0_r.
  - cbn [seq init_temperature_loop]. rewrite neighbor_sudoku_returns.
    cbn [mbind exc_bind].
    change (set_grid (walk_state self draws a) _ _) with (walk_state self draws (S a)).
    rewrite IH. rewrite fmap_cons, <- app_assoc. cbn [app].
    by rewrite Nat.add_succ_r.
Qed.

Lemma np_std_population (l : list Z) : np_std l = population_std l.
Proof.
  unfold np_std, population_std, np_mean. rewrite !length_fmap.
  rewrite <- list_fmap_compose. do 3 f_equal.
  apply list_fmap_ext. intros i x _. simpl. apply pow2_abs.
Qed.

Lemma init_temperature_returns (self : Solver) (draws : nat → draw) :
  init_temperature self draws =
  Return (population_std (walk_scores self draws 10), walk_state self draws 10).
Proof.
  pose proof (init_temperature_loop_walk self draws 10 0 []) as Hloop.
  change (walk_state self draws 0) with self in Hloop.
  change (0 + 10)%nat with 10%nat in Hloop.
  unfold init_temperature, range. change (10 - 0)%nat with 10%nat.
  rewrite Hloop. cbn [mbind exc_bind app]. by rewrite np_std_population.
Qed.

Lemma init_returns (puzzle : ndarray) (rate : R)
    (shuffles : nat → list Z) (draws : nat → draw) :
  let w := walk_state (init_assign puzzle shuffles) draws 10 in
  init puzzle rate shuffles draws =
  Return (mkSolver (basic_grid w) (index w) (grid w) (grid_score w)
            (pre_filled_indexes w)
            (population_std (walk_scores (init_assign puzzle shuffles) draws 10))
            (count_zero puzzle) rate).
Proof.
  intros w. unfold init. rewrite init_temperature_returns. reflexivity.
Qed.

(** C7. [init_temperature] makes exactly 10 moves, move [k] being generated
    by [neighbor_sudoku] from the object that move [k - 1] left (a walk, not
    10 neighbors of one grid); it records the score of each, returns the
    population standard deviation of the 10 scores, and leaves the grid and
    the score of the 10th move in the object, which is the object [__init__]
    hands to [solve]. *)
Theorem init_temperature_walk (self : Solver) (draws : nat → draw) :
  init_temperature self draws =
    Return (population_std (walk_scores self draws 10),
            walk_state self draws 10) ∧
  length (walk_scores self draws 10) = 10%nat ∧
  (∀ k, (k < 10)%nat →
     neighbor_sudoku (walk_state self draws k) (draws k) =
       Return (grid (walk_state self draws (S k))) ∧
     grid_score (walk_state self draws (S k)) =
       compute_error (grid (walk_state self draws (S k))) ∧
     walk_scores self draws 10 !! k =
       Some (grid_score (walk_state self draws (S k)))) ∧
  (∀ puzzle rate shuffles, ∃ solver,
     init puzzle rate shuffles draws = Return solver ∧
     grid solver = grid (walk_state (init_assign puzzle shuffles) draws 10) ∧
     grid_score solver =
       grid_score (walk_state (init_assign puzzle shuffles) draws 10) ∧
     temperature solver =
       population_std (walk_scores (init_assign puzzle shuffles) draws 10)).
Proof.
  split_and!.
  - apply init_temperature_returns.
  - unfold walk_scores. by rewrite length_fmap, length_seq.
  - intros k Hk. split_and!.
    + rewrite neighbor_sudoku_returns, walk_state_S, grid_set_grid. reflexivity.
    + rewrite walk_state_S, grid_score_set_grid, grid_set_grid. reflexivity.
    + unfold walk_scores. rewrite list_lookup_fmap, lookup_seq_lt by exact Hk.
      rewrite Nat.add_0_l. cbn [fmap option_fmap option_map].
      rewrite walk_state_S, grid_score_set_grid, grid_set_grid. reflexivity.
  - intros puzzle rate shuffles. rewrite init_returns. cbv zeta.
    generalize (walk_state (init_assign puzzle shuffles) draws 10).
    generalize (population_std (walk_scores (init_assign puzzle shuffles) draws 10)).
    intros t w.
    exists (mkSolver (basic_grid w) (index w) (grid w) (grid_score w)
              (pre_filled_indexes w) t (count_zero puzzle) rate).
    split_and!; reflexivity.
Qed.

(** ** The stored score *)

Lemma iteration_returns (self : Solver) (t : trial) :
  iteration self t = Return (iteration_state self t).
Proof.
  unfold iteration, iteration_state, accepted, acceptance.
  rewrite neighbor_sudoku_returns. cbn [mbind exc_bind].
  case (float_lt _ _); [|done].
  do 2 f_equal. lia.
Qed.

Lemma synced_walk_state (self : Solver) (draws : nat → draw) (k : nat) :
  synced self → synced (walk_state self draws k).
Proof.
  destruct k; [intros H; exact H|]. intros _. unfold synced.
  rewrite walk_state_S, grid_score_set_grid, grid_set_grid. reflexivity.
Qed.

Lemma synced_iteration_state (self : Solver) (t : trial) :
  synced self → synced (iteration_state self t).
Proof.
  intros H. unfold iteration_state. case (accepted self t); [|exact H].
  unfold synced. rewrite grid_score_set_grid, grid_set_grid. reflexivity.
Qed.

Lemma synced_zero (self : Solver) :
  synced self → grid_score self ≤ 0 ↔ compute_error (grid self) = 0.
Proof.
  intros ->. pose proof (compute_error_nonneg (grid self)). lia.
Qed.

(** ** Invariants of a run

    A property of the solver object that each inner-loop iteration and each
    end of epoch preserve holds throughout [solve], and [solve] never raises. *)
Section Run.
Variable P : Solver → Prop.
Variable trials : nat → nat → trial.
Hypothesis P_iteration : ∀ s e k, P s → P (iteration_state s (trials e k)).
Hypothesis P_epoch_end : ∀ s prev r, P s → P (epoch_end s prev r).1.

Lemma inner_loop_invariant (e : nat) (its : list nat) (self : Solver) :
  P self →
  match inner_loop self (trials e) its with
  | Return (inl g) => ∃ s, P s ∧ grid_score s ≤ 0 ∧ g = grid s
  | Return (inr s) => P s
  | Raise _ => False
  end.
Proof.
  revert self. induction its as [|k its IH]; intros self HP.
  - exact HP.
  - cbn [inner_loop]. rewrite iteration_returns. cbn [mbind exc_bind].
    pose proof (P_iteration self e k HP) as HP'.
    case_decide as Hle.
    + exists (iteration_state self (trials e k)). auto.
    + by apply IH.
Qed.

Lemma epoch_invariant (e : nat) (self : Solver) (reheats : Z) :
  P self →
  match epoch self reheats (trials e) with
  | Returned g =>
      ∃ s, P s ∧ g = grid s ∧ (compute_error (grid s) = 0 ∨ grid_score s ≤ 0)
  | Raised _ => False
  | Next s _ => P s
  end.
Proof.
  intros HP. unfold epoch. case_decide as Hz.
  - exists self. auto.
  - pose proof (inner_loop_invariant e (range 0 (limit self)) self HP) as Hin.
    destruct (inner_loop self (trials e) (range 0 (limit self))) as [[g|s]|x].
    + destruct Hin as (s & Hs & Hle & ->). exists s. auto.
    + pose proof (P_epoch_end s (grid_score self) reheats Hin) as Hend.
      by destruct (epoch_end s (grid_score self) reheats).
    + exact Hin.
Qed.

Lemma run_epochs_invariant (n e : nat) (self s : Solver) (reheats r : Z) :
  P self → run_epochs n self reheats trials e = Some (s, r) → P s.
Proof.
  revert e self reheats. induction n as [|n IH]; intros e self reheats HP Hrun.
  - cbn [run_epochs] in Hrun. by inversion Hrun; subst.
  - cbn [run_epochs] in Hrun.
    pose proof (epoch_invariant e self reheats HP) as Hep.
    destruct (epoch self reheats (trials e)) as [g|x|s' r']; try discriminate.
    by apply (IH _ _ _ Hep Hrun).
Qed.

Lemma solve_loop_invariant (fuel e : nat) (self : Solver) (reheats : Z) :
  P self →
  match solve_loop fuel self reheats trials e with
  | Some (Return g) =>
      ∃ s, P s ∧ g = grid s ∧ (compute_error (grid s) = 0 ∨ grid_score s ≤ 0)
  | Some (Raise _) => False
  | None => True
  end.
Proof.
  revert e self reheats. induction fuel as [|fuel IH]; intros e self reheats HP.
  - exact I.
  - cbn [solve_loop].
    pose proof (epoch_invariant e self reheats HP) as Hep.
    destruct (epoch self reheats (trials e)) as [g|x|s' r'].
    + exact Hep.
    + exact Hep.
    + by apply IH.
Qed.
End Run.

Lemma synced_epoch_end (s : Solver) (prev r : Z) :
  synced s → synced (epoch_end s prev r).1.
Proof. intros H. unfold epoch_end. repeat case_decide; exact H. Qed.

Lemma init_temperature_loop_from_start (self : Solver) (draws : nat → draw) (k : nat) :
  init_temperature_loop self [] draws (seq 0 k) =
  Return ([] ++ ((λ k, compute_error (grid (walk_state self draws (S k)))) <$> seq 0 k),
          walk_state self draws (0 + k)).
Proof. exact (init_temperature_loop_walk self draws k 0 []). Qed.

Lemma init_temperature_loop_prefix (self : Solver) (draws : nat → draw) (k : nat) :
  init_temperature_loop self [] draws (range 0 k) =
  Return (walk_scores self draws k, walk_state self draws k).
Proof.
  unfold range. rewrite Nat.sub_0_r, init_temperature_loop_from_start.
  reflexivity.
Qed.

Lemma synced_init_assign (puzzle : ndarray) (shuffles : nat → list Z) :
  synced (init_assign puzzle shuffles).
Proof. reflexivity. Qed.

Lemma synced_init (puzzle : ndarray) (rate : R) (shuffles : nat → list Z)
    (draws : nat → draw) :
  ∃ solver, init puzzle rate shuffles draws = Return solver ∧ synced solver.
Proof.
  rewrite init_returns. cbv zeta.
  generalize (synced_walk_state (init_assign puzzle shuffles) draws 10
                (synced_init_assign puzzle shuffles)).
  generalize (walk_state (init_assign puzzle shuffles) draws 10).
  intros w Hw. eexists. split; [reflexivity|exact Hw].
Qed.

(** C10. The stored score is the score of the stored grid after lines 28-33
    of [__init__], after each of the 10 moves of [init_temperature], in the
    constructed object, at the start of every epoch of [solve] and after each
    inner-loop iteration; so testing the stored score against 0 is the same
    as scoring the grid again, and a grid returned from inside the inner loop
    has score 0. *)
Theorem score_synchronized (puzzle : ndarray) (rate : R)
    (shuffles : nat → list Z) (draws : nat → draw) (trials : nat → nat → trial) :
  synced (init_assign puzzle shuffles) ∧
  (∀ k, (k ≤ 10)%nat →
     init_temperature_loop (init_assign puzzle shuffles) [] draws (range 0 k) =
       Return (walk_scores (init_assign puzzle shuffles) draws k,
               walk_state (init_assign puzzle shuffles) draws k) ∧
     synced (walk_state (init_assign puzzle shuffles) draws k)) ∧
  ∃ solver,
    init puzzle rate shuffles draws = Return solver ∧ synced solver ∧
    ∀ n self reheats,
      run_epochs n solver 0 trials 0 = Some (self, reheats) →
      synced self ∧
      (grid_score self ≤ 0 ↔ compute_error (grid self) = 0) ∧
      ∀ m, match inner_loop self (trials n) (range 0 m) with
           | Return (inr self') =>
               synced self' ∧
               (grid_score self' ≤ 0 ↔ compute_error (grid self') = 0)
           | Return (inl g) => compute_error g = 0
           | Raise _ => False
           end.
Proof.
  split_and!.
  - apply synced_init_assign.
  - intros k _. split.
    + apply init_temperature_loop_prefix.
    + apply synced_walk_state, synced_init_assign.
  - destruct (synced_init puzzle rate shuffles draws) as (solver & Hinit & Hsync).
    exists solver. split; [exact Hinit|]. split; [exact Hsync|].
    intros n self reheats Hrun.
    assert (Hself : synced self).
    { apply (run_epochs_invariant synced trials
               (λ s e k, synced_iteration_state s (trials e k))
               synced_epoch_end n 0%nat solver self 0 reheats Hsync Hrun). }
    split_and!; [exact Hself|apply synced_zero; exact Hself|]. intros m.
    pose proof (inner_loop_invariant synced trials
                  (λ s e k, synced_iteration_state s (trials e k))
                  n (range 0 m) self Hself) as Hin.
    destruct (inner_loop self (trials n) (range 0 m)) as [[g|s]|x].
    + destruct Hin as (s & Hs' & Hle & ->). apply synced_zero; assumption.
    + split; [exact Hin|apply synced_zero; exact Hin].
    + exact Hin.
Qed.

(** ** Partial correctness of [solve] *)

Lemma argwhere_nonzero_spec (puzzle : ndarray) (c : cell) :
  shape9 puzzle →
  c ∈ argwhere_nonzero puzzle ↔ c ∈ all_cells ∧ nd_get puzzle c ≠ 0.
Proof.
  intros Hshape. pose proof Hshape as [Hlen Hrows].
  unfold argwhere_nonzero, range. rewrite Hlen, Nat.sub_0_r.
  rewrite list_elem_of_In, in_flat_map. split.
  - intros (i & Hi & Hin). apply in_seq in Hi. apply in_flat_map in Hin.
    destruct Hin as (j & Hj & Hc). apply in_seq in Hj.
    assert (Hrow : length (puzzle !!! i) = 9%nat).
    { apply (shape9_in_bounds puzzle (i, 0%nat)) in Hshape as [_ ?].
      - rewrite Forall_forall in Hrows. apply Hrows.
        apply list_elem_of_lookup. exists i.
        apply list_lookup_lookup_total_lt. lia.
      - apply all_cells_spec. simpl. lia. }
    rewrite Hrow in Hj. case_decide as Hnz; [|by destruct Hc].
    destruct Hc as [<-|[]]. split; [|exact Hnz].
    apply all_cells_spec. simpl. lia.
  - intros [Hc Hnz]. apply all_cells_spec in Hc as [H1 H2].
    destruct c as [i j]. simpl in H1, H2.
    exists i. split; [apply in_seq; lia|]. apply in_flat_map.
    exists j. split.
    + apply in_seq.
      assert (Hrow : length (puzzle !!! i) = 9%nat).
      { rewrite Forall_forall in Hrows. apply Hrows.
        apply list_elem_of_lookup. exists i.
        apply list_lookup_lookup_total_lt. lia. }
      rewrite Hrow. lia.
    + rewrite decide_True by exact Hnz. by left.
Qed.

(** [draw_ok] reads only the block table and the pre-filled set. *)
Lemma draw_ok_static (s s' : Solver) (d : draw) :
  index s = index s' → pre_filled_indexes s = pre_filled_indexes s' →
  draw_ok s d → draw_ok s' d.
Proof.
  unfold draw_ok, cells_available. intros -> ->. exact (λ H, H).
Qed.

Lemma solver_inv_init_assign (puzzle : ndarray) (shuffles : nat → list Z) :
  well_formed puzzle → shuffles_ok shuffles →
  solver_inv puzzle (init_assign puzzle shuffles).
Proof.
  intros Hwf Hsh.
  destruct (random_matrix_spec puzzle shuffles Hwf Hsh) as (H1 & H2 & H3 & H4).
  split.
  - reflexivity.
  - reflexivity.
  - exact H1.
  - exact H4.
  - exact H3.
  - apply synced_init_assign.
Qed.

Lemma solver_inv_set_grid (puzzle : ndarray) (s : Solver) (d : draw) :
  shape9 puzzle → solver_inv puzzle s → draw_ok s d →
  solver_inv puzzle (set_grid s (neighbor_grid s d)
                              (compute_error (neighbor_grid s d))).
Proof.
  intros Hshape [Hidx Hpre Hsh Hbl Hfix Hsync] Hd.
  destruct (neighbor_grid_preserves s d Hidx Hsh Hd) as (N1 & N2 & N3).
  generalize dependent (neighbor_grid s d). intros g N1 N2 N3.
  split.
  - exact Hidx.
  - exact Hpre.
  - exact N1.
  - intros k Hk. change (grid (set_grid s g (compute_error g))) with g.
    rewrite (N3 k Hk). by apply Hbl.
  - intros c Hc Hnz. change (grid (set_grid s g (compute_error g))) with g.
    rewrite N2; [by apply Hfix|]. rewrite Hpre.
    by apply argwhere_nonzero_spec.
  - reflexivity.
Qed.

Lemma solver_inv_draw_ok (puzzle : ndarray) (s s' : Solver) (d : draw) :
  solver_inv puzzle s → solver_inv puzzle s' → draw_ok s d → draw_ok s' d.
Proof.
  intros [Hidx Hpre _ _ _ _] [Hidx' Hpre' _ _ _ _].
  apply draw_ok_static; congruence.
Qed.

Lemma solver_inv_walk_state (puzzle : ndarray) (s : Solver)
    (draws : nat → draw) (k : nat) :
  shape9 puzzle → solver_inv puzzle s → (∀ j, draw_ok s (draws j)) →
  solver_inv puzzle (walk_state s draws k).
Proof.
  intros Hshape Hinv Hd. induction k as [|k IH]; [exact Hinv|].
  rewrite walk_state_S. apply solver_inv_set_grid; [exact Hshape|exact IH|].
  apply (solver_inv_draw_ok puzzle s); [exact Hinv|exact IH|apply Hd].
Qed.

Lemma solver_inv_iteration_state (puzzle : ndarray) (s : Solver) (t : trial) :
  shape9 puzzle → solver_inv puzzle s → draw_ok s (t_draw t) →
  solver_inv puzzle (iteration_state s t).
Proof.
  intros Hshape Hinv Hd. unfold iteration_state.
  case (accepted s t); [|exact Hinv]. by apply solver_inv_set_grid.
Qed.

Lemma solver_inv_set_temperature (puzzle : ndarray) (s : Solver) (t : R) :
  solver_inv puzzle s → solver_inv puzzle (set_temperature s t).
Proof. intros [H1 H2 H3 H4 H5 H6]. split; assumption. Qed.

Lemma solver_inv_epoch_end (puzzle : ndarray) (s : Solver) (prev r : Z) :
  solver_inv puzzle s → solver_inv puzzle (epoch_end s prev r).1.
Proof.
  intros Hinv. unfold epoch_end.
  repeat case_decide; cbn [fst]; repeat apply solver_inv_set_temperature;
    exact Hinv.
Qed.

Lemma solver_inv_init (puzzle : ndarray) (rate : R)
    (shuffles : nat → list Z) (draws : nat → draw) :
  well_formed puzzle → shuffles_ok shuffles →
  (∀ k, draw_ok (init_assign puzzle shuffles) (draws k)) →
  ∃ solver, init puzzle rate shuffles draws = Return solver ∧
            solver_inv puzzle solver.
Proof.
  intros Hwf Hsh Hd. rewrite init_returns. cbv zeta.
  pose proof (solver_inv_walk_state puzzle _ draws 10 (proj1 Hwf)
                (solver_inv_init_assign puzzle shuffles Hwf Hsh) Hd) as Hw.
  revert Hw. generalize (walk_state (init_assign puzzle shuffles) draws 10).
  generalize (population_std (walk_scores (init_assign puzzle shuffles) draws 10)).
  intros t w [H1 H2 H3 H4 H5 H6]. eexists. split; [reflexivity|].
  split; assumption.
Qed.

Lemma solver_inv_solves (puzzle : ndarray) (s : Solver) :
  solver_inv puzzle s →
  compute_error (grid s) = 0 ∨ grid_score s ≤ 0 →
  solves puzzle (grid s).
Proof.
  intros [Hidx Hpre Hsh Hbl Hfix Hsync] Hzero.
  assert (Hz : compute_error (grid s) = 0).
  { destruct Hzero as [?|Hle]; [assumption|]. by apply synced_zero. }
  split_and!.
  - exact Hsh.
  - intros c Hc. apply digits_spec. by apply block_valid_digit.
  - apply block_valid_solution; [exact Hbl|]. by apply compute_error_zero.
  - exact Hfix.
Qed.

(** What [solve] returns on an object that satisfies the invariant. *)
Lemma solve_solves (puzzle : ndarray) (shuffles : nat → list Z)
    (trials : nat → nat → trial) (fuel : nat) (solver : Solver) (g : ndarray) :
  well_formed puzzle → shuffles_ok shuffles →
  (∀ e k, draw_ok (init_assign puzzle shuffles) (t_draw (trials e k))) →
  solver_inv puzzle solver →
  solve fuel solver trials = Some (Return g) →
  solves puzzle g.
Proof.
  intros Hwf Hsh Ht Hinv Hsolve.
  pose proof (solve_loop_invariant (solver_inv puzzle) trials) as Hloop.
  specialize (Hloop
    (λ s e k Hs, solver_inv_iteration_state puzzle s (trials e k) (proj1 Hwf) Hs
       (solver_inv_draw_ok puzzle _ s _
          (solver_inv_init_assign puzzle shuffles Hwf Hsh) Hs (Ht e k)))
    (solver_inv_epoch_end puzzle) fuel 0%nat solver 0 Hinv).
  unfold solve in Hsolve. rewrite Hsolve in Hloop.
  destruct Hloop as (s & Hs & -> & Hzero). by apply solver_inv_solves.
Qed.

(** The script: whatever it returns within [fuel] epochs solves the puzzle,
    and it never raises. *)
Lemma main_solves (instance : ndarray) (shuffles : nat → list Z)
    (draws : nat → draw) (trials : nat → nat → trial) (fuel : nat) :
  well_formed instance → shuffles_ok shuffles →
  (∀ k, draw_ok (init_assign instance shuffles) (draws k)) →
  (∀ e k, draw_ok (init_assign instance shuffles) (t_draw (trials e k))) →
  match main instance shuffles draws trials fuel with
  | Some (Return g) => solves instance g
  | Some (Raise _) => False
  | None => True
  end.
Proof.
  intros Hwf Hsh Hd Ht. unfold main.
  destruct (solver_inv_init instance (99 / 100)%R shuffles draws Hwf Hsh Hd)
    as (solver & -> & Hinv).
  pose proof (solve_solves instance shuffles trials fuel solver) as Hsol.
  pose proof (solve_loop_invariant (solver_inv instance) trials
    (λ s e k Hs, solver_inv_iteration_state instance s (trials e k) (proj1 Hwf) Hs
       (solver_inv_draw_ok instance _ s _
          (solver_inv_init_assign instance shuffles Hwf Hsh) Hs (Ht e k)))
    (solver_inv_epoch_end instance) fuel 0%nat solver 0 Hinv) as Hloop.
  unfold solve in *.
  destruct (solve_loop fuel solver 0 trials 0) as [[g|x]|].
  - by apply Hsol.
  - exact Hloop.
  - exact I.
Qed.

(** C1. For a well-formed puzzle and any outcome of the random calls, if
    [solve], run on the object that [__init__] built, returns a grid, then
    that grid has shape (9, 9) and entries from 1 to 9, every row, column and
    block holds each digit once, and every pre-filled cell of the puzzle has
    kept its value. *)
Theorem solve_partial_correctness (puzzle : ndarray) (rate : R)
    (shuffles : nat → list Z) (draws : nat → draw)
    (trials : nat → nat → trial) (fuel : nat) (solver : Solver) (g : ndarray) :
  well_formed puzzle → shuffles_ok shuffles →
  (∀ k, draw_ok (init_assign puzzle shuffles) (draws k)) →
  (∀ e k, draw_ok (init_assign puzzle shuffles) (t_draw (trials e k))) →
  init puzzle rate shuffles draws = Return solver →
  solve fuel solver trials = Some (Return g) →
  solves puzzle g.
Proof.
  intros Hwf Hsh Hd Ht Hinit Hsolve.
  destruct (solver_inv_init puzzle rate shuffles draws Hwf Hsh Hd)
    as (solver' & Hinit' & Hinv).
  rewrite Hinit in Hinit'. injection Hinit' as <-.
  by apply (solve_solves puzzle shuffles trials fuel solver).
Qed.

(** ** The temperature *)

Lemma population_std_nonneg (l : list Z) : (0 <= population_std l)%R.
Proof. unfold population_std. apply sqrt_pos. Qed.

Lemma sum_R_const (v : R) (l : list R) :
  Forall (λ x, x = v) l → sum_R l = (INR (length l) * v)%R.
Proof.
  induction 1 as [|x l -> _ IH].
  - simpl. lra.
  - cbn [sum_R foldr length]. fold (sum_R l). rewrite IH, S_INR. lra.
Qed.

(** Equal scores have standard deviation 0. *)
Lemma population_std_const (v : Z) (l : list Z) :
  Forall (λ x, x = v) l → population_std l = 0%R.
Proof.
  intros Hall. unfold population_std.
  destruct l as [|x l].
  - simpl. unfold Rdiv. rewrite Rmult_0_l. apply sqrt_0.
  - set (n := INR (length (x :: l))).
    assert (Hn : (n <> 0)%R) by (apply not_0_INR; simpl; lia).
    assert (Hmu : (sum_R (IZR <$> (x :: l)) / n)%R = IZR v).
    { rewrite (sum_R_const (IZR v)).
      - rewrite length_fmap. fold n. field. exact Hn.
      - apply Forall_fmap. eapply Forall_impl; [exact Hall|].
        intros y ->. reflexivity. }
    rewrite Hmu.
    rewrite (sum_R_const 0%R).
    + rewrite Rmult_0_r. unfold Rdiv. rewrite Rmult_0_l. apply sqrt_0.
    + apply Forall_fmap. eapply Forall_impl; [exact Hall|].
      intros y ->. simpl. ring.
Qed.

Lemma temperature_set_grid (s : Solver) (g : ndarray) (v : Z) :
  temperature (set_grid s g v) = temperature s.
Proof. reflexivity. Qed.

Lemma temperature_iteration_state (s : Solver) (t : trial) :
  temperature (iteration_state s t) = temperature s ∧
  cooling_rate (iteration_state s t) = cooling_rate s.
Proof. unfold iteration_state. by case (accepted s t). Qed.

(** The two outcomes of the end of an epoch: cooling alone, or cooling and
    the reheating bump, which needs 80 non-improving epochs before this one
    and resets the counter. *)
Lemma temperature_epoch_end (s : Solver) (prev r : Z) :
  cooling_rate (epoch_end s prev r).1 = cooling_rate s ∧
  ((temperature (epoch_end s prev r).1 = (temperature s * cooling_rate s)%R ∧
    (epoch_end s prev r).2 ≤ 80) ∨
   (temperature (epoch_end s prev r).1 = (temperature s * cooling_rate s + 2)%R ∧
    (epoch_end s prev r).2 = 0 ∧ 80 ≤ r)).
Proof.
  unfold epoch_end. repeat case_decide;
    cbn [fst snd temperature cooling_rate set_temperature];
    (split; [reflexivity|]);
    first [ left; split; [reflexivity|lia]
          | right; split_and!; [reflexivity|reflexivity|lia] ].
Qed.

Lemma inner_loop_temperature (self : Solver) (tr : nat → trial) (its : list nat) :
  match inner_loop self tr its with
  | Return (inr s) => temperature s = temperature self ∧
                      cooling_rate s = cooling_rate self
  | _ => True
  end.
Proof.
  pose proof (inner_loop_invariant
                (λ s, temperature s = temperature self ∧
                      cooling_rate s = cooling_rate self)
                (λ _, tr)) as Hinv.
  specialize (Hinv (λ s e k Hs,
    let (Ht, Hc) := temperature_iteration_state s (tr k) in
    conj (eq_trans Ht (proj1 Hs)) (eq_trans Hc (proj2 Hs)))).
  specialize (Hinv 0%nat its self (conj eq_refl eq_refl)).
  destruct (inner_loop self tr its) as [[g|s]|x]; [exact I|exact Hinv|exact I].
Qed.

Lemma epoch_temperature (self self' : Solver) (reheats reheats' : Z)
    (tr : nat → trial) :
  epoch self reheats tr = Next self' reheats' →
  cooling_rate self' = cooling_rate self ∧
  ((temperature self' = (temperature self * cooling_rate self)%R ∧
    reheats' ≤ 80) ∨
   (temperature self' = (temperature self * cooling_rate self + 2)%R ∧
    reheats' = 0 ∧ 80 ≤ reheats)).
Proof.
  unfold epoch. case_decide as Hz; [discriminate|].
  pose proof (inner_loop_temperature self tr (range 0 (limit self))) as Hin.
  destruct (inner_loop self tr (range 0 (limit self))) as [[g|s]|x];
    try discriminate.
  destruct Hin as [Ht Hc].
  pose proof (temperature_epoch_end s (grid_score self) reheats) as [Hc' Ht'].
  destruct (epoch_end s (grid_score self) reheats) as [s' r'].
  intros Heq. injection Heq as <- <-. cbn [fst snd] in Hc', Ht'.
  rewrite Ht, Hc in Ht'. rewrite Hc in Hc'. auto.
Qed.

Lemma sum_R_nonneg (l : list R) :
  Forall (λ x, (0 <= x)%R) l → (0 <= sum_R l)%R.
Proof.
  induction 1 as [|x l Hx _ IH]; cbn [sum_R foldr]; [lra|].
  fold (sum_R l). lra.
Qed.

Lemma sum_R_zero (l : list R) :
  Forall (λ x, (0 <= x)%R) l → sum_R l = 0%R → Forall (λ x, x = 0%R) l.
Proof.
  induction 1 as [|x l Hx Hl IH]; [constructor|].
  cbn [sum_R foldr]. fold (sum_R l). intros Hs.
  pose proof (sum_R_nonneg l Hl) as Hn.
  constructor; [lra|]. apply IH. lra.
Qed.

(** The standard deviation is 0 exactly when the scores are all equal. *)
Lemma population_std_zero (l : list Z) :
  population_std l = 0%R ↔ ∀ x y, x ∈ l → y ∈ l → x = y.
Proof.
  split.
  - unfold population_std. intros Hz x y Hx Hy.
    set (n := INR (length l)) in *.
    set (mu := (sum_R (IZR <$> l) / n)%R) in *.
    set (sq := (λ x : Z, ((IZR x - mu) ^ 2)%R) <$> l) in *.
    assert (Hn : (0 < n)%R).
    { apply lt_0_INR. clear -Hx. destruct l; [by apply elem_of_nil in Hx|].
      cbn [length]. apply Nat.lt_0_succ. }
    assert (Hsq : Forall (λ v, (0 <= v)%R) sq).
    { apply Forall_fmap, Forall_forall. intros z _. cbv beta. apply pow2_ge_0. }
    pose proof (sum_R_nonneg sq Hsq) as Hs.
    assert (Hq : (sum_R sq / n)%R = 0%R).
    { apply sqrt_eq_0; [|exact Hz]. apply Rmult_le_pos; [exact Hs|].
      apply Rlt_le, Rinv_0_lt_compat, Hn. }
    assert (Hs0 : sum_R sq = 0%R).
    { apply (Rmult_eq_compat_r n) in Hq. unfold Rdiv in Hq.
      rewrite Rmult_assoc, Rinv_l, Rmult_1_r, Rmult_0_l in Hq by lra.
      exact Hq. }
    pose proof (sum_R_zero sq Hsq Hs0) as Hall.
    unfold sq in Hall. rewrite Forall_fmap, Forall_forall in Hall.
    pose proof (Hall x Hx) as Ex. pose proof (Hall y Hy) as Ey.
    change ((IZR x - mu) ^ 2 = 0)%R in Ex. change ((IZR y - mu) ^ 2 = 0)%R in Ey.
    rewrite <- Rsqr_pow2 in Ex, Ey.
    apply Rsqr_0_uniq, Rminus_diag_uniq in Ex, Ey.
    apply eq_IZR. congruence.
  - intros Heq. destruct l as [|v l].
    + apply (population_std_const 0). constructor.
    + apply (population_std_const v). apply Forall_forall.
      intros x Hx. apply Heq; [exact Hx|left].
Qed.

Lemma epoch_end_reheats (s : Solver) (prev r : Z) :
  0 ≤ r ≤ 80 →
  grid_score (epoch_end s prev r).1 = grid_score s ∧
  ((temperature (epoch_end s prev r).1 = (temperature s * cooling_rate s + 2)%R ∧
    r = 80 ∧ prev ≤ grid_score s ∧ (epoch_end s prev r).2 = 0) ∨
   (temperature (epoch_end s prev r).1 = (temperature s * cooling_rate s)%R ∧
    ((epoch_end s prev r).2 = 0 ∧ grid_score s < prev ∨
     (epoch_end s prev r).2 = r + 1 ∧ r < 80 ∧ prev ≤ grid_score s))).
Proof.
  intros Hr. unfold epoch_end.
  destruct (decide (prev ≤ grid_score s)) as [Hle|Hgt].
  - destruct (decide (80 < r + 1)) as [Hre|Hno].
    + split; [reflexivity|]. left. cbn [fst snd temperature set_temperature].
      split_and!; [reflexivity|lia|lia|reflexivity].
    + split; [reflexivity|]. right. cbn [fst snd temperature set_temperature].
      split; [reflexivity|]. right. split_and!; [reflexivity|lia|lia].
  - rewrite decide_False by lia. split; [reflexivity|]. right.
    cbn [fst snd temperature set_temperature].
    split; [reflexivity|]. left. split; [reflexivity|lia].
Qed.

(** One pass through the body of [while True] that does not return. *)
Lemma epoch_reheats (self self' : Solver) (r r' : Z) (tr : nat → trial) :
  0 ≤ r ≤ 80 → epoch self r tr = Next self' r' →
  (temperature self' = (temperature self * cooling_rate self + 2)%R ∧
   r = 80 ∧ r' = 0 ∧ grid_score self ≤ grid_score self') ∨
  (temperature self' = (temperature self * cooling_rate self)%R ∧
   (r' = 0 ∧ grid_score self' < grid_score self ∨
    r' = r + 1 ∧ r < 80 ∧ grid_score self ≤ grid_score self')).
Proof.
  intros Hr. unfold epoch. case_decide as Hz; [discriminate|].
  pose proof (inner_loop_temperature self tr (range 0 (limit self))) as Hin.
  destruct (inner_loop self tr (range 0 (limit self))) as [[g|s]|x];
    try discriminate.
  destruct Hin as [Ht Hc].
  pose proof (epoch_end_reheats s (grid_score self) r Hr) as [Hscore Hend].
  destruct (epoch_end s (grid_score self) r) as [s' r2].
  intros Heq. injection Heq as <- <-. cbn [fst snd] in Hend, Hscore.
  rewrite Ht, Hc in Hend. rewrite Hscore.
  destruct Hend as [(H1 & H2 & H3 & H4)|(H1 & [[H2 H3]|(H2 & H3 & H4)])]; auto 10.
Qed.

Lemma epoch_cooling (self s1 : Solver) (r0 r1 : Z) (tr : nat → trial) :
  0 ≤ r0 < 80 → epoch self r0 tr = Next s1 r1 →
  temperature s1 = (temperature self * cooling_rate self)%R ∧
  cooling_rate s1 = cooling_rate self ∧ 0 ≤ r1 ≤ r0 + 1.
Proof.
  intros Hr0 Hep.
  assert (Hr : 0 ≤ r0 ≤ 80) by lia.
  pose proof (epoch_reheats _ _ _ _ _ Hr Hep) as Hstep.
  destruct (epoch_temperature _ _ _ _ _ Hep) as [Hc _].
  destruct Hstep as [(_ & H80 & _)|(Ht & Hr1)]; [lia|].
  split_and!; [exact Ht|exact Hc|lia|lia].
Qed.

Lemma run_epochs_S (trials : nat → nat → trial) (n e : nat)
    (self s : Solver) (r0 r : Z) :
  run_epochs (S n) self r0 trials e = Some (s, r) →
  ∃ s1 r1, epoch self r0 (trials e) = Next s1 r1 ∧
           run_epochs n s1 r1 trials (S e) = Some (s, r).
Proof.
  cbn [run_epochs].
  destruct (epoch self r0 (trials e)) as [g|x|s1 r1]; try discriminate.
  intros Hrun. exists s1, r1. split; [reflexivity|exact Hrun].
Qed.

(** The reheat counter stays within 0..80 and grows by at most one an
    epoch. *)
Lemma run_epochs_reheats (trials : nat → nat → trial) (n : nat) :
  ∀ (e : nat) (self s : Solver) (r0 r : Z),
  0 ≤ r0 ≤ 80 → run_epochs n self r0 trials e = Some (s, r) →
  0 ≤ r ≤ 80 ∧ r ≤ r0 + Z.of_nat n.
Proof.
  induction n as [|n IH]; intros e self s r0 r Hr0 Hrun.
  - cbn [run_epochs] in Hrun. injection Hrun as <- <-. lia.
  - apply run_epochs_S in Hrun as (s1 & r1 & Hep & Hrun).
    pose proof (epoch_reheats _ _ _ _ _ Hr0 Hep) as Hstep.
    assert (Hr1 : 0 ≤ r1 ≤ 80 ∧ r1 ≤ r0 + 1) by (clear -Hstep Hr0; lia).
    destruct (IH _ _ _ _ _ (proj1 Hr1) Hrun) as [H1 H2]. lia.
Qed.

(** As long as the counter cannot have reached 80, every epoch cools. *)
Lemma run_epochs_before_reheat (trials : nat → nat → trial) (n : nat) :
  ∀ (e : nat) (self s : Solver) (r0 r : Z),
  0 ≤ r0 → r0 + Z.of_nat n ≤ 80 →
  (0 <= temperature self)%R → (0 < cooling_rate self < 1)%R →
  run_epochs n self r0 trials e = Some (s, r) →
  cooling_rate s = cooling_rate self ∧
  (0 <= temperature s <= temperature self)%R ∧
  (temperature self = 0%R → temperature s = 0%R) ∧
  ((0 < temperature self)%R → (0 < temperature s)%R) ∧
  ((0 < temperature self)%R → (0 < n)%nat →
   (temperature s < temperature self)%R).
Proof.
  induction n as [|n IH]; intros e self s r0 r H0 Hn HT Hc Hrun.
  - cbn [run_epochs] in Hrun. injection Hrun as <- <-.
    split_and!; [reflexivity|lra|lra|done|done|intros _ Hlt; lia].
  - apply run_epochs_S in Hrun as (s1 & r1 & Hep & Hrun).
    assert (Hr0 : 0 ≤ r0 < 80) by lia.
    destruct (epoch_cooling _ _ _ _ _ Hr0 Hep) as (Ht1 & Hc1 & Hr1).
    assert (Hr1' : 0 ≤ r1 ∧ r1 + Z.of_nat n ≤ 80) by lia.
    assert (HT1 : (0 <= temperature s1)%R) by (rewrite Ht1; nra).
    assert (Hc1' : (0 < cooling_rate s1 < 1)%R) by (rewrite Hc1; exact Hc).
    destruct (IH (S e) s1 s r1 r (proj1 Hr1') (proj2 Hr1') HT1 Hc1' Hrun)
      as (IHc & IHle & IHz & IHp & IHlt).
    rewrite Ht1 in IHle, IHz, IHp, IHlt.
    split_and!.
    + by rewrite IHc.
    + nra.
    + nra.
    + intros Hz. apply IHz. rewrite Hz. lra.
    + intros Hp. apply IHp. nra.
    + intros Hp _. nra.
Qed.

(** A positive temperature stays positive. *)
Lemma run_epochs_positive (trials : nat → nat → trial) (n e : nat)
    (self s : Solver) (r0 r : Z) :
  (0 < cooling_rate self < 1)%R → (0 < temperature self)%R →
  run_epochs n self r0 trials e = Some (s, r) →
  (0 < temperature s)%R.
Proof.
  intros Hc HT Hrun.
  apply (run_epochs_invariant
           (λ x, (0 < temperature x)%R ∧ cooling_rate x = cooling_rate self) trials)
    with (n := n) (e := e) (self := self) (reheats := r0) (r := r) (s := s).
  - intros x e' k [H1 H2].
    destruct (temperature_iteration_state x (trials e' k)) as [-> ->]. auto.
  - intros x prev r' [H1 H2].
    destruct (temperature_epoch_end x prev r') as [-> [[-> _] | [-> _]]];
      rewrite H2; split; try reflexivity; nra.
  - split; [exact HT|reflexivity].
  - exact Hrun.
Qed.

Lemma run_epochs_nonneg (trials : nat → nat → trial) (n e : nat)
    (self s : Solver) (r0 r : Z) :
  (0 < cooling_rate self < 1)%R → (0 <= temperature self)%R →
  run_epochs n self r0 trials e = Some (s, r) →
  (0 <= temperature s)%R ∧ cooling_rate s = cooling_rate self.
Proof.
  intros Hc HT Hrun.
  apply (run_epochs_invariant
           (λ x, (0 <= temperature x)%R ∧ cooling_rate x = cooling_rate self) trials)
    with (n := n) (e := e) (self := self) (reheats := r0) (r := r) (s := s).
  - intros x e' k [H1 H2].
    destruct (temperature_iteration_state x (trials e' k)) as [-> ->]. auto.
  - intros x prev r' [H1 H2].
    destruct (temperature_epoch_end x prev r') as [-> [[-> _] | [-> _]]];
      rewrite H2; split; try reflexivity; nra.
  - split; [exact HT|reflexivity].
  - exact Hrun.
Qed.

(** The schedule from any object with a non-negative temperature. *)
Lemma schedule_from (solver : Solver) (trials : nat → nat → trial)
    (n : nat) (self : Solver) (reheats : Z) :
  (0 < cooling_rate solver < 1)%R → (0 <= temperature solver)%R →
  run_epochs n solver 0 trials 0 = Some (self, reheats) →
  (0 <= temperature self)%R ∧
  ((0 < temperature solver)%R → (0 < temperature self)%R) ∧
  (temperature solver = 0%R → (n ≤ 80)%nat → temperature self = 0%R) ∧
  (∀ m, match inner_loop self (trials n) (range 0 m) with
        | Return (inr self') => temperature self' = temperature self
        | _ => True
        end) ∧
  (∀ self' reheats',
     epoch self reheats (trials n) = Next self' reheats' →
     (temperature self' = (temperature self * cooling_rate solver)%R ∧
      ((0 < temperature self)%R →
       (0 < temperature self' < temperature self)%R) ∧
      (temperature self = 0%R → temperature self' = 0%R) ∧
      reheats' ≤ 80) ∨
     (temperature self' = (temperature self * cooling_rate solver + 2)%R ∧
      (2 <= temperature self')%R ∧ reheats' = 0 ∧ reheats = 80)) ∧
  (∀ m self' reheats',
     run_epochs m self reheats trials n = Some (self', reheats') →
     (0 < temperature self)%R → (0 < temperature self')%R).
Proof.
  intros Hrate HT Hrun.
  destruct (run_epochs_nonneg trials n 0 solver self 0 reheats Hrate HT Hrun)
    as [Hpos Hc].
  assert (H00 : 0 ≤ 0 ≤ 80) by lia.
  destruct (run_epochs_reheats trials n 0%nat solver self 0 reheats H00 Hrun)
    as [Hr _].
  split_and!.
  - exact Hpos.
  - intros Hp. exact (run_epochs_positive trials n 0 solver self 0 reheats
                        Hrate Hp Hrun).
  - intros Hz Hn.
    assert (H0 : 0 ≤ 0 ∧ 0 + Z.of_nat n ≤ 80) by lia.
    destruct (run_epochs_before_reheat trials n 0%nat solver self 0 reheats
                (proj1 H0) (proj2 H0) HT Hrate Hrun) as (_ & _ & Hzero & _).
    exact (Hzero Hz).
  - intros m. pose proof (inner_loop_temperature self (trials n) (range 0 m)) as Hin.
    destruct (inner_loop self (trials n) (range 0 m)) as [[g|s]|x];
      [exact I|exact (proj1 Hin)|exact I].
  - intros self' reheats' Hep.
    destruct (epoch_reheats _ _ _ _ _ Hr Hep)
      as [(Hheat & H80 & Hr' & _)|(Hcool & Hr')]; rewrite Hc in *.
    + right. split_and!; [exact Hheat| |exact Hr'|exact H80].
      rewrite Hheat. nra.
    + left. split_and!; [exact Hcool| | |clear -Hr' Hr; lia].
      * intros Hlt. rewrite Hcool. nra.
      * intros Hz. rewrite Hcool, Hz. lra.
  - intros m self' reheats' Hrun' Hp.
    apply (run_epochs_positive trials m n self self' reheats reheats');
      [by rewrite Hc|exact Hp|exact Hrun'].
Qed.

(** C6, as amended. For a cooling rate strictly between 0 and 1, the
    temperature that [__init__] stores is the standard deviation of the ten
    sampled scores: it is never negative, and it is 0 exactly when the ten
    scores are all equal.  At the start of every epoch the temperature is
    non-negative; it is positive at the start of every epoch when it was
    positive at the start of [solve]; and when it was 0 at the start of
    [solve] it is still 0 at the start of each of the first 81 epochs.  The
    inner loop does not change it.  An epoch that runs to its end either
    multiplies it by the cooling rate, which lowers it strictly and keeps it
    positive when it is positive, and leaves it at 0 when it is 0; or (a
    reheat, only when the counter of non-improving epochs stood at 80, which
    resets the counter) multiplies it by the cooling rate and then adds 2,
    which makes it at least 2.  Once positive, the temperature is positive
    at the start of every later epoch. *)
Theorem temperature_schedule (puzzle : ndarray) (rate : R)
    (shuffles : nat → list Z) (draws : nat → draw) (trials : nat → nat → trial) :
  (0 < rate < 1)%R →
  ∃ solver,
    init puzzle rate shuffles draws = Return solver ∧
    temperature solver =
      population_std (walk_scores (init_assign puzzle shuffles) draws 10) ∧
    (0 <= temperature solver)%R ∧
    (temperature solver = 0%R ↔
     ∀ x y, x ∈ walk_scores (init_assign puzzle shuffles) draws 10 →
            y ∈ walk_scores (init_assign puzzle shuffles) draws 10 → x = y) ∧
    ∀ n self reheats,
      run_epochs n solver 0 trials 0 = Some (self, reheats) →
      (0 <= temperature self)%R ∧
      ((0 < temperature solver)%R → (0 < temperature self)%R) ∧
      (temperature solver = 0%R → (n ≤ 80)%nat → temperature self = 0%R) ∧
      (∀ m, match inner_loop self (trials n) (range 0 m) with
            | Return (inr self') => temperature self' = temperature self
            | _ => True
            end) ∧
      (∀ self' reheats',
         epoch self reheats (trials n) = Next self' reheats' →
         (temperature self' = (temperature self * rate)%R ∧
          ((0 < temperature self)%R →
           (0 < temperature self' < temperature self)%R) ∧
          (temperature self = 0%R → temperature self' = 0%R) ∧
          reheats' ≤ 80) ∨
         (temperature self' = (temperature self * rate + 2)%R ∧
          (2 <= temperature self')%R ∧ reheats' = 0 ∧ reheats = 80)) ∧
      (∀ m self' reheats',
         run_epochs m self reheats trials n = Some (self', reheats') →
         (0 < temperature self)%R → (0 < temperature self')%R).
Proof.
  intros Hrate. rewrite init_returns. cbv zeta.
  generalize (walk_state (init_assign puzzle shuffles) draws 10).
  pose proof (population_std_nonneg
                (walk_scores (init_assign puzzle shuffles) draws 10)) as Ht.
  pose proof (population_std_zero
                (walk_scores (init_assign puzzle shuffles) draws 10)) as Hz.
  revert Ht Hz.
  generalize (population_std (walk_scores (init_assign puzzle shuffles) draws 10)).
  intros t Ht Hz w. eexists. split; [reflexivity|].
  split; [reflexivity|]. split; [exact Ht|]. split; [exact Hz|].
  intros n self reheats Hrun.
  set (solver := mkSolver _ _ _ _ _ _ _ _) in *.
  exact (schedule_from solver trials n self reheats Hrate Ht Hrun).
Qed.

(** ** Concrete runs *)

Lemma walk_state_static (self : Solver) (draws : nat → draw) (k : nat) :
  basic_grid (walk_state self draws k) = basic_grid self ∧
  index (walk_state self draws k) = index self ∧
  pre_filled_indexes (walk_state self draws k) = pre_filled_indexes self.
Proof.
  induction k as [|k IH]; [done|]. rewrite walk_state_S. exact IH.
Qed.

(** The object that [__init__] builds, from the end of the walk. *)
Lemma init_eq (puzzle : ndarray) (rate : R) (shuffles : nat → list Z)
    (draws : nat → draw) (g : ndarray) (score : Z) (t : R) :
  grid (walk_state (init_assign puzzle shuffles) draws 10) = g →
  grid_score (walk_state (init_assign puzzle shuffles) draws 10) = score →
  population_std (walk_scores (init_assign puzzle shuffles) draws 10) = t →
  init puzzle rate shuffles draws =
  Return (mkSolver puzzle blocks_index g score (argwhere_nonzero puzzle) t
                   (count_zero puzzle) rate).
Proof.
  intros Hg Hs Ht. rewrite init_returns. cbv zeta. rewrite Hg, Hs, Ht.
  destruct (walk_state_static (init_assign puzzle shuffles) draws 10)
    as (-> & -> & ->).
  reflexivity.
Qed.

Lemma two_empty_init :
  init two_empty (99 / 100)%R two_empty_shuffles (λ _, idle_draw) =
  Return two_empty_solver.
Proof.
  apply init_eq.
  - vm_compute. reflexivity.
  - vm_compute. reflexivity.
  - apply (population_std_const 4).
    apply (bool_decide_unpack _). vm_compute. exact I.
Qed.

Lemma two_empty_accepted : accepted two_empty_solver fixing_trial = true.
Proof.
  unfold accepted, acceptance.
  assert (Hn : compute_error (neighbor_grid two_empty_solver (t_draw fixing_trial)) = 0)
    by (vm_compute; reflexivity).
  rewrite Hn. change (grid_score two_empty_solver) with 4.
  change (temperature two_empty_solver) with 0%R.
  unfold true_divide. destruct (Req_dec_T 0 0) as [_|Hne]; [|by destruct Hne].
  destruct (Rlt_dec 0 (IZR (4 - 0))) as [_|Hn0]; [reflexivity|].
  exfalso. apply Hn0. change (4 - 0) with 4. lra.
Qed.

Lemma two_empty_solve :
  solve 1 two_empty_solver (λ _ _, fixing_trial) = Some (Return solved).
Proof.
  unfold solve. cbn [solve_loop]. unfold epoch.
  assert (H4 : compute_error (grid two_empty_solver) = 4) by (vm_compute; reflexivity).
  rewrite decide_False by (rewrite H4; lia).
  change (limit two_empty_solver) with (count_zero two_empty).
  assert (Hl : count_zero two_empty = 2%nat) by (vm_compute; reflexivity).
  rewrite Hl. change (range 0 2) with [0%nat; 1%nat].
  cbn [inner_loop]. rewrite iteration_returns. cbn [mbind exc_bind].
  unfold iteration_state. rewrite two_empty_accepted.
  rewrite grid_score_set_grid, grid_set_grid.
  assert (Hn : compute_error (neighbor_grid two_empty_solver (t_draw fixing_trial)) = 0)
    by (vm_compute; reflexivity).
  rewrite Hn, decide_True by lia.
  assert (Hg : neighbor_grid two_empty_solver (t_draw fixing_trial) = solved)
    by (vm_compute; reflexivity).
  rewrite Hg. reflexivity.
Qed.

Lemma two_empty_well_formed : well_formed two_empty.
Proof.
  split_and!.
  - split; [reflexivity|]. apply (bool_decide_unpack _). vm_compute. exact I.
  - apply Forall_forall. apply (bool_decide_unpack _). vm_compute. exact I.
  - intros k Hk.
    do 9 (destruct k as [|k]; [apply (bool_decide_unpack _); vm_compute; exact I|]).
    lia.
Qed.

Lemma two_empty_shuffles_ok : shuffles_ok two_empty_shuffles.
Proof. intros k. apply (bool_decide_unpack _). vm_compute. exact I. Qed.

Lemma idle_draw_ok : draw_ok (init_assign two_empty two_empty_shuffles) idle_draw.
Proof.
  split; [simpl; lia|]. intros Hlen. exfalso. revert Hlen.
  vm_compute. lia.
Qed.

Lemma fixing_draw_ok :
  draw_ok (init_assign two_empty two_empty_shuffles) (t_draw fixing_trial).
Proof.
  split; [simpl; lia|]. intros _. exists 0%nat, 1%nat.
  split_and!; [lia| |]; vm_compute; reflexivity.
Qed.

Lemma solve_partial_correctness_witness :
  well_formed two_empty ∧ shuffles_ok two_empty_shuffles ∧
  init two_empty (99 / 100)%R two_empty_shuffles (λ _, idle_draw) =
    Return two_empty_solver ∧
  solve 1 two_empty_solver (λ _ _, fixing_trial) = Some (Return solved) ∧
  solves two_empty solved.
Proof.
  split_and!.
  - exact two_empty_well_formed.
  - exact two_empty_shuffles_ok.
  - exact two_empty_init.
  - exact two_empty_solve.
  - exact (solve_partial_correctness two_empty (99 / 100)%R two_empty_shuffles
             (λ _, idle_draw) (λ _ _, fixing_trial) 1 two_empty_solver solved
             two_empty_well_formed two_empty_shuffles_ok
             (λ _, idle_draw_ok) (λ _ _, fixing_draw_ok)
             two_empty_init two_empty_solve).
Defined.

(** ** The acceptance test *)

(** The value that [np.random.uniform(1, 0, 1)] compares with [p] lies
    between 0 (excluded) and 1 (included). *)
Lemma np_random_uniform_1_0 (u : R) :
  double_ok u →
  (0 < np_random_uniform 1 0 u <= 1)%R.
Proof. unfold double_ok, np_random_uniform. lra. Qed.


(** A move that leaves the score as it is is rejected when the generator's
    double is 0, at any temperature. *)
Lemma neutral_move_rejected (self : Solver) (t : trial) :
  compute_error (neighbor_grid self (t_draw t)) = grid_score self →
  t_double t = 0%R →
  accepted self t = false.
Proof.
  intros Hn Hu. unfold accepted, acceptance, true_divide, np_random_uniform.
  rewrite Hn, Hu, Z.sub_diag.
  destruct (Req_dec_T (temperature self) 0) as [H0|Hne].
  - destruct (Rlt_dec 0 0) as [Hlt|_]; [lra|].
    destruct (Rlt_dec 0 0) as [Hlt|_]; [lra|]. reflexivity.
  - cbn [np_exp float_lt]. unfold Rdiv. rewrite Rmult_0_l, exp_0.
    destruct (Rlt_dec _ _) as [Hlt|_]; [lra|reflexivity].
Qed.

Lemma population_std_alternating :
  population_std [44; 45; 44; 45; 44; 45; 44; 45; 44; 45] = (1 / 2)%R.
Proof.
  unfold population_std.
  set (l := [44; 45; 44; 45; 44; 45; 44; 45; 44; 45]).
  assert (Hmu : (sum_R (IZR <$> l) / INR 10 = 89 / 2)%R) by (simpl; lra).
  change (length l) with 10%nat. rewrite Hmu.
  replace (sum_R _ / INR 10)%R with ((1 / 2) * (1 / 2))%R.
  - apply sqrt_square. lra.
  - simpl. lra.
Qed.

Lemma started_init :
  init example_puzzle (99 / 100)%R example_shuffles (λ _, example_draw) =
  Return started_solver.
Proof.
  apply init_eq.
  - vm_compute. reflexivity.
  - vm_compute. reflexivity.
  - assert (Hs : walk_scores (init_assign example_puzzle example_shuffles)
                   (λ _, example_draw) 10 =
                 [44; 45; 44; 45; 44; 45; 44; 45; 44; 45])
      by (vm_compute; reflexivity).
    rewrite Hs. apply population_std_alternating.
Qed.

(** C5. The inner-loop iteration computes [p] by the formula of the claim
    and accepts exactly when the drawn value is below [p]; but the drawn
    value is [1 - u] for the generator's double [u], so it can be 1: at the
    object built from [example_puzzle], with the double 0, a move that changes
    the grid and leaves the score at 45 has [p = 1], the drawn value is 1,
    and the move is rejected (the iteration returns the object unchanged). *)
Theorem metropolis_neutral_move_rejected :
  init example_puzzle (99 / 100)%R example_shuffles (λ _, example_draw) =
    Return started_solver ∧
  draw_ok started_solver neutral_draw ∧ double_ok (t_double neutral_trial) ∧
  ∃ g,
    neighbor_sudoku started_solver (t_draw neutral_trial) = Return g ∧
    g ≠ grid started_solver ∧
    compute_error g = grid_score started_solver ∧
    acceptance started_solver (compute_error g) = Finite 1 ∧
    np_random_uniform 1 0 (t_double neutral_trial) = 1%R ∧
    iteration started_solver neutral_trial = Return started_solver.
Proof.
  assert (Hn : compute_error (neighbor_grid started_solver neutral_draw) = 45)
    by (vm_compute; reflexivity).
  split_and!.
  - exact started_init.
  - split; [simpl; lia|]. intros _. exists 0%nat, 3%nat.
    split_and!; [lia| |]; vm_compute; reflexivity.
  - unfold double_ok. simpl. lra.
  - exists (neighbor_grid started_solver neutral_draw). split_and!.
    + apply neighbor_sudoku_returns.
    + apply (bool_decide_unpack _). vm_compute. exact I.
    + exact Hn.
    + unfold acceptance, true_divide. rewrite Hn.
      change (grid_score started_solver) with 45.
      change (temperature started_solver) with (1 / 2)%R.
      destruct (Req_dec_T (1 / 2) 0) as [H0|_]; [lra|].
      cbn [np_exp]. rewrite Z.sub_diag. unfold Rdiv at 1.
      rewrite Rmult_0_l, exp_0. reflexivity.
    + unfold np_random_uniform. simpl. lra.
    + rewrite iteration_returns. unfold iteration_state.
      rewrite neutral_move_rejected; [reflexivity|exact Hn|reflexivity].
Qed.

Lemma two_empty_idle_epoch :
  epoch two_empty_solver 0 (λ _, idle_trial) =
  Next (set_temperature two_empty_solver (0 * (99 / 100))%R) 1.
Proof.
  unfold epoch.
  assert (H4 : compute_error (grid two_empty_solver) = 4) by (vm_compute; reflexivity).
  rewrite decide_False by (rewrite H4; lia).
  change (limit two_empty_solver) with (count_zero two_empty).
  assert (Hl : count_zero two_empty = 2%nat) by (vm_compute; reflexivity).
  rewrite Hl. change (range 0 2) with [0%nat; 1%nat].
  assert (Hrej : accepted two_empty_solver idle_trial = false).
  { apply neutral_move_rejected; [|reflexivity]. vm_compute. reflexivity. }
  assert (Hit : iteration two_empty_solver idle_trial = Return two_empty_solver).
  { rewrite iteration_returns. unfold iteration_state. by rewrite Hrej. }
  cbn [inner_loop]. rewrite Hit. cbn [mbind exc_bind].
  change (grid_score two_empty_solver) with 4.
  rewrite decide_False by lia. rewrite Hit. cbn [mbind exc_bind].
  change (grid_score two_empty_solver) with 4.
  rewrite decide_False by lia.
  unfold epoch_end. change (grid_score two_empty_solver) with 4.
  rewrite (decide_True (P := 4 ≤ 4)) by lia.
  rewrite decide_False by lia. reflexivity.
Qed.

(** C6, counterexample. The object built from [two_empty] has temperature 0
    while its grid still scores 4, and an epoch without reheat leaves the
    temperature at 0: it is neither positive nor strictly decreased. *)
Lemma temperature_not_positive :
  well_formed two_empty ∧ shuffles_ok two_empty_shuffles ∧
  (0 < 99 / 100 < 1)%R ∧
  init two_empty (99 / 100)%R two_empty_shuffles (λ _, idle_draw) =
    Return two_empty_solver ∧
  compute_error (grid two_empty_solver) = 4 ∧
  ¬ (0 < temperature two_empty_solver)%R ∧
  ∃ self',
    epoch two_empty_solver 0 (λ _, idle_trial) = Next self' 1 ∧
    ¬ (temperature self' < temperature two_empty_solver)%R.
Proof.
  split_and!.
  - exact two_empty_well_formed.
  - exact two_empty_shuffles_ok.
  - lra.
  - lra.
  - exact two_empty_init.
  - vm_compute. reflexivity.
  - change (temperature two_empty_solver) with 0%R. lra.
  - eexists. split; [exact two_empty_idle_epoch|].
    change (temperature two_empty_solver) with 0%R.
    cbn [temperature set_temperature]. lra.
Qed.

(** An iteration that rejects its move leaves the loop where it was. *)
Lemma inner_loop_rejected (self : Solver) (tr : nat → trial) (its : list nat) :
  0 < grid_score self → (∀ k, accepted self (tr k) = false) →
  inner_loop self tr its = Return (inr self).
Proof.
  intros Hs Hrej. induction its as [|k its IH]; [reflexivity|].
  cbn [inner_loop]. rewrite iteration_returns. unfold iteration_state.
  rewrite Hrej. cbn [mbind exc_bind]. rewrite decide_False by lia. exact IH.
Qed.

(** An epoch of rejected neutral moves from the object of the example: the
    temperature goes from 1/2 to 1/2 * 99/100. *)
Lemma started_epoch :
  epoch started_solver 0 (λ _, neutral_trial) =
  Next (set_temperature started_solver (1 / 2 * (99 / 100))%R) 1.
Proof.
  unfold epoch.
  assert (H45 : compute_error (grid started_solver) = 45) by (vm_compute; reflexivity).
  rewrite decide_False by (rewrite H45; lia).
  rewrite inner_loop_rejected.
  - unfold epoch_end. change (grid_score started_solver) with 45.
    rewrite (decide_True (P := 45 ≤ 45)) by lia.
    rewrite decide_False by lia. reflexivity.
  - change (grid_score started_solver) with 45. lia.
  - intros _. apply neutral_move_rejected; [|reflexivity].
    vm_compute. reflexivity.
Qed.

Lemma temperature_schedule_witness :
  (0 < 99 / 100 < 1)%R ∧
  ∃ solver self,
    init example_puzzle (99 / 100)%R example_shuffles (λ _, example_draw) =
      Return solver ∧
    run_epochs 1 solver 0 (λ _ _, neutral_trial) 0 = Some (self, 1) ∧
    (0 < temperature self < temperature solver)%R.
Proof.
  assert (Hrate : (0 < 99 / 100 < 1)%R) by lra.
  split; [exact Hrate|].
  destruct (temperature_schedule example_puzzle (99 / 100)%R example_shuffles
              (λ _, example_draw) (λ _ _, neutral_trial) Hrate)
    as (solver & Hinit & _ & _ & _ & Hrun).
  pose proof Hinit as Heq. rewrite started_init in Heq. injection Heq as <-.
  exists started_solver, (set_temperature started_solver (1 / 2 * (99 / 100))%R).
  split; [exact Hinit|].
  assert (Hone : run_epochs 1 started_solver 0 (λ _ _, neutral_trial) 0 =
                 Some (set_temperature started_solver (1 / 2 * (99 / 100))%R, 1)).
  { cbn [run_epochs]. rewrite started_epoch. reflexivity. }
  split; [exact Hone|].
  destruct (Hrun 0%nat started_solver 0 eq_refl) as (_ & _ & _ & _ & Hep & _).
  destruct (Hep _ _ started_epoch) as [(_ & Hlt & _)|(_ & _ & _ & H80)];
    [|discriminate H80].
  apply Hlt. change (temperature started_solver) with (1 / 2)%R. lra.
Defined.

(** * Further properties *)

(** ** The initializer on arbitrary arrays *)

(** Two arrays of shape (9, 9) with the same entries are equal. *)
Lemma nd_ext (a b : ndarray) :
  shape9 a → shape9 b →
  (∀ c, c ∈ all_cells → nd_get a c = nd_get b c) → a = b.
Proof.
  intros [Hla Hra] [Hlb Hrb] Heq. apply list_eq. intros i.
  destruct (decide (i < 9)%nat) as [Hi|Hi].
  - rewrite (list_lookup_lookup_total_lt a i), (list_lookup_lookup_total_lt b i)
      by lia.
    f_equal. apply list_eq. intros j.
    assert (Ha : length (a !!! i) = 9%nat).
    { rewrite Forall_forall in Hra. apply Hra, list_elem_of_lookup.
      exists i. apply list_lookup_lookup_total_lt. lia. }
    assert (Hb : length (b !!! i) = 9%nat).
    { rewrite Forall_forall in Hrb. apply Hrb, list_elem_of_lookup.
      exists i. apply list_lookup_lookup_total_lt. lia. }
    destruct (decide (j < 9)%nat) as [Hj|Hj].
    + rewrite (list_lookup_lookup_total_lt (a !!! i) j),
        (list_lookup_lookup_total_lt (b !!! i) j) by lia.
      f_equal. apply (Heq (i, j)). apply all_cells_spec. simpl. lia.
    + rewrite !lookup_ge_None_2 by lia. reflexivity.
  - rewrite !lookup_ge_None_2 by lia. reflexivity.
Qed.

(** Position by position: a filled block keeps its non-zero values and
    takes candidates at its zeros, as long as the candidates last. *)
Lemma fill_values_Forall2 (vs L : list Z) :
  (length (filter (λ v, v = 0%Z) vs) ≤ length L)%nat →
  Forall2 (λ v y, (v ≠ 0 ∧ y = v) ∨ (v = 0 ∧ y ∈ L)) vs (fill_values vs L).
Proof.
  revert L. induction vs as [|v vs IH]; intros L Hlen; [constructor|].
  cbn [fill_values]. destruct L as [|L0 L1].
  - destruct (decide (v = 0)) as [->|Hv].
    + rewrite filter_cons_True in Hlen by done. simpl in Hlen. lia.
    + rewrite filter_cons_False in Hlen by done.
      constructor; [left; done|]. by apply IH.
  - destruct (decide (v = 0)) as [->|Hv].
    + rewrite filter_cons_True in Hlen by done. simpl in Hlen.
      constructor; [right; split; [done|by left]|].
      eapply Forall2_impl; [apply IH; lia|].
      intros x y [?|[? ?]]; [by left|right; split; [done|by right]].
    + rewrite filter_cons_False in Hlen by done.
      constructor; [left; done|]. by apply IH.
Qed.

(** The candidates left after dropping the fixed digits are at least as many
    as the empty cells of the block, whatever values the block holds. *)
Lemma candidates_enough (vs shuffled : list Z) :
  length vs = 9%nat → shuffled ≡ₚ digits →
  (length (filter (λ v, v = 0%Z) vs)
   ≤ length (filter (λ x, x ∉ filter (λ v, v ≠ 0%Z) vs) shuffled))%nat.
Proof.
  intros Hlen Hperm. set (fixed := filter (λ v, v ≠ 0) vs).
  pose proof (filter_app_complement (λ v, v = 0) vs) as Hsplit.
  pose proof (filter_app_complement (λ x, x ∈ fixed) shuffled) as Hsh.
  apply Permutation_length in Hsplit, Hsh.
  rewrite length_app in Hsplit, Hsh.
  assert (H9 : length shuffled = 9%nat) by (by rewrite Hperm).
  assert (Hle : (length (filter (λ x, x ∈ fixed) shuffled) ≤ length fixed)%nat).
  { apply submseteq_length, NoDup_submseteq.
    - apply NoDup_filter. rewrite Hperm. apply digits_NoDup.
    - intros x Hx. by apply list_elem_of_filter in Hx as [? _]. }
  fold fixed in Hsplit. lia.
Qed.

Lemma fill_block_any (sudoku result : ndarray) (blocks : list cell)
    (shuffled : list Z) :
  NoDup blocks → Forall (in_bounds result) blocks →
  let result' := fill_block sudoku result blocks shuffled in
  (∀ c, in_bounds result' c ↔ in_bounds result c) ∧
  length result' = length result ∧
  (∀ i, length (result' !!! i) = length (result !!! i)) ∧
  (∀ c, c ∉ blocks → nd_get result' c = nd_get result c) ∧
  (∀ c, nd_get result c ≠ 0 → nd_get result' c = nd_get result c) ∧
  (length blocks = 9%nat → shuffled ≡ₚ digits →
   (∀ c, c ∈ blocks → nd_get result c = nd_get sudoku c) →
   ∀ c, c ∈ blocks → nd_get result c = 0 → nd_get result' c ∈ digits).
Proof.
  intros Hnd Hin. unfold fill_block. rewrite drop_fixed_fold.
  set (L := filter (λ x, x ∉ fixed_values sudoku blocks) shuffled).
  destruct (place_fold blocks result L Hnd Hin) as (P0 & P1 & P2 & P3 & P4 & P5).
  cbv zeta. split_and!; try done.
  intros Hlen Hperm Hsame c Hc Hz.
  assert (Hvs : nd_get result <$> blocks = nd_get sudoku <$> blocks).
  { apply list_fmap_ext. intros i c' Hc'. apply Hsame.
    by apply list_elem_of_lookup_2 in Hc'. }
  pose proof (fill_values_Forall2 (nd_get result <$> blocks) L) as HF.
  rewrite <- P5 in HF.
  assert (Hen : (length (filter (λ v, v = 0%Z) (nd_get result <$> blocks))
                 ≤ length L)%nat).
  { rewrite Hvs. apply candidates_enough; [by rewrite length_fmap|done]. }
  specialize (HF Hen).
  apply list_elem_of_lookup in Hc as [i Hi].
  rewrite Forall2_lookup in HF. specialize (HF i).
  rewrite !list_lookup_fmap, Hi in HF. cbn in HF.
  inversion HF as [v y [[Hv _]|[_ Hy]]|]; subst.
  - congruence.
  - apply list_elem_of_filter in Hy as [_ Hy]. by rewrite <- Hperm.
Qed.

Lemma random_matrix_fold_any (sudoku : ndarray) (shuffles : nat → list Z)
    (kbs : list (nat * list cell)) (result : ndarray) :
  NoDup (concat kbs.*2) →
  Forall (in_bounds result) (concat kbs.*2) →
  let result' := foldl (λ result kb, fill_block sudoku result kb.2 (shuffles kb.1))
                       result kbs in
  (∀ c, in_bounds result' c ↔ in_bounds result c) ∧
  length result' = length result ∧
  (∀ i, length (result' !!! i) = length (result !!! i)) ∧
  (∀ c, c ∉ concat kbs.*2 → nd_get result' c = nd_get result c) ∧
  (∀ c, nd_get result c ≠ 0 → nd_get result' c = nd_get result c) ∧
  (shuffles_ok shuffles →
   Forall (λ block, length block = 9%nat) kbs.*2 →
   (∀ c, c ∈ concat kbs.*2 → nd_get result c = nd_get sudoku c) →
   ∀ c, c ∈ concat kbs.*2 → nd_get result c = 0 → nd_get result' c ∈ digits).
Proof.
  revert result. induction kbs as [|[k b] kbs IH]; intros result Hnd Hin.
  - simpl. split_and!; try done. intros _ _ _ c Hc. by apply elem_of_nil in Hc.
  - rewrite fmap_cons in *. cbn [snd concat] in *.
    apply NoDup_app in Hnd as (Hndb & Hdisj & Hndr).
    apply Forall_app in Hin as [Hinb Hin].
    cbn [foldl fst snd].
    destruct (fill_block_any sudoku result b (shuffles k) Hndb Hinb)
      as (B0 & B1 & B2 & B3 & B4 & B5).
    set (r1 := fill_block sudoku result b (shuffles k)) in *.
    destruct (IH r1 Hndr) as (I0 & I1 & I2 & I3 & I4 & I5).
    { eapply Forall_impl; [exact Hin|]. intros c Hc. by apply B0. }
    cbv zeta. split_and!.
    + intros c. by rewrite I0.
    + by rewrite I1.
    + intros i. by rewrite I2.
    + intros c Hc. apply not_elem_of_app in Hc as [Hc1 Hc2].
      rewrite I3 by done. by apply B3.
    + intros c Hc. rewrite I4; [by apply B4|]. by rewrite B4.
    + intros Hsh Hlen Hsame c Hc Hz.
      apply Forall_cons in Hlen as [Hlenb Hlen].
      apply elem_of_app in Hc as [Hc|Hc].
      * rewrite I3 by (by apply Hdisj).
        apply B5; try done. intros c' Hc'. apply Hsame, elem_of_app. by left.
      * apply I5; try done.
        -- intros c' Hc'. rewrite B3; [apply Hsame, elem_of_app; by right|].
           intros Hb. by apply (Hdisj c').
        -- rewrite B3; [done|]. intros Hb. by apply (Hdisj c).
Qed.

(** What [random_matrix] does to any array of shape (9, 9). *)
Lemma random_matrix_any (p : ndarray) (shuffles : nat → list Z) :
  shape9 p →
  let result := random_matrix blocks_index shuffles p in
  shape9 result ∧
  (∀ c, nd_get p c ≠ 0 → nd_get result c = nd_get p c) ∧
  (shuffles_ok shuffles →
   ∀ c, c ∈ all_cells → nd_get p c = 0 → nd_get result c ∈ digits).
Proof.
  intros Hshape. unfold random_matrix.
  destruct (random_matrix_fold_any p shuffles
              (zip (seq 0 (length blocks_index)) blocks_index) p)
    as (R0 & R1 & R2 & R3 & R4 & R5); rewrite ?blocks_index_enumerate.
  - apply blocks_index_NoDup.
  - apply Forall_forall. intros c Hc. apply shape9_in_bounds; [done|].
    by apply blocks_index_cover.
  - rewrite blocks_index_enumerate in R5.
    set (result := foldl _ _ _) in *. cbv zeta. split_and!.
    + destruct Hshape as [Hl Hr]. split; [by rewrite R1|].
      apply Forall_forall. intros r Hin.
      apply list_elem_of_lookup in Hin as [i Hi].
      pose proof (lookup_lt_Some _ _ _ Hi) as Hlt. rewrite R1 in Hlt.
      apply list_lookup_total_correct in Hi. subst r. rewrite R2.
      rewrite Forall_forall in Hr. apply Hr.
      apply list_elem_of_lookup. exists i. by apply list_lookup_lookup_total_lt.
    + exact R4.
    + intros Hsh c Hc Hz. apply R5; try done.
      * apply blocks_index_rows.
      * by apply blocks_index_cover.
Qed.

(** X1. [random_matrix] fills every array of shape (9, 9), also one that is
    not a well-formed puzzle (a digit twice among the clues of a block, an
    entry outside 0..9): the result has shape (9, 9) and no empty cell, every
    non-zero entry of the input is kept, and every empty cell receives a
    value from 1 to 9.  The candidates of a block never run out before its
    empty cells do, so the guard [len(L) != 0] never leaves a zero. *)
Theorem random_matrix_fills_any_grid (p : ndarray) (shuffles : nat → list Z) :
  shape9 p → shuffles_ok shuffles →
  let result := random_matrix blocks_index shuffles p in
  shape9 result ∧
  fully_filled result ∧
  (∀ c, c ∈ all_cells → nd_get p c ≠ 0 → nd_get result c = nd_get p c) ∧
  (∀ c, c ∈ all_cells → nd_get p c = 0 → 1 ≤ nd_get result c ≤ 9).
Proof.
  intros Hshape Hsh. destruct (random_matrix_any p shuffles Hshape) as (H1 & H2 & H3).
  cbv zeta. split_and!.
  - exact H1.
  - intros c Hc. destruct (decide (nd_get p c = 0)) as [Hz|Hnz].
    + pose proof (H3 Hsh c Hc Hz) as Hd. apply digits_spec in Hd. lia.
    + by rewrite H2.
  - intros c _ Hnz. by apply H2.
  - intros c Hc Hz. apply digits_spec. by apply H3.
Qed.

Lemma random_matrix_fills_any_grid_witness :
  ¬ well_formed crowded ∧
  fully_filled (random_matrix blocks_index example_shuffles crowded).
Proof.
  split.
  - intros (_ & Hrange & _).
    assert (Hc : (0, 1)%nat ∈ all_cells) by (apply all_cells_spec; simpl; lia).
    specialize (Hrange _ Hc). vm_compute in Hrange. destruct Hrange as [_ Hle].
    by apply Hle.
  - apply (random_matrix_fills_any_grid crowded example_shuffles).
    + split; [reflexivity|]. apply (bool_decide_unpack _). vm_compute. exact I.
    + apply example_shuffles_ok.
Defined.

(** X2. [random_matrix] changes nothing in an array without empty cell, and
    it is idempotent: applied to its own result, with any shuffles at all, it
    returns that result. *)
Theorem random_matrix_idempotent (p : ndarray) (shuffles shuffles' : nat → list Z) :
  shape9 p → shuffles_ok shuffles →
  (fully_filled p → random_matrix blocks_index shuffles' p = p) ∧
  random_matrix blocks_index shuffles'
    (random_matrix blocks_index shuffles p) =
  random_matrix blocks_index shuffles p.
Proof.
  intros Hshape Hsh.
  assert (Hfix : ∀ q, shape9 q → (∀ c, c ∈ all_cells → nd_get q c ≠ 0) →
                      random_matrix blocks_index shuffles' q = q).
  { intros q Hq Hnz. destruct (random_matrix_any q shuffles' Hq) as (H1 & H2 & _).
    apply nd_ext; [exact H1|exact Hq|]. intros c Hc. by apply H2, Hnz. }
  split; [by apply Hfix|].
  destruct (random_matrix_any p shuffles Hshape) as (H1 & H2 & H3).
  apply Hfix; [exact H1|]. intros c Hc.
  destruct (decide (nd_get p c = 0)) as [Hz|Hnz].
  - pose proof (H3 Hsh c Hc Hz) as Hd. apply digits_spec in Hd. lia.
  - by rewrite H2.
Qed.

Lemma random_matrix_idempotent_witness :
  random_matrix blocks_index two_empty_shuffles
    (random_matrix blocks_index example_shuffles example_puzzle) =
  random_matrix blocks_index example_shuffles example_puzzle.
Proof.
  apply (random_matrix_idempotent example_puzzle example_shuffles
           two_empty_shuffles).
  - apply example_puzzle_well_formed.
  - apply example_shuffles_ok.
Defined.

(** ** A move undone *)

Lemma swap_cells_involutive (g : ndarray) (c1 c2 : cell) :
  shape9 g → c1 ∈ all_cells → c2 ∈ all_cells → c1 ≠ c2 →
  swap_cells (swap_cells g c1 c2) c1 c2 = g.
Proof.
  intros Hshape H1 H2 Hne.
  pose proof (shape9_swap_cells g c1 c2 Hshape) as Hs1.
  apply nd_ext; [by apply shape9_swap_cells|exact Hshape|].
  intros c Hc. destruct (decide (c = c1)) as [->|Hc1].
  - rewrite swap_cells_1 by (try apply shape9_in_bounds; done).
    apply swap_cells_2. by apply shape9_in_bounds.
  - destruct (decide (c = c2)) as [->|Hc2].
    + rewrite swap_cells_2 by (by apply shape9_in_bounds).
      apply swap_cells_1; [by apply shape9_in_bounds|done].
    + by rewrite !swap_cells_other.
Qed.

Lemma neighbor_grid_involutive (self : Solver) (d : draw) (v : Z) :
  index self = blocks_index → shape9 (grid self) → draw_ok self d →
  neighbor_grid (set_grid self (neighbor_grid self d) v) d = grid self.
Proof.
  intros Hidx Hshape Hd. unfold neighbor_grid at 1.
  change (cells_available (set_grid self (neighbor_grid self d) v) (randint d))
    with (cells_available self (randint d)).
  rewrite grid_set_grid. unfold neighbor_grid.
  case_decide as Hlen; [reflexivity|].
  destruct (sample_cells self d Hidx Hd ltac:(lia)) as (Hne & H1 & H2 & _ & _).
  apply swap_cells_involutive; try done.
  - by apply (block_cells (randint d)).
  - by apply (block_cells (randint d)).
Qed.

(** X3. A move is its own inverse: when [neighbor_sudoku] returned [g] and
    the object took [g] as its grid, the same random outcomes make
    [neighbor_sudoku] return the grid it started from. *)
Theorem neighbor_sudoku_undone (self : Solver) (d : draw) (g : ndarray) :
  index self = blocks_index → shape9 (grid self) → draw_ok self d →
  neighbor_sudoku self d = Return g →
  neighbor_sudoku (set_grid self g (compute_error g)) d = Return (grid self).
Proof.
  intros Hidx Hshape Hd. rewrite !neighbor_sudoku_returns.
  intros Hg. injection Hg as <-. f_equal.
  by apply neighbor_grid_involutive.
Qed.

Lemma neighbor_sudoku_undone_witness :
  index example_solver = blocks_index ∧ shape9 (grid example_solver) ∧
  draw_ok example_solver example_draw ∧
  ∃ g, neighbor_sudoku example_solver example_draw = Return g ∧
       g ≠ grid example_solver ∧
       neighbor_sudoku (set_grid example_solver g (compute_error g)) example_draw =
         Return (grid example_solver).
Proof.
  split_and!; [apply example_solver_index | apply example_solver_shape
              | apply example_draw_ok |].
  exists (neighbor_grid example_solver example_draw). split_and!.
  - apply neighbor_sudoku_returns.
  - apply example_move_changes.
  - apply (neighbor_sudoku_undone example_solver example_draw _
             example_solver_index example_solver_shape example_draw_ok).
    apply neighbor_sudoku_returns.
Defined.

(** ** The score as a count *)

Lemma sum_Z_bump {A} (f g : A → Z) (l : list A) (i : A) (a : Z) :
  NoDup l → i ∈ l → (∀ k, k ∈ l → k ≠ i → g k = f k) → g i = f i + a →
  sum_Z (g <$> l) = sum_Z (f <$> l) + a.
Proof.
  intros Hnd Hin Hag Hi.
  assert (Hrest : ∀ l', (∀ c, c ∈ l' → g c = f c) →
                        sum_Z (g <$> l') = sum_Z (f <$> l')).
  { induction l' as [|x l' IH]; intros Hl; [reflexivity|].
    rewrite !fmap_cons. unfold sum_Z. cbn [foldr]. fold (sum_Z (g <$> l')).
    fold (sum_Z (f <$> l')).
    rewrite IH by (intros c Hc; apply Hl; by right).
    rewrite (Hl x) by left. reflexivity. }
  induction Hnd as [|x l Hx Hnd IH]; [by apply elem_of_nil in Hin|].
  rewrite !fmap_cons. unfold sum_Z. cbn [foldr]. fold (sum_Z (g <$> l)).
  fold (sum_Z (f <$> l)).
  apply elem_of_cons in Hin as [->|Hin].
  - rewrite (Hrest l); [lia|]. intros c Hc. apply Hag; [by right|].
    intros ->. done.
  - rewrite (Hag x); [|by left|by intros ->].
    rewrite IH; [lia|done|]. intros c Hc Hne. apply Hag; [by right|done].
Qed.

Lemma repeats_snoc (l : list Z) (v : Z) :
  repeats (l ++ [v]) = repeats l + Z.b2z (bool_decide (v ∈ l)).
Proof.
  unfold repeats. rewrite length_app, list_to_set_app_L. cbn [length].
  case_bool_decide as Hv; cbn [Z.b2z].
  - replace (list_to_set l ∪ list_to_set [v]) with (list_to_set l : gset Z).
    + lia.
    + apply set_eq. intros x. rewrite elem_of_union, !elem_of_list_to_set.
      rewrite list_elem_of_singleton. split; [tauto|]. intros [?| ->]; done.
  - rewrite size_union.
    + change (list_to_set [v] : gset Z) with ({[v]} ∪ ∅ : gset Z).
      rewrite union_empty_r_L, size_singleton. lia.
    + intros x. rewrite !elem_of_list_to_set, list_elem_of_singleton.
      intros Hx ->. done.
Qed.

Lemma repeats_nonneg (l : list Z) : 0 ≤ repeats l.
Proof.
  induction l as [|v l IH] using rev_ind; [reflexivity|].
  rewrite repeats_snoc. destruct (bool_decide _); simpl; lia.
Qed.

Lemma repeats_bound (l : list Z) :
  l ≠ [] → repeats l ≤ Z.of_nat (length l) - 1.
Proof.
  intros Hl. unfold repeats.
  assert (Hs : size (list_to_set l : gset Z) ≠ 0%nat).
  { destruct l as [|v l]; [done|]. apply size_non_empty_iff.
    intros He. apply (not_elem_of_empty (C := gset Z) v).
    rewrite <- He. apply elem_of_list_to_set. left. }
  lia.
Qed.

(** The count held by the scan after the cells [visited]. *)
Lemma scan_count (m : ndarray) (visited : list cell) :
  Forall (λ c : cell, (c.1 < 9 ∧ c.2 < 9)%nat) visited →
  (foldl (scan m) (0, replicate 9 ∅, replicate 9 ∅) visited).1.1 =
  sum_Z ((λ k, repeats (seen_in_row m visited k)) <$> seq 0 9) +
  sum_Z ((λ k, repeats (seen_in_column m visited k)) <$> seq 0 9).
Proof.
  induction visited as [|c visited IH] using rev_ind; intros Hall.
  - reflexivity.
  - apply Forall_app in Hall as [Hall Hc]. apply Forall_singleton in Hc as [Hc1 Hc2].
    specialize (IH Hall). pose proof (scan_inv_all m visited Hall) as Hinv.
    rewrite foldl_snoc.
    destruct (foldl (scan m) _ visited) as [[n rows] cols].
    destruct Hinv as [_ _ Hr Hc _ _]. cbn [fst snd] in *.
    destruct c as [i j]. cbn [fst snd] in *.
    unfold scan, scan_cell. cbn [fst snd].
    set (val := nd_get m (i, j)).
    rewrite (sum_Z_bump (λ k, repeats (seen_in_row m visited k))
               (λ k, repeats (seen_in_row m (visited ++ [(i, j)]) k))
               (seq 0 9) i (Z.b2z (bool_decide (val ∈ rows !!! i)))).
    + rewrite (sum_Z_bump (λ k, repeats (seen_in_column m visited k))
               (λ k, repeats (seen_in_column m (visited ++ [(i, j)]) k))
               (seq 0 9) j (Z.b2z (bool_decide (val ∈ cols !!! j)))).
      * lia.
      * apply NoDup_seq.
      * apply elem_of_seq. lia.
      * intros k _ Hk. rewrite seen_in_column_snoc. cbn [snd].
        rewrite decide_False by done. by rewrite app_nil_r.
      * rewrite seen_in_column_snoc. cbn [snd]. rewrite decide_True by done.
        fold val. rewrite repeats_snoc. do 2 f_equal.
        apply bool_decide_ext. symmetry. by apply Hc.
    + apply NoDup_seq.
    + apply elem_of_seq. lia.
    + intros k _ Hk. rewrite seen_in_row_snoc. cbn [fst].
      rewrite decide_False by done. by rewrite app_nil_r.
    + rewrite seen_in_row_snoc. cbn [fst]. rewrite decide_True by done.
      fold val. rewrite repeats_snoc. do 2 f_equal.
      apply bool_decide_ext. symmetry. by apply Hr.
Qed.

Lemma sum_Z_ext_seq (f g : nat → Z) (n : nat) :
  (∀ k, (k < n)%nat → f k = g k) → sum_Z (f <$> seq 0 n) = sum_Z (g <$> seq 0 n).
Proof.
  intros Hfg. f_equal. apply list_fmap_ext. intros i k Hk.
  apply Hfg. apply lookup_seq in Hk. lia.
Qed.

Lemma sum_Z_bounds (f : nat → Z) (n : nat) (lo hi : Z) :
  (∀ k, (k < n)%nat → lo ≤ f k ≤ hi) →
  Z.of_nat n * lo ≤ sum_Z (f <$> seq 0 n) ≤ Z.of_nat n * hi.
Proof.
  intros Hf. induction n as [|n IH]; [simpl; lia|].
  rewrite seq_S, fmap_app. cbn [fmap list_fmap plus].
  assert (Happ : ∀ l x, sum_Z (l ++ [x]) = sum_Z l + x).
  { clear. induction l as [|y l IH]; intros x; unfold sum_Z in *; cbn [foldr app];
      [lia|]. rewrite IH. lia. }
  rewrite Happ. specialize (IH (λ k Hk, Hf k ltac:(lia))).
  pose proof (Hf n ltac:(lia)). lia.
Qed.

Lemma compute_error_repeats (m : ndarray) :
  compute_error m =
    sum_Z ((λ k, repeats (row m k)) <$> seq 0 9) +
    sum_Z ((λ k, repeats (column m k)) <$> seq 0 9).
Proof.
  rewrite compute_error_scan, scan_count.
  - reflexivity.
  - apply Forall_forall. intros c Hc. by apply all_cells_spec.
Qed.

(** X4. The score of a (9, 9) array is a count: for every row and every
    column, the number of entries minus the number of distinct values, all
    added up.  It lies between 0 and 144. *)
Theorem compute_error_count (m : ndarray) :
  shape9 m →
  compute_error m =
    sum_Z ((λ k, repeats (row m k)) <$> seq 0 9) +
    sum_Z ((λ k, repeats (column m k)) <$> seq 0 9) ∧
  0 ≤ compute_error m ≤ 144.
Proof.
  intros _. pose proof (compute_error_repeats m) as Hcount.
  split; [exact Hcount|]. rewrite Hcount.
  pose proof (sum_Z_bounds (λ k, repeats (row m k)) 9 0 8) as Hr.
  pose proof (sum_Z_bounds (λ k, repeats (column m k)) 9 0 8) as Hc.
  assert (H1 : ∀ k, (k < 9)%nat → 0 ≤ repeats (row m k) ≤ 8).
  { intros k _. split; [apply repeats_nonneg|].
    apply (repeats_bound (row m k)). discriminate. }
  assert (H2 : ∀ k, (k < 9)%nat → 0 ≤ repeats (column m k) ≤ 8).
  { intros k _. split; [apply repeats_nonneg|].
    apply (repeats_bound (column m k)). discriminate. }
  specialize (Hr H1). specialize (Hc H2). lia.
Qed.

Lemma compute_error_count_witness :
  0 ≤ compute_error (grid example_solver) ≤ 144.
Proof.
  exact (proj2 (compute_error_count (grid example_solver) example_solver_shape)).
Defined.

Lemma repeats_missing (l : list Z) :
  length l = 9%nat → (∀ x, x ∈ l → x ∈ digits) → repeats l = missing l.
Proof.
  intros Hlen Hsub. unfold repeats, missing. rewrite Hlen.
  pose proof (filter_app_complement (λ d, d ∈ l) digits) as Hperm.
  apply Permutation_length in Hperm. rewrite length_app in Hperm.
  change (length digits) with 9%nat in Hperm.
  assert (Hsize : size (list_to_set l : gset Z) =
                  length (filter (λ d, d ∈ l) digits)).
  { rewrite <- (size_list_to_set (C := gset Z)).
    - f_equal. apply set_eq. intros x.
      rewrite !elem_of_list_to_set, list_elem_of_filter. split; [auto|tauto].
    - apply NoDup_filter, digits_NoDup. }
  rewrite Hsize. lia.
Qed.

(** X5. On a (9, 9) array whose entries are digits from 1 to 9, the score is
    what the docstring says: the number of digits missing from a row, summed
    over the rows, plus the number of digits missing from a column, summed
    over the columns. *)
Theorem compute_error_missing (m : ndarray) :
  shape9 m → (∀ c, c ∈ all_cells → 1 ≤ nd_get m c ≤ 9) →
  compute_error m =
    sum_Z ((λ k, missing (row m k)) <$> seq 0 9) +
    sum_Z ((λ k, missing (column m k)) <$> seq 0 9).
Proof.
  intros _ Hdig. rewrite (compute_error_repeats m).
  f_equal; apply sum_Z_ext_seq; intros k Hk; apply repeats_missing;
    try reflexivity.
  - intros x Hx. apply list_elem_of_fmap in Hx as (j & -> & Hj).
    apply elem_of_seq in Hj. apply digits_spec, Hdig, all_cells_spec.
    cbn [fst snd]. lia.
  - intros x Hx. apply list_elem_of_fmap in Hx as (i & -> & Hi).
    apply elem_of_seq in Hi. apply digits_spec, Hdig, all_cells_spec.
    cbn [fst snd]. lia.
Qed.

Lemma compute_error_missing_witness :
  compute_error (grid example_solver) =
    sum_Z ((λ k, missing (row (grid example_solver) k)) <$> seq 0 9) +
    sum_Z ((λ k, missing (column (grid example_solver) k)) <$> seq 0 9).
Proof.
  apply (compute_error_missing (grid example_solver) example_solver_shape).
  apply Forall_forall. apply (bool_decide_unpack _). vm_compute. exact I.
Defined.

(** ** How far one move changes the score *)

Lemma repeats_Permutation (l l' : list Z) : l ≡ₚ l' → repeats l = repeats l'.
Proof.
  intros Hp. unfold repeats.
  rewrite (Permutation_length Hp), (list_to_set_perm_L (C := gset Z) _ _ Hp).
  reflexivity.
Qed.

(** Two assignments that differ on one cell, read along duplicate-free
    cells. *)
Lemma repeats_one_cell (f g : cell → Z) (c : cell) (l : list cell) :
  NoDup l → (∀ c', c' ≠ c → f c' = g c') →
  -1 ≤ repeats (f <$> l) - repeats (g <$> l) ≤ 1.
Proof.
  intros Hnd Hfg. destruct (decide (c ∈ l)) as [Hc|Hc].
  - apply elem_of_Permutation in Hc as [l' Hl]. rewrite Hl in Hnd.
    apply NoDup_cons in Hnd as [Hc _].
    assert (Hsame : f <$> l' = g <$> l').
    { apply list_fmap_ext. intros i c' Hc'. apply Hfg. intros ->.
      apply Hc. by apply list_elem_of_lookup_2 in Hc'. }
    rewrite (repeats_Permutation (f <$> l) ((f <$> l') ++ [f c])).
    + rewrite (repeats_Permutation (g <$> l) ((g <$> l') ++ [g c])).
      * rewrite !repeats_snoc, Hsame.
        destruct (bool_decide _), (bool_decide _); simpl; lia.
      * rewrite Hl, fmap_cons. apply Permutation_cons_append.
    + rewrite Hl, fmap_cons. apply Permutation_cons_append.
  - rewrite (list_fmap_ext f g l); [lia|].
    intros i c' Hc'. apply Hfg. intros ->.
    apply Hc. by apply list_elem_of_lookup_2 in Hc'.
Qed.

Lemma row_cells (m : ndarray) (k : nat) :
  row m k = nd_get m <$> ((λ j, (k, j)) <$> range 0 9).
Proof. reflexivity. Qed.

Lemma column_cells (m : ndarray) (k : nat) :
  column m k = nd_get m <$> ((λ i, (i, k)) <$> range 0 9).
Proof. reflexivity. Qed.

Lemma sum_Z_one_term (f g : nat → Z) (i : nat) (lo hi : Z) :
  lo ≤ 0 ≤ hi →
  (∀ k, k ≠ i → g k = f k) → lo ≤ g i - f i ≤ hi →
  lo ≤ sum_Z (g <$> seq 0 9) - sum_Z (f <$> seq 0 9) ≤ hi.
Proof.
  intros Hz Hfg Hi. destruct (decide (i < 9)%nat) as [Hlt|Hge].
  - rewrite (sum_Z_bump f g (seq 0 9) i (g i - f i)).
    + lia.
    + apply NoDup_seq.
    + apply elem_of_seq. lia.
    + intros k _. apply Hfg.
    + lia.
  - rewrite (sum_Z_ext_seq g f); [lia|]. intros k Hk. apply Hfg. lia.
Qed.

(** Writing one entry changes the score by at most 2. *)
Lemma compute_error_nd_set (m : ndarray) (c : cell) (v : Z) :
  -2 ≤ compute_error (nd_set m c v) - compute_error m ≤ 2.
Proof.
  rewrite (compute_error_repeats (nd_set m c v)), (compute_error_repeats m).
  assert (Hother : ∀ c', c' ≠ c → nd_get (nd_set m c v) c' = nd_get m c').
  { intros c' Hne. apply nd_get_set_ne. congruence. }
  pose proof (sum_Z_one_term (λ k, repeats (row m k))
                (λ k, repeats (row (nd_set m c v) k)) c.1 (-1) 1) as Hr.
  pose proof (sum_Z_one_term (λ k, repeats (column m k))
                (λ k, repeats (column (nd_set m c v) k)) c.2 (-1) 1) as Hc.
  cbv beta in Hr, Hc.
  assert (Hrows : -1 ≤ sum_Z ((λ k, repeats (row (nd_set m c v) k)) <$> seq 0 9) -
                       sum_Z ((λ k, repeats (row m k)) <$> seq 0 9) ≤ 1).
  { apply Hr; [lia| |].
    - intros k Hk. rewrite !row_cells. f_equal. apply list_fmap_ext.
      intros i c' Hc'. apply Hother. intros ->.
      apply list_elem_of_lookup_2, list_elem_of_fmap in Hc' as (j & -> & _).
      by apply Hk.
    - rewrite !row_cells. apply (repeats_one_cell _ _ c); [|exact Hother].
      apply NoDup_fmap_2; [|apply NoDup_seq]. intros j j' Heq. congruence. }
  assert (Hcols : -1 ≤ sum_Z ((λ k, repeats (column (nd_set m c v) k)) <$> seq 0 9) -
                       sum_Z ((λ k, repeats (column m k)) <$> seq 0 9) ≤ 1).
  { apply Hc; [lia| |].
    - intros k Hk. rewrite !column_cells. f_equal. apply list_fmap_ext.
      intros i c' Hc'. apply Hother. intros ->.
      apply list_elem_of_lookup_2, list_elem_of_fmap in Hc' as (j & -> & _).
      by apply Hk.
    - rewrite !column_cells. apply (repeats_one_cell _ _ c); [|exact Hother].
      apply NoDup_fmap_2; [|apply NoDup_seq]. intros j j' Heq. congruence. }
  lia.
Qed.

(** X6. A move changes the score by at most 4: the grid [neighbor_sudoku]
    returns scores within 4 of the grid it was generated from. *)
Theorem neighbor_score_change (self : Solver) (d : draw) :
  index self = blocks_index → shape9 (grid self) → draw_ok self d →
  ∃ g, neighbor_sudoku self d = Return g ∧
       -4 ≤ compute_error g - compute_error (grid self) ≤ 4.
Proof.
  intros _ _ _. exists (neighbor_grid self d). split; [apply neighbor_sudoku_returns|].
  unfold neighbor_grid. case_decide; [lia|]. unfold swap_cells.
  set (c1 := (sample d).1). set (c2 := (sample d).2).
  pose proof (compute_error_nd_set (grid self) c1 (nd_get (grid self) c2)) as H1.
  pose proof (compute_error_nd_set (nd_set (grid self) c1 (nd_get (grid self) c2))
                c2 (nd_get (grid self) c1)) as H2.
  lia.
Qed.

Lemma neighbor_score_change_witness :
  ∃ g, neighbor_sudoku example_solver example_draw = Return g ∧
       -4 ≤ compute_error g - compute_error (grid example_solver) ≤ 4.
Proof.
  exact (neighbor_score_change example_solver example_draw
           example_solver_index example_solver_shape example_draw_ok).
Defined.

(** ** Puzzles that leave no choice *)

Lemma sum_Z_Permutation (l l' : list Z) : l ≡ₚ l' → sum_Z l = sum_Z l'.
Proof.
  unfold sum_Z. induction 1 as [|x l l' _ IH|x y l|l l' l'' _ IH1 _ IH2];
    cbn [foldr]; lia.
Qed.

Lemma agree_but_one {A} (f h : A → Z) (l : list A) (c0 : A) :
  NoDup l → c0 ∈ l → (∀ c, c ∈ l → c ≠ c0 → f c = h c) →
  sum_Z (f <$> l) = sum_Z (h <$> l) → f c0 = h c0.
Proof.
  intros Hnd Hin Hag Hsum.
  pose proof (sum_Z_bump h f l c0 (f c0 - h c0) Hnd Hin Hag ltac:(lia)). lia.
Qed.

Lemma filter_two {A} (P : A → Prop) `{!∀ x, Decision (P x)} (l : list A) (x y : A) :
  x ∈ l → y ∈ l → x ≠ y → P x → P y → (2 ≤ length (filter P l))%nat.
Proof.
  intros Hx Hy Hne Px Py.
  assert (Hsub : [x; y] ⊆+ filter P l).
  { apply NoDup_submseteq.
    - apply NoDup_cons. split; [by rewrite list_elem_of_singleton|].
      apply NoDup_singleton.
    - intros z Hz. apply list_elem_of_filter.
      apply elem_of_cons in Hz as [->|Hz]; [done|].
      apply list_elem_of_singleton in Hz as ->. done. }
  apply submseteq_length in Hsub. exact Hsub.
Qed.

Lemma filter_ext_elem {A} (P Q : A → Prop) `{!∀ x, Decision (P x)}
    `{!∀ x, Decision (Q x)} (l : list A) :
  (∀ x, x ∈ l → P x ↔ Q x) → filter P l = filter Q l.
Proof.
  induction l as [|x l IH]; intros Hl; [reflexivity|].
  rewrite !filter_cons.
  rewrite IH by (intros y Hy; apply Hl; by right).
  pose proof (Hl x ltac:(left)) as Hx.
  destruct (decide (P x)), (decide (Q x)); tauto.
Qed.

(** The cells a move may exchange are the empty cells of the puzzle. *)
Lemma cells_available_empty (p : ndarray) (self : Solver) (k : nat) :
  shape9 p → index self = blocks_index →
  pre_filled_indexes self = argwhere_nonzero p →
  cells_available self k = empty_cells p k.
Proof.
  intros Hshape Hidx Hpre. unfold cells_available, empty_cells.
  rewrite Hidx, Hpre. apply filter_ext_elem. intros c Hc.
  rewrite argwhere_nonzero_spec by done.
  apply block_cells in Hc. destruct (decide (nd_get p c = 0)); tauto.
Qed.

Lemma empty_cells_outside (p : ndarray) (k : nat) :
  (9 ≤ k)%nat → empty_cells p k = [].
Proof.
  intros Hk. unfold empty_cells.
  rewrite list_lookup_total_alt, lookup_ge_None_2; [reflexivity|].
  rewrite blocks_index_length. lia.
Qed.

Lemma emptied_well_formed (p g : ndarray) :
  shape9 p → valid_solution g → emptied p g → well_formed p.
Proof.
  intros Hshape Hg Hpg. split_and!; [done| |].
  - intros c Hc. destruct (Hpg c Hc) as [-> | ->]; [|lia].
    assert (Hd : nd_get g c ∈ digits).
    { apply block_valid_digit; [|done]. intros k Hk. apply (Hg k Hk). }
    apply digits_spec in Hd. lia.
  - intros k Hk. destruct (Hg k Hk) as (_ & _ & Hb).
    assert (Hnd : NoDup (block_values g k)).
    { rewrite Hb. apply digits_NoDup. }
    unfold block_values in *.
    assert (Hsub : ∀ c, c ∈ blocks_index !!! k → c ∈ all_cells)
      by (intros c; apply block_cells).
    revert Hnd Hsub. generalize (blocks_index !!! k). intros l.
    induction l as [|c l IH]; intros Hnd Hsub; [apply NoDup_nil_2|].
    rewrite fmap_cons in Hnd. apply NoDup_cons in Hnd as [Hc Hnd].
    rewrite fmap_cons, filter_cons.
    specialize (IH Hnd (λ c' Hc', Hsub c' ltac:(by right))).
    case_decide as Hz; [|exact IH].
    apply NoDup_cons. split; [|exact IH].
    intros Hin. apply list_elem_of_filter in Hin as [_ Hin].
    apply list_elem_of_fmap in Hin as (c' & Heq & Hc').
    destruct (Hpg c (Hsub c ltac:(left))) as [Hpc|Hpc]; [|done].
    destruct (Hpg c' (Hsub c' ltac:(by right))) as [Hpc'|Hpc']; [|congruence].
    apply Hc. apply list_elem_of_fmap. exists c'. split; [congruence|done].
Qed.

(** With at most one empty cell in every block, the initializer has no
    choice: it restores the solution the puzzle was cut from. *)
Lemma random_matrix_restores (p g : ndarray) (shuffles : nat → list Z) :
  shape9 p → shape9 g → valid_solution g → emptied p g →
  (∀ k, (k < 9)%nat → (length (empty_cells p k) ≤ 1)%nat) →
  shuffles_ok shuffles →
  random_matrix blocks_index shuffles p = g.
Proof.
  intros Hp Hshape Hg Hpg Hone Hsh.
  destruct (random_matrix_spec p shuffles (emptied_well_formed p g Hp Hg Hpg) Hsh)
    as (Hr & _ & Hfix & Hblocks).
  revert Hr Hfix Hblocks. generalize (random_matrix blocks_index shuffles p).
  intros r Hr Hfix Hblocks.
  assert (Hkept : ∀ c, c ∈ all_cells → nd_get p c ≠ 0 → nd_get r c = nd_get g c).
  { intros c Hc Hz. rewrite (Hfix c Hc Hz). by destruct (Hpg c Hc). }
  apply nd_ext; [done|done|]. intros c Hc.
  destruct (decide (nd_get p c = 0)) as [Hz|Hz]; [|by apply Hkept].
  destruct (cell_in_block c Hc) as (k & Hk & Hin).
  apply (agree_but_one (nd_get r) (nd_get g) (blocks_index !!! k) c).
  - apply block_NoDup.
  - exact Hin.
  - intros c' Hc' Hne. apply Hkept; [by apply (block_cells k)|].
    intros Hz'. specialize (Hone k Hk).
    pose proof (filter_two (λ c, nd_get p c = 0) (blocks_index !!! k) c c'
                  Hin Hc' (not_eq_sym Hne) Hz Hz') as H2.
    unfold empty_cells in Hone. lia.
  - apply sum_Z_Permutation. fold (block_values r k). fold (block_values g k).
    rewrite (Hblocks k Hk). symmetry. apply (Hg k Hk).
Qed.

(** Where no block has two free cells, no move changes the grid. *)
Lemma walk_state_idle (self : Solver) (draws : nat → draw) (n : nat) :
  (∀ k, (length (cells_available self k) < 2)%nat) →
  grid (walk_state self draws n) = grid self.
Proof.
  intros Hidle. induction n as [|n IH]; [reflexivity|].
  rewrite walk_state_S, grid_set_grid. unfold neighbor_grid.
  destruct (walk_state_static self draws n) as (_ & Hi & Hp).
  assert (Hsame : cells_available (walk_state self draws n) (randint (draws n)) =
                  cells_available self (randint (draws n))).
  { unfold cells_available. rewrite Hi, Hp. reflexivity. }
  rewrite Hsame, decide_True by apply Hidle. exact IH.
Qed.

Lemma valid_solution_score (g : ndarray) :
  valid_solution g → compute_error g = 0.
Proof.
  intros Hg. apply compute_error_zero. intros k Hk.
  destruct (Hg k Hk) as (Hr & Hc & _). rewrite Hr, Hc.
  split; apply digits_NoDup.
Qed.

(** X7. A puzzle cut from a valid solution [g] with at most one empty cell
    in every block (a complete valid grid included) is solved whatever the
    random outcomes are: [random_matrix] puts [g] back, no move of
    [init_temperature] changes it, and the script returns [g] at the first
    test of [solve]. *)
Theorem main_single_gaps (p g : ndarray) (shuffles : nat → list Z)
    (draws : nat → draw) (trials : nat → nat → trial) (fuel : nat) :
  shape9 p → shape9 g → valid_solution g → emptied p g →
  (∀ k, (k < 9)%nat → (length (empty_cells p k) ≤ 1)%nat) →
  shuffles_ok shuffles →
  random_matrix blocks_index shuffles p = g ∧
  main p shuffles draws trials (S fuel) = Some (Return g).
Proof.
  intros Hp Hshape Hg Hpg Hone Hsh.
  pose proof (random_matrix_restores p g shuffles Hp Hshape Hg Hpg Hone Hsh) as Hr.
  split; [exact Hr|].
  assert (Hgrid : grid (walk_state (init_assign p shuffles) draws 10) = g).
  { rewrite walk_state_idle.
    - unfold init_assign. cbn [grid]. exact Hr.
    - intros k. rewrite (cells_available_empty p) by done.
      destruct (decide (k < 9)%nat) as [Hk|Hk].
      + specialize (Hone k Hk). lia.
      + rewrite empty_cells_outside by lia. simpl. lia. }
  unfold main.
  rewrite (init_eq p (99 / 100)%R shuffles draws g _ _ Hgrid eq_refl eq_refl).
  generalize (grid_score (walk_state (init_assign p shuffles) draws 10)).
  generalize (population_std (walk_scores (init_assign p shuffles) draws 10)).
  intros t v. unfold solve. cbn [solve_loop]. unfold epoch. cbn [grid].
  rewrite decide_True by (by apply valid_solution_score). reflexivity.
Qed.

Lemma solved_valid : valid_solution solved.
Proof.
  apply block_valid_solution.
  - intros k Hk. do 9 (destruct k as [|k];
      [apply (bool_decide_unpack _); vm_compute; exact I|]). lia.
  - apply compute_error_zero. vm_compute. reflexivity.
Qed.

Lemma main_single_gaps_witness :
  main single_gaps example_shuffles (λ _, example_draw) (λ _ _, neutral_trial) 1 =
  Some (Return solved).
Proof.
  apply (main_single_gaps single_gaps solved example_shuffles).
  - split; [reflexivity|]. apply (bool_decide_unpack _). vm_compute. exact I.
  - apply shape9_solved.
  - apply solved_valid.
  - unfold emptied. apply Forall_forall.
    apply (bool_decide_unpack _). vm_compute. exact I.
  - intros k Hk. do 9 (destruct k as [|k]; [vm_compute; lia|]). lia.
  - apply example_shuffles_ok.
Defined.

(** ** Runs that never return *)






(** ** The bookkeeping of [__init__] *)

Lemma filter_flat_map {A B} (P : B → Prop) `{!∀ x, Decision (P x)}
    (f : A → list B) (l : list A) :
  filter P (flat_map f l) = flat_map (λ x, filter P (f x)) l.
Proof.
  induction l as [|x l IH]; [reflexivity|].
  cbn [flat_map]. rewrite filter_app, IH. reflexivity.
Qed.

Lemma filter_fmap_singletons {A B} (P : B → Prop) `{!∀ x, Decision (P x)}
    (f : A → B) (l : list A) :
  filter P (f <$> l) = flat_map (λ x, if decide (P (f x)) then [f x] else []) l.
Proof.
  induction l as [|x l IH]; [reflexivity|].
  rewrite fmap_cons, filter_cons, IH. cbn [flat_map]. by case_decide.
Qed.

Lemma flat_map_ext_elem {A B} (f g : A → list B) (l : list A) :
  (∀ x, x ∈ l → f x = g x) → flat_map f l = flat_map g l.
Proof.
  induction l as [|x l IH]; intros Hfg; [reflexivity|].
  cbn [flat_map]. rewrite IH by (intros y Hy; apply Hfg; by right).
  rewrite (Hfg x) by left. reflexivity.
Qed.

(** [np.argwhere] lists the non-zero cells in row-major order. *)
Lemma argwhere_nonzero_filter (p : ndarray) :
  shape9 p → argwhere_nonzero p = filter (λ c, nd_get p c ≠ 0) all_cells.
Proof.
  intros [Hlen Hrows]. unfold argwhere_nonzero, all_cells.
  rewrite filter_flat_map, Hlen. apply flat_map_ext_elem. intros i Hi.
  rewrite filter_fmap_singletons.
  assert (Hrow : length (p !!! i) = 9%nat).
  { rewrite Forall_forall in Hrows. apply Hrows.
    apply list_elem_of_lookup_total_2. unfold range in Hi.
    apply elem_of_seq in Hi. lia. }
  rewrite Hrow. reflexivity.
Qed.

Lemma length_filter_fmap {A B} (P : B → Prop) `{!∀ x, Decision (P x)}
    (f : A → B) (l : list A) :
  length (filter P (f <$> l)) = length (filter (λ x, P (f x)) l).
Proof.
  induction l as [|x l IH]; [reflexivity|].
  rewrite fmap_cons, !filter_cons. case_decide; cbn [length]; by rewrite IH.
Qed.

(** The entries of an array of shape (9, 9), row by row. *)
Lemma shape9_concat (p : ndarray) :
  shape9 p → concat p = nd_get p <$> all_cells.
Proof.
  intros [Hlen Hrows].
  do 9 (destruct p as [|? p]; [discriminate Hlen|]).
  destruct p; [clear Hlen|discriminate Hlen].
  repeat match goal with
         | H : Forall _ (_ :: _) |- _ => apply Forall_cons_1 in H as [? H]
         end.
  repeat match goal with
         | H : length ?r = 9%nat |- _ =>
             is_var r;
             do 9 (destruct r as [|? r]; [discriminate H|]);
             destruct r; [clear H|discriminate H]
         end.
  reflexivity.
Qed.

Lemma count_zero_filter (p : ndarray) :
  shape9 p →
  count_zero p = length (filter (λ c, nd_get p c = 0) all_cells).
Proof.
  intros Hp. unfold count_zero. rewrite (shape9_concat p Hp).
  apply length_filter_fmap.
Qed.

Lemma length_filter_concat {A} (P : A → Prop) `{!∀ x, Decision (P x)}
    (ls : list (list A)) :
  Z.of_nat (length (filter P (concat ls))) =
  sum_Z ((λ l, Z.of_nat (length (filter P l))) <$> ls).
Proof.
  induction ls as [|l ls IH]; [reflexivity|].
  cbn [concat]. rewrite filter_app, length_app, fmap_cons.
  unfold sum_Z in *. cbn [foldr]. lia.
Qed.

Lemma all_cells_blocks : concat blocks_index ≡ₚ all_cells.
Proof.
  apply NoDup_Permutation.
  - apply blocks_index_NoDup.
  - apply (bool_decide_unpack _). vm_compute. exact I.
  - apply blocks_index_cover.
Qed.

(** X9. The bookkeeping of [__init__] on a (9, 9) puzzle:
    [pre_filled_indexes] lists the non-zero cells of the puzzle in row-major
    order, each once; [limit], the length of an epoch, is the number of empty
    cells; the two add up to 81; and [limit] is the number of cells that the
    moves can exchange, counted over the 9 blocks. *)
Theorem init_bookkeeping (puzzle : ndarray) (rate : R)
    (shuffles : nat → list Z) (draws : nat → draw) :
  shape9 puzzle →
  ∃ solver,
    init puzzle rate shuffles draws = Return solver ∧
    pre_filled_indexes solver = filter (λ c, nd_get puzzle c ≠ 0) all_cells ∧
    limit solver = length (filter (λ c, nd_get puzzle c = 0) all_cells) ∧
    (limit solver + length (pre_filled_indexes solver) = 81)%nat ∧
    Z.of_nat (limit solver) =
      sum_Z ((λ k, Z.of_nat (length (cells_available solver k))) <$> seq 0 9).
Proof.
  intros Hp.
  rewrite (init_eq puzzle rate shuffles draws _ _ _ eq_refl eq_refl eq_refl).
  generalize (grid (walk_state (init_assign puzzle shuffles) draws 10)).
  generalize (grid_score (walk_state (init_assign puzzle shuffles) draws 10)).
  generalize (population_std (walk_scores (init_assign puzzle shuffles) draws 10)).
  intros t v g. eexists. split; [reflexivity|].
  set (solver := mkSolver _ _ _ _ _ _ _ _).
  assert (Hpre : pre_filled_indexes solver =
                 filter (λ c, nd_get puzzle c ≠ 0) all_cells).
  { unfold solver. cbn [pre_filled_indexes]. by apply argwhere_nonzero_filter. }
  assert (Hlim : limit solver =
                 length (filter (λ c, nd_get puzzle c = 0) all_cells)).
  { unfold solver. cbn [limit]. by apply count_zero_filter. }
  split_and!; [exact Hpre|exact Hlim| |].
  - rewrite Hlim, Hpre.
    pose proof (filter_app_complement (λ c, nd_get puzzle c = 0) all_cells) as Hperm.
    apply Permutation_length in Hperm. rewrite length_app in Hperm.
    change (length all_cells) with 81%nat in Hperm. exact Hperm.
  - rewrite Hlim, <- all_cells_blocks, length_filter_concat.
    change blocks_index with ((λ k, blocks_index !!! k) <$> seq 0 9) at 1.
    rewrite <- list_fmap_compose. apply sum_Z_ext_seq. intros k Hk.
    unfold compose. rewrite (cells_available_empty puzzle solver k Hp eq_refl eq_refl).
    reflexivity.
Qed.

Lemma init_bookkeeping_witness :
  ∃ solver,
    init example_puzzle (99 / 100)%R example_shuffles (λ _, example_draw) =
      Return solver ∧
    limit solver = 51%nat ∧ length (pre_filled_indexes solver) = 30%nat.
Proof.
  destruct (init_bookkeeping example_puzzle (99 / 100)%R example_shuffles
              (λ _, example_draw) (proj1 example_puzzle_well_formed))
    as (solver & Hinit & Hpre & Hlim & _).
  exists solver. split; [exact Hinit|].
  rewrite Hlim, Hpre. split; vm_compute; reflexivity.
Defined.

(** ** The acceptance test *)


(** At temperature 0 the test accepts exactly the moves that lower the
    score. *)
Lemma accepted_zero_temperature (self : Solver) (t : trial) :
  temperature self = 0%R → double_ok (t_double t) →
  accepted self t =
  bool_decide (compute_error (neighbor_grid self (t_draw t)) < grid_score self).
Proof.
  intros HT Hu. unfold accepted, acceptance, true_divide.
  pose proof (np_random_uniform_1_0 _ Hu) as Hd.
  set (ns := compute_error _) in *.
  destruct (Req_dec_T (temperature self) 0) as [_|Hne]; [|done].
  destruct (Rlt_dec 0 (IZR (grid_score self - ns))) as [Hpos|Hnpos].
  - apply lt_IZR in Hpos. rewrite bool_decide_eq_true_2 by lia. reflexivity.
  - rewrite bool_decide_eq_false_2.
    + destruct (Rlt_dec (IZR (grid_score self - ns)) 0) as [Hneg|_];
        [|reflexivity].
      cbn [np_exp float_lt]. destruct (Rlt_dec _ 0) as [Hlt|_]; [lra|reflexivity].
    + intros Hlt. apply Hnpos. apply IZR_lt. lia.
Qed.



(** X11. At temperature 0 the inner loop is a strict descent: an iteration
    takes the neighbor when its score is lower than the current one, and
    leaves the object as it is otherwise (also when the scores are equal). *)
Theorem iteration_zero_temperature (self : Solver) (t : trial) :
  temperature self = 0%R → double_ok (t_double t) →
  iteration self t =
  Return (if decide (compute_error (neighbor_grid self (t_draw t)) < grid_score self)
          then set_grid self (neighbor_grid self (t_draw t))
                 (compute_error (neighbor_grid self (t_draw t)))
          else self).
Proof.
  intros HT Hu. rewrite iteration_returns. unfold iteration_state.
  rewrite accepted_zero_temperature by assumption.
  case_bool_decide as Hlt;
    [rewrite decide_True by exact Hlt|rewrite decide_False by exact Hlt];
    reflexivity.
Qed.

Lemma iteration_zero_temperature_witness :
  iteration two_empty_solver idle_trial = Return two_empty_solver.
Proof.
  rewrite (iteration_zero_temperature two_empty_solver idle_trial).
  - rewrite decide_False; [reflexivity|]. vm_compute. discriminate.
  - reflexivity.
  - unfold double_ok, idle_trial. cbn [t_double]. lra.
Defined.



(** ** The starting temperature and the reheat counter *)

(** X13. The temperature [__init__] computes on a (9, 9) puzzle is never
    negative, and it is 0 exactly when the ten moves of [init_temperature]
    all gave the same score. *)
Theorem init_temperature_zero (puzzle : ndarray) (rate : R)
    (shuffles : nat → list Z) (draws : nat → draw) :
  shape9 puzzle →
  ∃ solver,
    init puzzle rate shuffles draws = Return solver ∧
    (0 <= temperature solver)%R ∧
    (temperature solver = 0%R ↔
     ∀ j k, (j < 10)%nat → (k < 10)%nat →
       compute_error (grid (walk_state (init_assign puzzle shuffles) draws (S j))) =
       compute_error (grid (walk_state (init_assign puzzle shuffles) draws (S k)))).
Proof.
  intros _. rewrite init_returns. cbv zeta.
  pose proof (population_std_nonneg
                (walk_scores (init_assign puzzle shuffles) draws 10)) as Hpos.
  pose proof (population_std_zero
                (walk_scores (init_assign puzzle shuffles) draws 10)) as Hz.
  revert Hpos Hz.
  generalize (population_std (walk_scores (init_assign puzzle shuffles) draws 10)).
  generalize (walk_state (init_assign puzzle shuffles) draws 10).
  intros w t Hpos Hz. eexists. split; [reflexivity|].
  cbn [temperature]. split; [exact Hpos|].
  rewrite Hz. unfold walk_scores. split.
  - intros Heq j k Hj Hk.
    apply Heq; apply list_elem_of_fmap; eexists; (split; [reflexivity|]);
      apply elem_of_seq; lia.
  - intros Heq x y Hx Hy.
    apply list_elem_of_fmap in Hx as (j & -> & Hj).
    apply list_elem_of_fmap in Hy as (k & -> & Hk).
    apply elem_of_seq in Hj, Hk. apply Heq; lia.
Qed.

Lemma init_temperature_zero_witness :
  ∃ solver,
    init two_empty (99 / 100)%R two_empty_shuffles (λ _, idle_draw) =
      Return solver ∧
    temperature solver = 0%R.
Proof.
  destruct (init_temperature_zero two_empty (99 / 100)%R two_empty_shuffles
              (λ _, idle_draw) (proj1 two_empty_well_formed))
    as (solver & Hinit & _ & Hzero).
  exists solver. split; [exact Hinit|].
  rewrite two_empty_init in Hinit. injection Hinit as <-. reflexivity.
Defined.

(** X14. The reheat counter of [solve] stays between 0 and 80 and never
    exceeds the number of epochs run; it counts the epochs in a row that
    ended with a score not lower than the score they started with.  An epoch
    adds 2 to the cooled temperature only when the counter stood at 80 and
    the epoch did not lower the score, and then the counter goes back to 0;
    every other epoch only multiplies the temperature by the cooling rate,
    and sets the counter to 0 when it lowered the score and one higher when
    it did not.  So no reheat comes before the 81st epoch, nor within 81
    epochs of the one before. *)
Theorem reheat_counter (self s : Solver) (trials : nat → nat → trial)
    (n : nat) (r : Z) :
  run_epochs n self 0 trials 0 = Some (s, r) →
  0 ≤ r ≤ 80 ∧ r ≤ Z.of_nat n ∧
  ∀ s' r', epoch s r (trials n) = Next s' r' →
    (temperature s' = (temperature s * cooling_rate s + 2)%R ∧
     r = 80 ∧ r' = 0 ∧ grid_score s ≤ grid_score s') ∨
    (temperature s' = (temperature s * cooling_rate s)%R ∧
     (r' = 0 ∧ grid_score s' < grid_score s ∨
      r' = r + 1 ∧ r < 80 ∧ grid_score s ≤ grid_score s')).
Proof.
  intros Hrun.
  assert (H00 : 0 ≤ 0 ≤ 80) by lia.
  destruct (run_epochs_reheats trials n 0%nat self s 0 r H00 Hrun) as [Hr Hn].
  split_and!; [lia|lia|lia|].
  intros s' r' Hep. exact (epoch_reheats _ _ _ _ _ Hr Hep).
Qed.

Lemma reheat_counter_witness :
  ∃ s r, run_epochs 1 two_empty_solver 0 (λ _ _, idle_trial) 0 = Some (s, r) ∧
         0 ≤ r ≤ 80 ∧ r ≤ 1.
Proof.
  assert (Hrun : run_epochs 1 two_empty_solver 0 (λ _ _, idle_trial) 0 =
                 Some (set_temperature two_empty_solver (0 * (99 / 100))%R, 1)).
  { cbn [run_epochs]. rewrite two_empty_idle_epoch. reflexivity. }
  eexists _, _. split; [exact Hrun|].
  destruct (reheat_counter _ _ _ _ _ Hrun) as (H1 & H2 & _).
  split; [exact H1|exact H2].
Defined.

(** ** The temperature before the first reheat *)

(** X15. No reheat comes in the first 80 epochs, so the temperature cannot
    rise there: for a cooling rate strictly between 0 and 1, after [n]
    epochs, [n] up to 80, the temperature lies between 0 and the temperature
    [solve] started with; it is 0 when that was 0, and when that was
    positive it is positive and, from the first epoch on, strictly lower. *)
Theorem temperature_before_reheat (self s : Solver) (trials : nat → nat → trial)
    (n : nat) (r : Z) :
  (n ≤ 80)%nat →
  (0 <= temperature self)%R → (0 < cooling_rate self < 1)%R →
  run_epochs n self 0 trials 0 = Some (s, r) →
  (0 <= temperature s <= temperature self)%R ∧
  (temperature self = 0%R → temperature s = 0%R) ∧
  ((0 < temperature self)%R → (0 < temperature s)%R) ∧
  ((0 < temperature self)%R → (0 < n)%nat →
   (temperature s < temperature self)%R).
Proof.
  intros Hn HT Hc Hrun.
  assert (H0 : 0 ≤ 0 ∧ 0 + Z.of_nat n ≤ 80) by lia.
  destruct (run_epochs_before_reheat trials n 0%nat self s 0 r
              (proj1 H0) (proj2 H0) HT Hc Hrun) as (_ & H1 & H2 & H3 & H4).
  exact (conj H1 (conj H2 (conj H3 H4))).
Qed.

Lemma temperature_before_reheat_witness :
  ∃ s, run_epochs 1 started_solver 0 (λ _ _, neutral_trial) 0 = Some (s, 1) ∧
       (0 < temperature s < temperature started_solver)%R.
Proof.
  assert (Hone : run_epochs 1 started_solver 0 (λ _ _, neutral_trial) 0 =
                 Some (set_temperature started_solver (1 / 2 * (99 / 100))%R, 1)).
  { cbn [run_epochs]. rewrite started_epoch. reflexivity. }
  eexists. split; [exact Hone|].
  assert (HT : (0 <= temperature started_solver)%R).
  { change (temperature started_solver) with (1 / 2)%R. lra. }
  assert (Hc : (0 < cooling_rate started_solver < 1)%R).
  { change (cooling_rate started_solver) with (99 / 100)%R. lra. }
  assert (Hp : (0 < temperature started_solver)%R).
  { change (temperature started_solver) with (1 / 2)%R. lra. }
  destruct (temperature_before_reheat started_solver _ (λ _ _, neutral_trial)
              1%nat 1 ltac:(lia) HT Hc Hone) as (_ & _ & H3 & H4).
  split; [exact (H3 Hp)|apply (H4 Hp); lia].
Defined.

(** ** Every solution is a possible output *)

Lemma filter_all {A} (P : A → Prop) `{!∀ x, Decision (P x)} (l : list A) :
  Forall P l → filter P l = l.
Proof.
  induction 1 as [|x l Hx _ IH]; [reflexivity|].
  by rewrite filter_cons_True, IH.
Qed.

Lemma filter_none {A} (P : A → Prop) `{!∀ x, Decision (P x)} (l : list A) :
  Forall (λ x, ¬ P x) l → filter P l = [].
Proof.
  induction 1 as [|x l Hx _ IH]; [reflexivity|].
  by rewrite filter_cons_False, IH.
Qed.

Lemma NoDup_fmap_elem {A B} (f : A → B) (l : list A) (x y : A) :
  NoDup (f <$> l) → x ∈ l → y ∈ l → f x = f y → x = y.
Proof.
  intros Hnd Hx Hy Heq.
  apply list_elem_of_lookup in Hx as [i Hi]. apply list_elem_of_lookup in Hy as [j Hj].
  assert (Hij : i = j).
  { apply (NoDup_lookup _ i j (f x) Hnd).
    - by rewrite list_lookup_fmap, Hi.
    - by rewrite list_lookup_fmap, Hj, Heq. }
  subst j. congruence.
Qed.

(** The second loop, given the digits of [s] at the empty cells in order. *)
Lemma fill_values_solution (p s : ndarray) (b : list cell) :
  (∀ c, c ∈ b → nd_get p c = nd_get s c ∨ nd_get p c = 0) →
  fill_values (nd_get p <$> b) (nd_get s <$> filter (λ c, nd_get p c = 0) b) =
  nd_get s <$> b.
Proof.
  induction b as [|c b IH]; intros Hps; [reflexivity|].
  specialize (IH (λ c' Hc', Hps c' ltac:(by right))).
  rewrite !fmap_cons, filter_cons.
  destruct (decide (nd_get p c = 0)) as [Hz|Hnz].
  - rewrite fmap_cons. cbn [fill_values].
    rewrite decide_True by exact Hz. by rewrite IH.
  - assert (Hstep : ∀ L, fill_values (nd_get p c :: (nd_get p <$> b)) L =
                         nd_get p c :: fill_values (nd_get p <$> b) L).
    { intros [|L0 L1]; cbn [fill_values]; [reflexivity|].
      by rewrite decide_False. }
    rewrite Hstep, IH. destruct (Hps c ltac:(left)) as [Heq|Hz]; [|done].
    by rewrite Heq.
Qed.

(** The first loop leaves the digits of [s] at the empty cells. *)
Lemma solution_candidates (p s : ndarray) (b : list cell) :
  (∀ c, c ∈ b → nd_get p c = nd_get s c ∨ nd_get p c = 0) →
  (∀ c, c ∈ b → nd_get s c ≠ 0) →
  NoDup (nd_get s <$> b) →
  filter (λ x, x ∉ fixed_values p b)
    ((nd_get s <$> filter (λ c, nd_get p c = 0) b) ++
     (nd_get s <$> filter (λ c, nd_get p c ≠ 0) b)) =
  nd_get s <$> filter (λ c, nd_get p c = 0) b.
Proof.
  intros Hps Hs Hnd.
  assert (Hkeep : Forall (λ x, x ∉ fixed_values p b)
                    (nd_get s <$> filter (λ c, nd_get p c = 0) b)).
  { apply Forall_fmap, Forall_forall. intros c Hc. cbv beta.
    apply list_elem_of_filter in Hc as [Hz Hc]. intros Hin.
    unfold fixed_values in Hin. apply list_elem_of_filter in Hin as [Hnz Hin].
    apply list_elem_of_fmap in Hin as (c' & Heq & Hc').
    destruct (Hps c' Hc') as [Hs'|Hz']; [|congruence].
    assert (c = c').
    { apply (NoDup_fmap_elem (nd_get s) b); try done. congruence. }
    subst c'. congruence. }
  assert (Hdrop : Forall (λ x, ¬ (x ∉ fixed_values p b))
                    (nd_get s <$> filter (λ c, nd_get p c ≠ 0) b)).
  { apply Forall_fmap, Forall_forall. intros c Hc. cbv beta.
    apply list_elem_of_filter in Hc as [Hnz Hc]. intros Hout. apply Hout.
    unfold fixed_values. apply list_elem_of_filter.
    destruct (Hps c Hc) as [Heq|Hz]; [|done]. split; [congruence|].
    apply list_elem_of_fmap. exists c. split; [congruence|done]. }
  rewrite filter_app, (filter_all _ _ Hkeep), (filter_none _ _ Hdrop).
  apply app_nil_r.
Qed.

Lemma fill_block_exact (sudoku result : ndarray) (blocks : list cell)
    (shuffled : list Z) :
  NoDup blocks → Forall (in_bounds result) blocks →
  (∀ c, c ∈ blocks → nd_get result c = nd_get sudoku c) →
  nd_get (fill_block sudoku result blocks shuffled) <$> blocks =
  fill_values (nd_get sudoku <$> blocks)
    (filter (λ x, x ∉ fixed_values sudoku blocks) shuffled).
Proof.
  intros Hnd Hin Hsame. unfold fill_block. rewrite drop_fixed_fold.
  destruct (place_fold blocks result
              (filter (λ x, x ∉ fixed_values sudoku blocks) shuffled) Hnd Hin)
    as (_ & _ & _ & _ & _ & P5).
  cbv zeta in P5. rewrite P5. f_equal.
  apply list_fmap_ext. intros i c Hc. apply Hsame.
  by apply list_elem_of_lookup_2 in Hc.
Qed.

(** The loop over the blocks when every block is filled as in [s]. *)
Lemma random_matrix_fold_exact (sudoku s : ndarray) (shuffles : nat → list Z)
    (kbs : list (nat * list cell)) (result : ndarray) :
  NoDup (concat kbs.*2) →
  Forall (in_bounds result) (concat kbs.*2) →
  (∀ c, c ∈ concat kbs.*2 → nd_get result c = nd_get sudoku c) →
  Forall (λ kb, fill_values (nd_get sudoku <$> kb.2)
                  (filter (λ x, x ∉ fixed_values sudoku kb.2) (shuffles kb.1)) =
                nd_get s <$> kb.2) kbs →
  ∀ c, c ∈ concat kbs.*2 →
    nd_get (foldl (λ result kb, fill_block sudoku result kb.2 (shuffles kb.1))
                  result kbs) c = nd_get s c.
Proof.
  revert result. induction kbs as [|[k b] kbs IH]; intros result Hnd Hin Hsame Hall.
  - intros c Hc. by apply elem_of_nil in Hc.
  - rewrite fmap_cons in *. cbn [snd concat] in *.
    apply NoDup_app in Hnd as (Hndb & Hdisj & Hndr).
    apply Forall_app in Hin as [Hinb Hin].
    apply Forall_cons in Hall as [Hb Hall]. cbn [fst snd] in Hb.
    cbn [foldl fst snd].
    destruct (fill_block_any sudoku result b (shuffles k) Hndb Hinb)
      as (B0 & _ & _ & B3 & _ & _).
    pose proof (fill_block_exact sudoku result b (shuffles k) Hndb Hinb
                  (λ c Hc, Hsame c ltac:(apply elem_of_app; by left))) as Hex.
    rewrite Hb in Hex.
    set (r1 := fill_block sudoku result b (shuffles k)) in *.
    destruct (random_matrix_fold_any sudoku shuffles kbs r1 Hndr)
      as (_ & _ & _ & I3 & _ & _).
    { eapply Forall_impl; [exact Hin|]. intros c Hc. by apply B0. }
    intros c Hc. apply elem_of_app in Hc as [Hc|Hc].
    + cbv zeta in I3. rewrite I3 by (by apply Hdisj).
      apply list_elem_of_lookup in Hc as [i Hi].
      assert (Hl : (nd_get r1 <$> b) !! i = (nd_get s <$> b) !! i) by by rewrite Hex.
      rewrite !list_lookup_fmap, Hi in Hl. cbn in Hl. congruence.
    + apply IH; try done.
      * eapply Forall_impl; [exact Hin|]. intros c' Hc'. by apply B0.
      * intros c' Hc'. rewrite B3; [apply Hsame, elem_of_app; by right|].
        intros Hcb. by apply (Hdisj c').
Qed.

Lemma solution_shuffles_ok (p s : ndarray) :
  valid_solution s → shuffles_ok (solution_shuffles p s).
Proof.
  intros Hs k. unfold solution_shuffles. case_decide as Hk; [|reflexivity].
  rewrite <- fmap_app, filter_app_complement.
  apply (Hs k Hk).
Qed.

(** With these shuffles the initializer builds [s]. *)
Lemma random_matrix_solution (p s : ndarray) :
  shape9 p → shape9 s → valid_solution s → emptied p s →
  random_matrix blocks_index (solution_shuffles p s) p = s.
Proof.
  intros Hp Hshape Hs Hps.
  destruct (random_matrix_any p (solution_shuffles p s) Hp) as (Hr & _ & _).
  apply nd_ext; [exact Hr|exact Hshape|]. intros c Hc.
  unfold random_matrix. apply random_matrix_fold_exact.
  - rewrite blocks_index_enumerate. apply blocks_index_NoDup.
  - rewrite blocks_index_enumerate. apply Forall_forall. intros c' Hc'.
    apply shape9_in_bounds; [done|]. by apply blocks_index_cover.
  - done.
  - apply Forall_forall. intros [k b] Hkb. cbn [fst snd].
    apply list_elem_of_lookup in Hkb as [i Hi].
    apply lookup_zip_with_Some in Hi as (k' & b' & Heq & Hk' & Hb').
    injection Heq as <- <-.
    apply lookup_seq in Hk' as [-> Hlt]. cbn [plus] in *.
    apply list_lookup_total_correct in Hb' as Hbt. subst b.
    assert (Hk : (i < 9)%nat) by (rewrite blocks_index_length in Hlt; exact Hlt).
    unfold solution_shuffles. rewrite decide_True by exact Hk.
    assert (Hcell : ∀ c', c' ∈ blocks_index !!! i →
              nd_get p c' = nd_get s c' ∨ nd_get p c' = 0).
    { intros c' Hc'. apply Hps. by apply (block_cells i). }
    rewrite solution_candidates.
    + by apply fill_values_solution.
    + exact Hcell.
    + intros c' Hc'.
      assert (Hd : nd_get s c' ∈ digits).
      { apply block_valid_digit; [|by apply (block_cells i)].
        intros k' Hk''. apply (Hs k' Hk''). }
      apply digits_spec in Hd. lia.
    + fold (block_values s i). destruct (Hs i Hk) as (_ & _ & ->).
      apply digits_NoDup.
  - rewrite blocks_index_enumerate. by apply blocks_index_cover.
Qed.

Lemma first_pair_ok (p : ndarray) (self : Solver) :
  shape9 p → index self = blocks_index →
  pre_filled_indexes self = argwhere_nonzero p →
  draw_ok self (first_pair p).
Proof.
  intros Hp Hidx Hpre. split; [cbn [randint first_pair]; lia|].
  cbn [randint sample first_pair].
  rewrite (cells_available_empty p self 0 Hp Hidx Hpre). intros Hlen.
  exists 0%nat, 1%nat. cbn [fst snd].
  split_and!; [done| |]; apply list_lookup_lookup_total_lt; lia.
Qed.

(** The same move made an even number of times leads back. *)
Lemma walk_state_even (self : Solver) (d : draw) (k : nat) :
  index self = blocks_index → shape9 (grid self) → draw_ok self d →
  grid (walk_state self (λ _, d) (2 * k)) = grid self.
Proof.
  intros Hidx Hshape Hd. induction k as [|k IH]; [reflexivity|].
  replace (2 * S k)%nat with (S (S (2 * k))) by lia.
  rewrite (walk_state_S self _ (S (2 * k))), grid_set_grid.
  rewrite (walk_state_S self _ (2 * k)).
  destruct (walk_state_static self (λ _, d) (2 * k)) as (_ & Hi & Hp).
  revert IH Hi Hp. generalize (walk_state self (λ _, d) (2 * k)).
  intros w IH Hi Hp. rewrite neighbor_grid_involutive; [exact IH| | |].
  - by rewrite Hi.
  - by rewrite IH.
  - apply (draw_ok_static self w); [by rewrite Hi|by rewrite Hp|exact Hd].
Qed.

(** X16. Every solution of a puzzle is a possible output.  For a (9, 9)
    puzzle and a valid solution [s] that agrees with its clues, there are
    outcomes of the shuffles and of the moves of [init_temperature], all
    within the contract of the random functions, under which the script
    returns [s], at the first test of [solve] and whatever the random
    outcomes of [solve] would be. *)
Theorem every_solution_possible (p s : ndarray) :
  shape9 p → shape9 s → valid_solution s → emptied p s →
  ∃ shuffles draws,
    shuffles_ok shuffles ∧
    (∀ k, draw_ok (walk_state (init_assign p shuffles) draws k) (draws k)) ∧
    ∀ trials fuel, main p shuffles draws trials (S fuel) = Some (Return s).
Proof.
  intros Hp Hshape Hs Hps.
  exists (solution_shuffles p s), (λ _, first_pair p).
  pose proof (random_matrix_solution p s Hp Hshape Hs Hps) as Hr.
  split_and!.
  - by apply solution_shuffles_ok.
  - intros k.
    destruct (walk_state_static (init_assign p (solution_shuffles p s))
                (λ _, first_pair p) k) as (_ & Hi & Hpre).
    by apply (first_pair_ok p).
  - intros trials fuel.
    assert (Hgrid : grid (walk_state (init_assign p (solution_shuffles p s))
                            (λ _, first_pair p) 10) = s).
    { change 10%nat with (2 * 5)%nat. rewrite walk_state_even.
      - unfold init_assign. cbn [grid]. exact Hr.
      - reflexivity.
      - unfold init_assign. cbn [grid]. by rewrite Hr.
      - by apply (first_pair_ok p). }
    unfold main.
    rewrite (init_eq p (99 / 100)%R _ _ s _ _ Hgrid eq_refl eq_refl).
    generalize (grid_score (walk_state (init_assign p (solution_shuffles p s))
                              (λ _, first_pair p) 10)).
    generalize (population_std (walk_scores (init_assign p (solution_shuffles p s))
                                  (λ _, first_pair p) 10)).
    intros t v. unfold solve. cbn [solve_loop]. unfold epoch. cbn [grid].
    rewrite decide_True by (by apply valid_solution_score). reflexivity.
Qed.

Lemma every_solution_possible_witness :
  ∃ shuffles draws,
    shuffles_ok shuffles ∧
    ∀ trials, main example_puzzle shuffles draws trials 1 = Some (Return solved).
Proof.
  destruct (every_solution_possible example_puzzle solved)
    as (shuffles & draws & Hok & _ & Hmain).
  - apply example_puzzle_well_formed.
  - apply shape9_solved.
  - apply solved_valid.
  - unfold emptied. apply Forall_forall.
    apply (bool_decide_unpack _). vm_compute. exact I.
  - exists shuffles, draws. split; [exact Hok|].
    intros trials. apply Hmain.
Defined.
